(** * reV supply-curve transmission features: capacity allocation and cost

    A shallow embedding of [reV/handlers/transmission.py] (class
    [TransmissionFeatures]) and the verification of its capacity
    bookkeeping: feasibility checks, the substation load-spreading loop,
    the availability mask and the cost model.

    Numbers.  Capacities, distances and costs are Python floats in the
    source.  They are modelled by exact rationals [Q]; equalities that the
    source reaches through arithmetic are stated up to [==] (Qeq), values
    that the source stores are compared with [=].

    Effects.  Methods mutate [self] and may raise; a raised exception
    leaves the mutations done so far in place.  A method is therefore a
    function from the object to an [outcome]: the value or the exception,
    the object afterwards, and the warnings emitted on the way. *)

From Stdlib Require Import ZArith QArith Qminmax Lqa.
From stdpp Require Import base option list gmap strings.

Local Open Scope string_scope.
Local Open Scope list_scope.
Local Open Scope Q_scope.

(** ** Data model *)

(** Feature gids are Python integers. *)
Abbreviation gid := Z.

(** A feature record is a dict with the keys ['type'], ['avail_cap'] and
    ['lines'].  ['avail_cap'] may be missing ([None]), hold Python's
    [None] ([Some None], the unbounded sink) or a number. *)
Record feature := Feature {
  f_type : string;
  f_avail_cap : option (option Q);
  f_lines : option (list gid)
}.

Definition set_avail_cap (f : feature) (v : Q) : feature :=
  {| f_type := f_type f; f_avail_cap := Some (Some v); f_lines := f_lines f |}.

(** The instance attributes set by [__init__]. *)
Record TransmissionFeatures := Build_TF {
  _line_tie_in_cost : Q;
  _line_cost : Q;
  _station_tie_in_cost : Q;
  _center_tie_in_cost : Q;
  _sink_tie_in_cost : Q;
  _available_capacity : Q;
  _features : gmap Z feature;
  _feature_gid_list : list gid;
  _available_mask : list bool
}.

Definition with_features (self : TransmissionFeatures) (fs : gmap Z feature)
  : TransmissionFeatures :=
  {| _line_tie_in_cost := _line_tie_in_cost self;
     _line_cost := _line_cost self;
     _station_tie_in_cost := _station_tie_in_cost self;
     _center_tie_in_cost := _center_tie_in_cost self;
     _sink_tie_in_cost := _sink_tie_in_cost self;
     _available_capacity := _available_capacity self;
     _features := fs;
     _feature_gid_list := _feature_gid_list self;
     _available_mask := _available_mask self |}.

Definition with_mask (self : TransmissionFeatures) (mask : list bool)
  : TransmissionFeatures :=
  {| _line_tie_in_cost := _line_tie_in_cost self;
     _line_cost := _line_cost self;
     _station_tie_in_cost := _station_tie_in_cost self;
     _center_tie_in_cost := _center_tie_in_cost self;
     _sink_tie_in_cost := _sink_tie_in_cost self;
     _available_capacity := _available_capacity self;
     _features := _features self;
     _feature_gid_list := _feature_gid_list self;
     _available_mask := mask |}.

(** ** Exceptions, warnings and the method monad *)

Inductive exn :=
| KeyError            (* missing dict key *)
| ValueError          (* list.index miss, argmax of an empty array, bad table *)
| IndexError          (* mask position out of range *)
| TypeError           (* arithmetic or comparison with None *)
| RuntimeError        (* raised by _connect *)
| ZeroDivisionError   (* capacity / len(...) with no line left *)
| AttributeError      (* method looked up on an object that lacks it *)
| IterationBudget.    (* not a Python exception: the loop budget ran out *)

Inductive HandlerWarning :=
| NotATransLine (found : string)
| UnknownFeatureType (found : string).

Record outcome (A : Type) := Outcome {
  result : exn + A;
  self_after : TransmissionFeatures;
  warned : list HandlerWarning
}.
Arguments Outcome {A} _ _ _.
Arguments result {A} _.
Arguments self_after {A} _.
Arguments warned {A} _.

Definition M (A : Type) : Type := TransmissionFeatures → outcome A.

Definition ret {A} (a : A) : M A := λ self, Outcome (inr a) self [].
Definition raise {A} (e : exn) : M A := λ self, Outcome (inl e) self [].
Definition warn (w : HandlerWarning) : M unit := λ self, Outcome (inr tt) self [w].
Definition get_self : M TransmissionFeatures := λ self, Outcome (inr self) self [].
Definition put_self (self' : TransmissionFeatures) : M unit :=
  λ _, Outcome (inr tt) self' [].

Definition bind {A B} (m : M A) (k : A → M B) : M B := λ self,
  let o := m self in
  match result o with
  | inl e => Outcome (inl e) (self_after o) (warned o)
  | inr a =>
      let o' := k a (self_after o) in
      Outcome (result o') (self_after o') (warned o ++ warned o')
  end.

#[global] Instance M_ret : MRet M := @ret.
#[global] Instance M_bind : MBind M := λ A B k m, bind m k.

(** [for x in xs: body(x)] *)
Fixpoint for_each {A} (xs : list A) (body : A → M unit) : M unit :=
  match xs with
  | [] => ret tt
  | x :: xs' => bind (body x) (λ _, for_each xs' body)
  end.

(** A [for] loop that updates local variables [s]. *)
Fixpoint for_fold {A S} (xs : list A) (s : S) (body : S → A → M S) : M S :=
  match xs with
  | [] => ret s
  | x :: xs' => bind (body s x) (λ s', for_fold xs' s' body)
  end.

(** ** Small numpy and list helpers *)

Definition Qltb (x y : Q) : bool := if Qlt_le_dec x y then true else false.

(** [xs[mask]] for a boolean mask. *)
Fixpoint bool_index {A} (mask : list bool) (xs : list A) : list A :=
  match mask, xs with
  | b :: mask', x :: xs' =>
      if b then x :: bool_index mask' xs' else bool_index mask' xs'
  | _, _ => []
  end.

(** [l.index(x)] *)
Fixpoint index (x : Z) (l : list Z) : option nat :=
  match l with
  | [] => None
  | y :: l' => if decide (y = x) then Some O else S <$> index x l'
  end.

(** [np.argmax]: the first position holding the maximum. *)
Fixpoint argmax_from (best : Q) (best_pos pos : nat) (xs : list Q) : nat :=
  match xs with
  | [] => best_pos
  | x :: xs' =>
      if Qlt_le_dec best x then argmax_from x pos (S pos) xs'
      else argmax_from best best_pos (S pos) xs'
  end.

Definition argmax (xs : list Q) : option nat :=
  match xs with
  | [] => None
  | x :: xs' => Some (argmax_from x O 1%nat xs')
  end.

Definition len {A} (l : list A) : Q := inject_Z (Z.of_nat (length l)).

(** [x / n] for a Python number [x]: a zero divisor raises.  The capacity
    that the spreading divides is the caller's number until a line has
    been filled.  Once [capacity -= apply_cap] has subtracted an element
    of a numeric array it is a numpy scalar, whose division by zero gives
    inf or nan with a RuntimeWarning and lets the run go on over no line
    at all.  That takes every line in play to have been filled, hence a
    request above their total capacity (lemmas
    [_connect_to_substation_synced] and [spread_no_zero_division]): up to
    there the run of the model is the run of the code, and there the
    model stops with the ZeroDivisionError of a Python number. *)
Definition py_div (x : Q) (n : Q) : M Q :=
  if Qeq_dec n 0 then raise ZeroDivisionError else ret (x / n).

(** ** Reading the catalog *)

(** [self._features[gid]] *)
Definition features_getitem (g : gid) : M feature := λ self,
  match _features self !! g with
  | Some f => ret f self
  | None => raise KeyError self
  end.

(** [feature['avail_cap']] *)
Definition getitem_avail_cap (f : feature) : M (option Q) :=
  match f_avail_cap f with
  | Some v => ret v
  | None => raise KeyError
  end.

(** [feature['lines']] *)
Definition getitem_lines (f : feature) : M (list gid) :=
  match f_lines f with
  | Some ls => ret ls
  | None => raise KeyError
  end.

(** A value used in arithmetic or an ordering comparison must not be None. *)
Definition as_number (v : option Q) : M Q :=
  match v with
  | Some q => ret q
  | None => raise TypeError
  end.

Definition _calc_cost (distance line_cost tie_in_cost transmission_multiplier : Q) : Q :=
  distance * line_cost * transmission_multiplier + tie_in_cost.

(** One turn of the loop of [_substation_capacity] over the local
    variables [(avail_cap, line_max)]. *)
Definition _substation_capacity_step (acc : Q * Q) (g : gid) : M (Q * Q) :=
  let '(avail_cap, line_max) := acc in
  line ← features_getitem g;
  if String.eqb (f_type line) "TransLine" then
    v ← getitem_avail_cap line;
    line_cap ← as_number v;
    ret (avail_cap + line_cap,
         if Qlt_le_dec line_max line_cap then line_cap else line_max)
  else
    _ ← warn (NotATransLine (f_type line));
    ret (avail_cap, line_max).

Definition _substation_capacity (line_gids : list gid) (line_limited : bool) : M Q :=
  acc ← for_fold line_gids (0, 0) _substation_capacity_step;
  let '(avail_cap, line_max) := acc in
  let avail_cap := avail_cap / 2 in
  if line_limited then
    if Qlt_le_dec line_max avail_cap then ret line_max else ret avail_cap
  else ret avail_cap.

(** The only keyword argument forwarded through [**kwargs] is
    [line_limited]; it is passed explicitly, [false] being the default. *)
Definition available_capacity (g : gid) (line_limited : bool) : M (option Q) :=
  feature ← features_getitem g;
  if String.eqb (f_type feature) "Substation" then
    ls ← getitem_lines feature;
    avail_cap ← _substation_capacity ls line_limited;
    ret (Some avail_cap)
  else getitem_avail_cap feature.

Definition list_index (g : gid) : M nat := λ self,
  match index g (_feature_gid_list self) with
  | Some i => ret i self
  | None => raise ValueError self
  end.

Definition _update_availability (g : gid) (line_limited : bool) : M unit :=
  avail_cap ← available_capacity g line_limited;
  match avail_cap with
  | Some q =>
      if Qeq_dec q 0 then
        i ← list_index g;
        self ← get_self;
        if decide (i < length (_available_mask self))%nat then
          put_self (with_mask self (<[i := false]> (_available_mask self)))
        else raise IndexError
      else ret tt
  | None => ret tt
  end.

Definition check_availability (g : gid) : M bool :=
  i ← list_index g;
  self ← get_self;
  match _available_mask self !! i with
  | Some b => ret b
  | None => raise IndexError
  end.

(** ** Reserving capacity *)

Definition _connect (g : gid) (capacity : Q) : M unit :=
  f ← features_getitem g;
  v ← getitem_avail_cap f;
  avail_cap ← as_number v;
  if Qlt_le_dec avail_cap capacity then raise RuntimeError
  else
    self ← get_self;
    put_self (with_features self
                (<[g := set_avail_cap f (avail_cap - capacity)]> (_features self))).

(** One turn of the loop of [_fill_lines]: the line at a masked position
    is filled to its capacity. *)
Definition _fill_lines_step (capacity : Q) (p : gid * Q) : M Q :=
  let '(g, apply_cap) := p in
  _ ← _connect g apply_cap;
  ret (capacity - apply_cap).

Definition _fill_lines (line_gids : list gid) (line_caps : list Q) (capacity : Q)
  : M (list gid * list Q * Q) :=
  apply_cap ← py_div capacity (len line_gids);
  let mask := (λ cap, Qltb cap apply_cap) <$> line_caps in
  capacity ← for_fold (bool_index mask (zip line_gids line_caps)) capacity
              _fill_lines_step;
  ret (bool_index (negb <$> mask) line_gids,
       bool_index (negb <$> mask) line_caps,
       capacity).

(** The [while True] loop of [_spread_substation_load]; [budget] bounds the
    number of iterations. *)
Fixpoint spread_loop (budget : nat) (line_gids : list gid) (line_caps : list Q)
    (capacity : Q) : M (list gid * Q) :=
  match budget with
  | O => raise IterationBudget
  | S budget' =>
      r ← _fill_lines line_gids line_caps capacity;
      let '(lines, line_caps, capacity) := r in
      if (length lines <? length line_gids)%nat then
        spread_loop budget' lines line_caps capacity
      else ret (lines, capacity)
  end.

Definition spread_with_budget (budget : nat) (line_gids : list gid)
    (line_caps : list Q) (capacity : Q) : M unit :=
  r ← spread_loop budget line_gids line_caps capacity;
  let '(lines, capacity) := r in
  apply_cap ← py_div capacity (len lines);
  for_each lines (λ g, _connect g apply_cap).

(** Every iteration but the last shortens [line_gids], so
    [length line_gids + 1] iterations always suffice (lemma
    [spread_loop_budget_enough]). *)
Definition _spread_substation_load (line_gids : list gid) (line_caps : list Q)
    (capacity : Q) : M unit :=
  spread_with_budget (S (length line_gids)) line_gids line_caps capacity.

(** [np.nonzero] keeps the truthy entries: numbers other than zero. *)
Definition truthy (v : option Q) : bool :=
  match v with
  | Some q => if Qeq_dec q 0 then false else true
  | None => false
  end.

Definition numbers (vs : list (option Q)) : list Q :=
  omap id vs.

(** [[self._features[gid]['avail_cap'] for gid in line_gids]] *)
Definition member_caps_step (acc : list (option Q)) (g : gid) : M (list (option Q)) :=
  f ← features_getitem g;
  v ← getitem_avail_cap f;
  ret (acc ++ [v]).

Definition _connect_to_substation (line_gids : list gid) (capacity : Q)
    (line_limited : bool) : M unit :=
  line_caps ← for_fold line_gids [] member_caps_step;
  if line_limited then
    if decide (Forall is_Some line_caps) then
      match argmax (numbers line_caps) with
      | Some pos =>
          match line_gids !! pos with
          | Some g => _connect g capacity
          | None => raise IndexError
          end
      | None => raise ValueError
      end
    else raise TypeError
  else
    let non_zero := truthy <$> line_caps in
    let line_gids := bool_index non_zero line_gids in
    let line_caps := numbers (bool_index non_zero line_caps) in
    _spread_substation_load line_gids line_caps capacity.

Definition connect (g : gid) (capacity : Q) (apply : bool) (line_limited : bool)
  : M bool :=
  available ← check_availability g;
  if available : bool then
    avail_cap ← available_capacity g line_limited;
    if match avail_cap with
       | Some a => Qltb a capacity
       | None => false
       end
    then ret false
    else
      _ ← (if apply then
             f ← features_getitem g;
             let feature_type := f_type f in
             _ ← (if String.eqb feature_type "TransLine" then _connect g capacity
                  else if String.eqb feature_type "Substation" then
                    ls ← getitem_lines f;
                    _connect_to_substation ls capacity line_limited
                  else if String.eqb feature_type "LoadCen" then _connect g capacity
                  else ret tt) : M unit;
             _update_availability g false
           else ret tt) : M unit;
      ret true
  else ret false.

(** ** Cost model *)

Definition cost (g : gid) (distance transmission_multiplier : Q)
    (capacity : option Q) (line_limited : bool) : M (option Q) :=
  f ← features_getitem g;
  let feature_type := f_type f in
  self ← get_self;
  let line_cost := _line_cost self in
  tie_in_cost ←
    (if String.eqb feature_type "TransLine" then ret (_line_tie_in_cost self)
     else if String.eqb feature_type "Substation" then ret (_station_tie_in_cost self)
     else if String.eqb feature_type "LoadCen" then ret (_center_tie_in_cost self)
     else if String.eqb feature_type "PCALoadCen" then ret (_sink_tie_in_cost self)
     else _ ← warn (UnknownFeatureType feature_type); ret 0) : M Q;
  let cost := _calc_cost distance line_cost tie_in_cost transmission_multiplier in
  match capacity with
  | Some c =>
      connected ← connect g c false line_limited;
      if connected : bool then ret (Some cost) else ret None
  | None => ret (Some cost)
  end.

(** ** Building the catalog from a transmission table *)

(** One row of the supply-curve transmission table.  [trans_gids] is the
    JSON list of the row already decoded; [transmission_multiplier] is
    [None] where the row holds no multiplier: the table has no such
    column, or it has one and the cell of the row is NaN. *)
Record row := Row {
  trans_line_gid : gid;
  category : string;
  ac_cap : Q;
  trans_gids : list gid;
  dist_mi : Q;
  transmission_multiplier : option Q
}.

(** What a caller may pass as [trans_table]. *)
Inductive table_arg :=
| TablePath (path : string)
| TableFrame (df : list row)
| TableOther.

Definition endswith (s suffix : string) : bool :=
  let n := String.length s in
  let k := String.length suffix in
  (k <=? n)%nat && String.eqb (String.substring (n - k) k s) suffix.

(** The dict built for one row of [trans_features]. *)
Definition feature_dict (cap_perc : Q) (r : row) : feature :=
  let name := category r in
  if String.eqb name "TransLine" then
    Feature name (Some (Some (ac_cap r * cap_perc))) None
  else if String.eqb name "Substation" then
    Feature name None (Some (trans_gids r))
  else if String.eqb name "LoadCen" then
    Feature name (Some (Some (ac_cap r * cap_perc))) None
  else if String.eqb name "PCALoadCen" then
    Feature name (Some None) None
  else Feature name None None.

(** [groupby('trans_line_gid').first()] keeps the first row of every gid:
    folding from the right, the leftmost row of a gid is inserted last. *)
Definition _features_from_table (cap_perc : Q) (trans_table : list row)
  : gmap Z feature :=
  foldr (λ r fs, <[trans_line_gid r := feature_dict cap_perc r]> fs) ∅ trans_table.

Section Files.
(** [pd.read_csv] and [pd.read_json]: the file system is a parameter. *)
Variables read_csv read_json : string → exn + list row.

Definition _parse_table (trans_table : table_arg) : exn + list row :=
  match trans_table with
  | TablePath p =>
      if endswith p ".csv" then read_csv p
      else if endswith p ".json" then read_json p
      else inl ValueError
  | TableFrame df => inr df
  | TableOther => inl ValueError
  end.

(** [features], when given, is the feature dict itself (decoding it from
    JSON text is outside the model). *)
Definition _get_features (cap_perc : Q) (trans_table : table_arg)
    (features : option (gmap Z feature)) : exn + gmap Z feature :=
  match features with
  | Some fs => inr fs
  | None =>
      match _parse_table trans_table with
      | inl e => inl e
      | inr df => inr (_features_from_table cap_perc df)
      end
  end.

(** [list(self._features.keys())]: the keys, each once; the mask starts
    all true. *)
Definition __init__ (trans_table : table_arg) (features : option (gmap Z feature))
    (line_tie_in_cost line_cost station_tine_in_cost center_tie_in_cost
       sink_tie_in_cost available_capacity : Q)
  : exn + TransmissionFeatures :=
  match _get_features available_capacity trans_table features with
  | inl e => inl e
  | inr fs =>
      inr {| _line_tie_in_cost := line_tie_in_cost;
             _line_cost := line_cost;
             _station_tie_in_cost := station_tine_in_cost;
             _center_tie_in_cost := center_tie_in_cost;
             _sink_tie_in_cost := sink_tie_in_cost;
             _available_capacity := available_capacity;
             _features := fs;
             _feature_gid_list := (map_to_list fs).*1;
             _available_mask := replicate (length (map_to_list fs)) true |}
  end.

(** [trans_table.iterrows()]: only a DataFrame has the method. *)
Definition iterrows (trans_table : table_arg) : exn + list row :=
  match trans_table with
  | TableFrame df => inr df
  | TablePath _ | TableOther => inl AttributeError
  end.

(** The rows of a table share its columns: the table has the column
    ['transmission_multiplier'] when one of its rows holds a multiplier. *)
Definition has_multiplier_column (rows : list row) : bool :=
  existsb (λ r, bool_decide (is_Some (transmission_multiplier r))) rows.

(** [row.get('transmission_multiplier', 1)]: the default answers only when
    the table has no such column.  In a table that has the column, a row
    without a multiplier answers with its NaN, [None] here. *)
Definition row_get_multiplier (rows : list row) (r : row) : option Q :=
  if has_multiplier_column rows then transmission_multiplier r else Some 1.

(** [feature.cost(row['trans_line_gid'], row['dist_mi'], capacity=capacity,
    transmission_multiplier=tm)] for a multiplier that may be NaN.  The
    multiplier enters the price and nothing else: with NaN the lookups,
    the warning and the probe of [cost] are those of any multiplier, and
    what comes back, NaN or None, is NaN in the array of costs. *)
Definition cost_of_row (tm : option Q) (r : row) (capacity : option Q)
    (line_limited : bool) : M (option Q) :=
  c ← cost (trans_line_gid r) (dist_mi r) (default 0 tm) capacity line_limited;
  ret (match tm with Some _ => c | None => None end).

(** The body of the [for _, row in trans_table.iterrows()] loop. *)
Definition costs_loop (rows : list row) (capacity : option Q)
    (line_limited : bool) : M (list (option Q)) :=
  for_fold rows [] (λ costs r,
    let tm := row_get_multiplier rows r in
    c ← cost_of_row tm r capacity line_limited;
    ret (costs ++ [c])).

(** The returned array: one entry per cost, [None] standing for nan
    (rounding to 32 bits is not modelled). *)
Definition feature_costs (trans_table : table_arg)
    (features : option (gmap Z feature)) (capacity : option Q)
    (line_tie_in_cost line_cost station_tine_in_cost center_tie_in_cost
       sink_tie_in_cost available_capacity : Q) (line_limited : bool)
  : exn + list (option Q) :=
  match __init__ trans_table features line_tie_in_cost line_cost
          station_tine_in_cost center_tie_in_cost sink_tie_in_cost
          available_capacity with
  | inl e => inl e
  | inr feature =>
      match iterrows trans_table with
      | inl e => inl e
      | inr rows => result (costs_loop rows capacity line_limited feature)
      end
  end.
End Files.

(** ** The container protocol *)

(** [len(self)]: the number of features of the catalog. *)
Definition __len__ (self : TransmissionFeatures) : nat := size (_features self).

(** [HandlerKeyError] of [reV.utilities.exceptions], raised by
    [__getitem__] with the offending gid in its message. *)
Inductive HandlerKeyError := InvalidFeatureGid (g : gid).

(** [self[gid]]: the membership test comes first, so a miss is a
    [HandlerKeyError] and never the [KeyError] of the dict. *)
Definition __getitem__ (g : gid) (self : TransmissionFeatures)
  : HandlerKeyError + feature :=
  match _features self !! g with
  | None => inl (InvalidFeatureGid g)
  | Some f => inr f
  end.

(** ** Specification vocabulary *)

(** A method that never changes the object, whatever it returns. *)
Definition read_only {A} (m : M A) : Prop :=
  ∀ self, self_after (m self) = self.

(** [m], started on [self], ends with [r] (a value or an exception) and
    leaves the object [self']. *)
Definition runs {A} (m : M A) (self : TransmissionFeatures) (r : exn + A)
    (self' : TransmissionFeatures) : Prop :=
  result (m self) = r ∧ self_after (m self) = self'.

(** The stored capacity of a feature, 0 when it has none. *)
Definition cap_of (fs : gmap Z feature) (g : gid) : Q :=
  match fs !! g with
  | Some f => match f_avail_cap f with
              | Some (Some a) => a
              | _ => 0
              end
  | None => 0
  end.

Definition Qsum (xs : list Q) : Q := foldr Qplus 0 xs.

(** [g] is a transmission line with a numeric capacity. *)
Definition is_line (fs : gmap Z feature) (g : gid) : Prop :=
  ∃ f a, fs !! g = Some f ∧ f_type f = "TransLine" ∧ f_avail_cap f = Some (Some a).

(** The gid list and the mask index exactly the catalog. *)
Record wf_state (self : TransmissionFeatures) : Prop := {
  wf_nodup : NoDup (_feature_gid_list self);
  wf_keys : ∀ g, g ∈ _feature_gid_list self ↔ is_Some (_features self !! g);
  wf_mask : length (_available_mask self) = length (_feature_gid_list self)
}.

(** The tie-in cost selected by a feature type. *)
Definition tie_in_cost (self : TransmissionFeatures) (feature_type : string) : Q :=
  if String.eqb feature_type "TransLine" then _line_tie_in_cost self
  else if String.eqb feature_type "Substation" then _station_tie_in_cost self
  else if String.eqb feature_type "LoadCen" then _center_tie_in_cost self
  else if String.eqb feature_type "PCALoadCen" then _sink_tie_in_cost self
  else 0.

(** Python's [avail_cap == 0]: false for [None]. *)
Definition is_zero (v : option Q) : bool :=
  match v with
  | Some q => if Qeq_dec q 0 then true else false
  | None => false
  end.

Definition simple_type (t : string) : Prop := t = "TransLine" ∨ t = "LoadCen".

(** The object left by a feasible reservation of [c] on a simple feature. *)
Definition after_simple_connect (self : TransmissionFeatures) (g : gid)
    (f : feature) (a c : Q) (i : nat) : TransmissionFeatures :=
  let s1 := with_features self (<[g := set_avail_cap f (a - c)]> (_features self)) in
  if Qeq_dec (a - c) 0 then with_mask s1 (<[i := false]> (_available_mask self))
  else s1.

(** *** Example catalogs *)

Definition line (a : Q) : feature := Feature "TransLine" (Some (Some a)) None.
Definition load_center (a : Q) : feature := Feature "LoadCen" (Some (Some a)) None.
Definition station (ls : list gid) : feature := Feature "Substation" None (Some ls).

(** A catalog with the default cost parameters over the given features. *)
Definition catalog (fs : list (gid * feature)) : TransmissionFeatures :=
  {| _line_tie_in_cost := 14000; _line_cost := 3667;
     _station_tie_in_cost := 0; _center_tie_in_cost := 0;
     _sink_tie_in_cost := 0; _available_capacity := 1 # 10;
     _features := list_to_map fs;
     _feature_gid_list := fs.*1;
     _available_mask := replicate (length fs) true |}.

(** Two lines of capacity 10 and 3 under substation 7. *)
Definition two_line_station : TransmissionFeatures :=
  catalog [(1%Z, line 10); (2%Z, line 3); (7%Z, station [1%Z; 2%Z])].

(** The same substation once both lines are used up. *)
Definition drained_station : TransmissionFeatures :=
  catalog [(1%Z, line 0); (2%Z, line 0); (7%Z, station [1%Z; 2%Z])].

(** A substation whose member list repeats gid 1. *)
Definition repeated_member_station : TransmissionFeatures :=
  catalog [(1%Z, line 2); (2%Z, line 100); (7%Z, station [1%Z; 1%Z; 2%Z])].

(** A substation that lists a load center among its members. *)
Definition mixed_station : TransmissionFeatures :=
  catalog [(1%Z, line 10); (2%Z, line 3); (5%Z, load_center 50);
           (7%Z, station [1%Z; 5%Z; 2%Z])].

(** A substation that lists gid 4, which the catalog does not hold. *)
Definition dangling_station : TransmissionFeatures :=
  catalog [(1%Z, line 10); (7%Z, station [1%Z; 4%Z])].

(** A substation over a single line that holds a negative capacity. *)
Definition overdrawn_station : TransmissionFeatures :=
  catalog [(1%Z, line (-3)); (7%Z, station [1%Z])].

(** A substation over three lines of capacity 4 and a load center. *)
Definition crowded_station : TransmissionFeatures :=
  catalog [(1%Z, line 4); (2%Z, line 4); (3%Z, line 4); (5%Z, load_center 50);
           (7%Z, station [1%Z; 5%Z; 2%Z; 3%Z])].

(** The table of the one-line example: [ac_cap = 100]. *)
Definition one_line_table : list row :=
  [ {| trans_line_gid := 1; category := "TransLine"; ac_cap := 100;
       trans_gids := []; dist_mi := 10; transmission_multiplier := None |} ].

(** *** Substations *)

(** The capacities of the members of a substation that are TransLines. *)
Definition member_line_caps (fs : gmap Z feature) (ls : list gid) : list Q :=
  omap (λ l, match fs !! l with
             | Some fl => if String.eqb (f_type fl) "TransLine"
                          then Some (cap_of fs l) else None
             | None => None
             end) ls.

(** One warning for every member that is not a TransLine. *)
Definition member_warnings (fs : gmap Z feature) (ls : list gid)
  : list HandlerWarning :=
  omap (λ l, match fs !! l with
             | Some fl => if String.eqb (f_type fl) "TransLine"
                          then None else Some (NotATransLine (f_type fl))
             | None => None
             end) ls.

(** Every member gid is in the catalog, and those typed TransLine carry a
    number. *)
Definition members_resolve (fs : gmap Z feature) (ls : list gid) : Prop :=
  Forall (λ l, ∃ fl, fs !! l = Some fl
    ∧ (f_type fl = "TransLine" → ∃ a, f_avail_cap fl = Some (Some a))) ls.

(** [m] is the largest element of [xs]. *)
Definition largest (xs : list Q) (m : Q) : Prop :=
  m ∈ xs ∧ Forall (λ x, x <= m) xs.

(** *** Reservations *)

(** [reserved fs rs fs']: the successful calls [_connect g a], for [(g, a)]
    running through [rs] in order, lead from the feature map [fs] to
    [fs'].  Each call found a number [q] with [a <= q] and stored
    [q - a]. *)
Inductive reserved : gmap Z feature → list (gid * Q) → gmap Z feature → Prop :=
| reserved_nil fs : reserved fs [] fs
| reserved_cons fs g a f q rs fs' :
    fs !! g = Some f →
    f_avail_cap f = Some (Some q) →
    a <= q →
    reserved (<[g := set_avail_cap f (q - a)]> fs) rs fs' →
    reserved fs ((g, a) :: rs) fs'.

(** Sum of the stored capacities of [gids]. *)
Definition total (fs : gmap Z feature) (gids : list gid) : Q :=
  Qsum (cap_of fs <$> gids).

(** A reservation changes nothing but stored numbers. *)
Definition same_shape (f f' : feature) : Prop :=
  f_type f' = f_type f ∧ f_lines f' = f_lines f
  ∧ (f_avail_cap f' = f_avail_cap f
     ∨ ∃ a a', f_avail_cap f = Some (Some a) ∧ f_avail_cap f' = Some (Some a')).

(** The lines in play are kept as pairs [(gid, capacity)]: [line_gids] and
    [line_caps] are the two projections.  [below x p]: the capacity of [p]
    is below the share [x]. *)
Definition below (x : Q) (p : gid * Q) : Prop := Qltb p.2 x = true.

#[global] Instance below_dec x p : Decision (below x p).
Proof. unfold below. apply _. Defined.

Definition filled (x : Q) (ps : list (gid * Q)) : list (gid * Q) :=
  filter (below x) ps.

Definition kept (x : Q) (ps : list (gid * Q)) : list (gid * Q) :=
  filter (λ p, ¬ below x p) ps.

(** The stored capacity of every pair's gid is the pair's capacity. *)
Definition synced (fs : gmap Z feature) (ps : list (gid * Q)) : Prop :=
  ∀ g a, (g, a) ∈ ps → ∃ f, fs !! g = Some f ∧ f_avail_cap f = Some (Some a).

(** The value read for member [l] by [_connect_to_substation]. *)
Definition value_of (fs : gmap Z feature) (l : gid) : option Q :=
  match fs !! l with
  | Some f => match f_avail_cap f with Some v => v | None => None end
  | None => None
  end.

(** [l] is in the catalog and has the key ['avail_cap']. *)
Definition has_cap_key (fs : gmap Z feature) (l : gid) : Prop :=
  ∃ f v, fs !! l = Some f ∧ f_avail_cap f = Some v.

(** The members that take part in the spreading: those with a stored
    number other than zero, with that number. *)
Definition in_play (fs : gmap Z feature) (ls : list gid) : list (gid * Q) :=
  omap (λ l, match value_of fs l with
             | Some q => if Qeq_dec q 0 then None else Some (l, q)
             | None => None
             end) ls.

(** The cost of one row of the table [df] on the catalog [feature]. *)
Definition row_cost (df : list row) (capacity : option Q) (line_limited : bool)
    (feature : TransmissionFeatures) (r : row) : exn + option Q :=
  result (cost_of_row (row_get_multiplier df r) r capacity line_limited feature).

(** *** The catalog invariant *)

(** [connect(gid, c, apply=True, line_limited=ll)] for every [(gid, c, ll)]
    of [calls], in order.  A caller that catches an exception goes on with
    the object as the failed call left it. *)
Fixpoint run_calls (calls : list (gid * Q * bool)) (self : TransmissionFeatures)
  : TransmissionFeatures :=
  match calls with
  | [] => self
  | (g, c, ll) :: calls' =>
      run_calls calls' (self_after (connect g c true ll self))
  end.

(** What the spec asks of a feature record: stored capacities are not
    negative, and a substation lists distinct TransLines of the catalog. *)
Definition feature_ok (fs : gmap Z feature) (f : feature) : Prop :=
  (∀ a, f_avail_cap f = Some (Some a) → 0 <= a)
  ∧ (f_type f = "Substation" →
     ∃ ls, f_lines f = Some ls ∧ NoDup ls ∧ Forall (is_line fs) ls).

(** The capacity of [g], stored or derived, is zero. *)
Definition drained (fs : gmap Z feature) (g : gid) : Prop :=
  ∃ f, fs !! g = Some f
    ∧ if decide (f_type f = "Substation")
      then ∃ ls, f_lines f = Some ls ∧ total fs ls == 0
      else ∃ q, f_avail_cap f = Some (Some q) ∧ q == 0.

(** [available_capacity(g)] returns a number that is zero. *)
Definition no_capacity (self : TransmissionFeatures) (g : gid) : Prop :=
  ∃ q, result (available_capacity g false self) = inr (Some q) ∧ q == 0.

Record catalog_ok (self : TransmissionFeatures) : Prop := {
  ok_wf : wf_state self;
  ok_features : ∀ g f, _features self !! g = Some f → feature_ok (_features self) f;
  ok_cleared : ∀ g i, index g (_feature_gid_list self) = Some i →
                      _available_mask self !! i = Some false →
                      drained (_features self) g
}.

(** A trace that the invariant tolerates. *)
Definition gentle (fs : gmap Z feature) (rs : list (gid * Q)) : Prop :=
  NoDup rs.*1 ∧ ∀ g a, (g, a) ∈ rs → 0 <= a ∨ ¬ cap_of fs g == 0.

(** The object keeps its gid list, and no flag went back to true. *)
Definition evolves (self self' : TransmissionFeatures) : Prop :=
  _feature_gid_list self' = _feature_gid_list self
  ∧ length (_available_mask self') = length (_available_mask self)
  ∧ ∀ i, _available_mask self !! i = Some false →
         _available_mask self' !! i = Some false.

(** A mask in which no flag went back to true. *)
Definition flags_only_cleared (mask mask' : list bool) : Prop :=
  length mask' = length mask
  ∧ ∀ i, mask !! i = Some false → mask' !! i = Some false.

(** *** Tables *)

(** The first row of the table whose gid is [g]. *)
Fixpoint first_row (g : gid) (trans_table : list row) : option row :=
  match trans_table with
  | [] => None
  | r :: rows =>
      if decide (trans_line_gid r = g) then Some r else first_row g rows
  end.

(** The feature types that [cost] knows a tie-in cost for. *)
Definition known_type (t : string) : bool :=
  String.eqb t "TransLine" || String.eqb t "Substation"
  || String.eqb t "LoadCen" || String.eqb t "PCALoadCen".


(** The unbounded sink: ['avail_cap'] holds [None]. *)
Definition sink : feature := Feature "PCALoadCen" (Some None) None.

(** A line, a load center, a sink and a feature of a type the code does
    not know. *)
Definition assorted_catalog : TransmissionFeatures :=
  catalog [(1%Z, line 10); (5%Z, load_center 50); (9%Z, sink);
           (11%Z, Feature "Tower" None None)].

(** A table with two rows for gid 1 and one row for a sink. *)
Definition repeated_gid_table : list row :=
  [ {| trans_line_gid := 1; category := "TransLine"; ac_cap := 100;
       trans_gids := []; dist_mi := 10; transmission_multiplier := None |};
    {| trans_line_gid := 9; category := "PCALoadCen"; ac_cap := 0;
       trans_gids := []; dist_mi := 4; transmission_multiplier := Some 2 |};
    {| trans_line_gid := 1; category := "LoadCen"; ac_cap := 7;
       trans_gids := []; dist_mi := 3; transmission_multiplier := Some (3 # 2) |} ].

(** *** What a call leaves alone *)

(** The cost parameters and the gid list of [self'] are those of [self]. *)
Definition same_settings (self self' : TransmissionFeatures) : Prop :=
  _line_tie_in_cost self' = _line_tie_in_cost self
  ∧ _line_cost self' = _line_cost self
  ∧ _station_tie_in_cost self' = _station_tie_in_cost self
  ∧ _center_tie_in_cost self' = _center_tie_in_cost self
  ∧ _sink_tie_in_cost self' = _sink_tie_in_cost self
  ∧ _available_capacity self' = _available_capacity self
  ∧ _feature_gid_list self' = _feature_gid_list self.

(** Every record of [fs] is still there in [fs'], with its type and its
    lines, and [fs'] has no other record. *)
Definition same_records (fs fs' : gmap Z feature) : Prop :=
  ∀ g, match fs !! g with
       | Some f => ∃ f', fs' !! g = Some f' ∧ same_shape f f'
       | None => fs' !! g = None
       end.

(** Three lines of capacity 3 under substation 7: half the sum is more
    than any single line. *)
Definition three_line_station : TransmissionFeatures :=
  catalog [(1%Z, line 3); (2%Z, line 3); (3%Z, line 3);
           (7%Z, station [1%Z; 2%Z; 3%Z])].

(** The reservation that [connect] makes for a feature of record [f],
    once the request has passed the feasibility check. *)
Definition reserve_on (g : gid) (f : feature) (c : Q) (ll : bool) : M unit :=
  if String.eqb (f_type f) "TransLine" then _connect g c
  else if String.eqb (f_type f) "Substation" then
    ls ← getitem_lines f; _connect_to_substation ls c ll
  else if String.eqb (f_type f) "LoadCen" then _connect g c
  else ret tt.

(** What the catalog invariant asks of a table row: the capacity that a
    line or load center gets is not negative, and a substation lists
    distinct gids whose first rows are TransLines. *)
Definition row_ok (cap_perc : Q) (df : list row) (r : row) : Prop :=
  (category r = "TransLine" ∨ category r = "LoadCen" → 0 <= ac_cap r * cap_perc)
  ∧ (category r = "Substation" →
     NoDup (trans_gids r)
     ∧ Forall (λ l, ∃ r', first_row l df = Some r' ∧ category r' = "TransLine")
         (trans_gids r)).

(** The table of the two-line substation: lines 1 and 2, substation 7. *)
Definition station_table : list row :=
  [ {| trans_line_gid := 1; category := "TransLine"; ac_cap := 100;
       trans_gids := []; dist_mi := 10; transmission_multiplier := None |};
    {| trans_line_gid := 2; category := "TransLine"; ac_cap := 30;
       trans_gids := []; dist_mi := 12; transmission_multiplier := None |};
    {| trans_line_gid := 7; category := "Substation"; ac_cap := 0;
       trans_gids := [1%Z; 2%Z]; dist_mi := 5; transmission_multiplier := None |} ].

(** * Verification *)

(** ** Running the monad *)

Lemma bind_result {A B} (m : M A) (k : A → M B) self :
  result (bind m k self) =
  match result (m self) with
  | inl e => inl e
  | inr a => result (k a (self_after (m self)))
  end.
Proof. unfold bind. by destruct (result (m self)). Qed.

Lemma bind_self_after {A B} (m : M A) (k : A → M B) self :
  self_after (bind m k self) =
  match result (m self) with
  | inl e => self_after (m self)
  | inr a => self_after (k a (self_after (m self)))
  end.
Proof. unfold bind. by destruct (result (m self)). Qed.

Lemma mbind_unfold {A B} (m : M A) (k : A → M B) : (m ≫= k) = bind m k.
Proof. reflexivity. Qed.

Lemma runs_intro {A} (m : M A) self : runs m self (result (m self)) (self_after (m self)).
Proof. by split. Qed.

Lemma runs_outcome {A} (m : M A) self r self' w :
  m self = Outcome r self' w → runs m self r self'.
Proof. intros H. unfold runs. by rewrite H. Qed.

Lemma runs_ret {A} (a : A) self : runs (ret a) self (inr a) self.
Proof. by split. Qed.

Lemma runs_bind_ok {A B} (m : M A) (k : A → M B) self a s1 r s2 :
  runs m self (inr a) s1 → runs (k a) s1 r s2 → runs (bind m k) self r s2.
Proof.
  intros [Hr Hs] [Hr' Hs']. unfold runs.
  by rewrite bind_result, bind_self_after, Hr, Hs.
Qed.

Lemma runs_bind_err {A B} (m : M A) (k : A → M B) self e s1 :
  runs m self (inl e) s1 → runs (bind m k) self (inl e) s1.
Proof.
  intros [Hr Hs]. unfold runs. by rewrite bind_result, bind_self_after, Hr, Hs.
Qed.

Lemma runs_bind_inv {A B} (m : M A) (k : A → M B) self r s2 :
  runs (bind m k) self r s2 →
  (∃ e, r = inl e ∧ runs m self (inl e) s2)
  ∨ (∃ a s1, runs m self (inr a) s1 ∧ runs (k a) s1 r s2).
Proof.
  unfold runs. rewrite bind_result, bind_self_after.
  destruct (result (m self)) as [e|a] eqn:Hr; intros [<- <-]; eauto 10.
Qed.

Lemma runs_det {A} (m : M A) self r1 s1 r2 s2 :
  runs m self r1 s1 → runs m self r2 s2 → r1 = r2 ∧ s1 = s2.
Proof. intros [<- <-] [<- <-]. done. Qed.

(** ** Methods that only read *)

Lemma runs_read_only {A} (m : M A) self r self' :
  read_only m → runs m self r self' → self' = self.
Proof. intros Hm [_ <-]. apply Hm. Qed.

Lemma read_only_runs {A} (m : M A) self r :
  read_only m → result (m self) = r → runs m self r self.
Proof. intros Hm Hr. split; [done | apply Hm]. Qed.


Lemma read_only_ret {A} (a : A) : read_only (ret a).
Proof. by intros self. Qed.

Lemma read_only_raise {A} e : read_only (@raise A e).
Proof. by intros self. Qed.

Lemma read_only_warn w : read_only (warn w).
Proof. by intros self. Qed.

Lemma read_only_get_self : read_only get_self.
Proof. by intros self. Qed.

Lemma read_only_bind {A B} (m : M A) (k : A → M B) :
  read_only m → (∀ a, read_only (k a)) → read_only (bind m k).
Proof.
  intros Hm Hk self. rewrite bind_self_after.
  destruct (result (m self)); rewrite Hm; [done | apply Hk].
Qed.

Lemma read_only_for_fold {A S} (xs : list A) (body : S → A → M S) s :
  (∀ s x, read_only (body s x)) → read_only (for_fold xs s body).
Proof.
  intros Hbody. revert s.
  induction xs as [|x xs IH]; intros s; simpl.
  - apply read_only_ret.
  - apply read_only_bind; auto.
Qed.

Create HintDb readonly.
#[local] Hint Resolve read_only_ret read_only_raise read_only_warn
  read_only_get_self : readonly.

Ltac read_only_step :=
  match goal with
  | |- read_only (_ ≫= _) => rewrite mbind_unfold; apply read_only_bind; [|intros ?]
  | |- read_only (bind _ _) => apply read_only_bind; [|intros ?]
  | |- read_only (for_fold _ _ _) => apply read_only_for_fold; intros ? ?
  | |- read_only (if ?b then _ else _) => destruct b
  | |- read_only (match ?x with _ => _ end) => destruct x
  | |- read_only (let '(_, _) := ?p in _) => destruct p
  | |- read_only _ => solve [auto with readonly]
  end.

Lemma read_only_features_getitem g : read_only (features_getitem g).
Proof. intros self. unfold features_getitem. by destruct (_ !! _). Qed.

Lemma read_only_getitem_avail_cap f : read_only (getitem_avail_cap f).
Proof. unfold getitem_avail_cap. repeat read_only_step. Qed.

Lemma read_only_getitem_lines f : read_only (getitem_lines f).
Proof. unfold getitem_lines. repeat read_only_step. Qed.

Lemma read_only_as_number v : read_only (as_number v).
Proof. unfold as_number. repeat read_only_step. Qed.

Lemma read_only_py_div x n : read_only (py_div x n).
Proof. unfold py_div. repeat read_only_step. Qed.

Lemma read_only_list_index g : read_only (list_index g).
Proof. intros self. unfold list_index. by destruct (index _ _). Qed.

#[local] Hint Resolve read_only_features_getitem read_only_getitem_avail_cap
  read_only_getitem_lines read_only_as_number read_only_py_div
  read_only_list_index : readonly.

Lemma read_only_substation_capacity ls ll : read_only (_substation_capacity ls ll).
Proof.
  unfold _substation_capacity.
  repeat (read_only_step || unfold _substation_capacity_step).
Qed.
#[local] Hint Resolve read_only_substation_capacity : readonly.

Lemma read_only_available_capacity g ll : read_only (available_capacity g ll).
Proof. unfold available_capacity. repeat read_only_step. Qed.

Lemma read_only_check_availability g : read_only (check_availability g).
Proof. unfold check_availability. repeat read_only_step. Qed.
#[local] Hint Resolve read_only_available_capacity read_only_check_availability
  : readonly.

Lemma read_only_connect_no_apply g c ll : read_only (connect g c false ll).
Proof. unfold connect. repeat read_only_step. Qed.
#[local] Hint Resolve read_only_connect_no_apply : readonly.

Lemma read_only_cost g d tm c ll : read_only (cost g d tm c ll).
Proof. unfold cost. repeat read_only_step. Qed.

Lemma read_only_cost_of_row tm r capacity ll :
  read_only (cost_of_row tm r capacity ll).
Proof.
  unfold cost_of_row. rewrite mbind_unfold.
  apply read_only_bind; [apply read_only_cost|]. intros; apply read_only_ret.
Qed.

Lemma read_only_costs_loop rows capacity ll : read_only (costs_loop rows capacity ll).
Proof.
  unfold costs_loop. apply read_only_for_fold. intros costs r.
  rewrite mbind_unfold. apply read_only_bind; [apply read_only_cost_of_row|].
  intros; apply read_only_ret.
Qed.

(** ** Cost model *)

Lemma features_getitem_Some self g f :
  _features self !! g = Some f → features_getitem g self = Outcome (inr f) self [].
Proof. intros H. unfold features_getitem. by rewrite H. Qed.

Lemma tie_in_step_result self t :
  result ((if String.eqb t "TransLine" then ret (_line_tie_in_cost self)
           else if String.eqb t "Substation" then ret (_station_tie_in_cost self)
           else if String.eqb t "LoadCen" then ret (_center_tie_in_cost self)
           else if String.eqb t "PCALoadCen" then ret (_sink_tie_in_cost self)
           else _ ← warn (UnknownFeatureType t); ret 0 : M Q) self)
  = inr (tie_in_cost self t).
Proof. unfold tie_in_cost. by repeat case_match. Qed.

Lemma tie_in_step_self self t :
  self_after ((if String.eqb t "TransLine" then ret (_line_tie_in_cost self)
           else if String.eqb t "Substation" then ret (_station_tie_in_cost self)
           else if String.eqb t "LoadCen" then ret (_center_tie_in_cost self)
           else if String.eqb t "PCALoadCen" then ret (_sink_tie_in_cost self)
           else _ ← warn (UnknownFeatureType t); ret 0 : M Q) self)
  = self.
Proof. by repeat case_match. Qed.

Lemma cost_result self g f d tm capacity ll :
  _features self !! g = Some f →
  result (cost g d tm capacity ll self) =
  let price := _calc_cost d (_line_cost self) (tie_in_cost self (f_type f)) tm in
  match capacity with
  | None => inr (Some price)
  | Some c =>
      match result (connect g c false ll self) with
      | inl e => inl e
      | inr true => inr (Some price)
      | inr false => inr None
      end
  end.
Proof.
  intros Hf. unfold cost. rewrite !mbind_unfold.
  rewrite bind_result, (features_getitem_Some _ _ _ Hf). simpl.
  rewrite mbind_unfold, bind_result, tie_in_step_result, tie_in_step_self.
  destruct capacity as [c|]; [|done].
  rewrite !mbind_unfold, bind_result.
  destruct (result (connect g c false ll self)) as [e|[|]]; done.
Qed.

(** ** The availability index *)

Lemma index_lookup g l i : index g l = Some i → l !! i = Some g.
Proof.
  revert i. induction l as [|y l IH]; intros i; simpl; [done|].
  case_decide as Hy.
  - intros [= <-]. by subst.
  - destruct (index g l) as [j|]; simpl; [|done].
    intros [= <-]. by apply IH.
Qed.

Lemma index_elem g l : g ∈ l → is_Some (index g l).
Proof.
  induction 1 as [|y x l _ IH]; simpl.
  - by rewrite decide_True.
  - case_decide; [eauto|]. destruct IH as [j ->]. simpl; eauto.
Qed.

Lemma with_mask_id self : with_mask self (_available_mask self) = self.
Proof. by destruct self. Qed.

Lemma with_features_id self : with_features self (_features self) = self.
Proof. by destruct self. Qed.

Lemma list_index_run self g i :
  index g (_feature_gid_list self) = Some i →
  list_index g self = Outcome (inr i) self [].
Proof. intros H. unfold list_index. by rewrite H. Qed.

Lemma check_availability_run self g i b :
  index g (_feature_gid_list self) = Some i →
  _available_mask self !! i = Some b →
  check_availability g self = Outcome (inr b) self [].
Proof.
  intros Hi Hb. unfold check_availability.
  rewrite mbind_unfold. unfold bind at 1. rewrite (list_index_run _ _ _ Hi). simpl.
  by rewrite Hb.
Qed.

Lemma check_availability_inv self g b :
  result (check_availability g self) = inr b →
  ∃ i, index g (_feature_gid_list self) = Some i ∧ _available_mask self !! i = Some b.
Proof.
  unfold check_availability. rewrite mbind_unfold, bind_result.
  unfold list_index.
  destruct (index g (_feature_gid_list self)) as [i|] eqn:Hi; simpl; [|done].
  destruct (_available_mask self !! i) as [b'|] eqn:Hb; simpl; [|done].
  intros [= <-]. eauto.
Qed.

Lemma wf_check_availability self g :
  wf_state self → is_Some (_features self !! g) →
  ∃ i b, index g (_feature_gid_list self) = Some i
         ∧ _available_mask self !! i = Some b
         ∧ check_availability g self = Outcome (inr b) self [].
Proof.
  intros Hwf Hg. apply (wf_keys _ Hwf), index_elem in Hg as [i Hi].
  assert (is_Some (_available_mask self !! i)) as [b Hb].
  { apply lookup_lt_is_Some. rewrite (wf_mask _ Hwf).
    apply index_lookup in Hi. by eapply lookup_lt_Some. }
  exists i, b. eauto using check_availability_run.
Qed.

(** ** Reserving on one feature *)

Lemma _connect_run self g f a c :
  _features self !! g = Some f → f_avail_cap f = Some (Some a) →
  _connect g c self =
  if Qlt_le_dec a c then Outcome (inl RuntimeError) self []
  else Outcome (inr tt)
         (with_features self (<[g := set_avail_cap f (a - c)]> (_features self))) [].
Proof.
  intros Hf Ha. unfold _connect. rewrite !mbind_unfold.
  unfold bind at 1. rewrite (features_getitem_Some _ _ _ Hf). simpl.
  unfold getitem_avail_cap. rewrite Ha. simpl.
  unfold bind; simpl. by destruct (Qlt_le_dec a c).
Qed.

(** [_update_availability] touches the mask only, and only to clear the
    flag of [g] when its capacity is zero. *)
Lemma _update_availability_run self g ll v i :
  result (available_capacity g ll self) = inr v →
  index g (_feature_gid_list self) = Some i →
  (i < length (_available_mask self))%nat →
  result (_update_availability g ll self) = inr tt ∧
  self_after (_update_availability g ll self) =
    if is_zero v then with_mask self (<[i := false]> (_available_mask self))
    else self.
Proof.
  intros Hv Hi Hlt. unfold _update_availability.
  rewrite mbind_unfold, bind_result, bind_self_after, Hv.
  rewrite read_only_available_capacity.
  destruct v as [q|]; simpl; [|done].
  destruct (Qeq_dec q 0); [|done].
  rewrite !mbind_unfold, bind_result, bind_self_after.
  rewrite (list_index_run _ _ _ Hi). simpl.
  rewrite decide_True by done. done.
Qed.

Lemma _update_availability_frame self g ll :
  ∃ mask', self_after (_update_availability g ll self) = with_mask self mask'
    ∧ (mask' = _available_mask self
       ∨ ∃ i q, index g (_feature_gid_list self) = Some i
                ∧ (i < length (_available_mask self))%nat
                ∧ mask' = <[i := false]> (_available_mask self)
                ∧ result (available_capacity g ll self) = inr (Some q) ∧ q == 0).
Proof.
  unfold _update_availability.
  rewrite mbind_unfold, bind_self_after, read_only_available_capacity.
  destruct (result (available_capacity g ll self)) as [e|[q|]] eqn:Hv;
    try (exists (_available_mask self); by rewrite with_mask_id; auto).
  simpl. destruct (Qeq_dec q 0) as [Hq|];
    try (exists (_available_mask self); by rewrite with_mask_id; auto).
  rewrite mbind_unfold, bind_self_after. unfold list_index.
  destruct (index g (_feature_gid_list self)) as [i|] eqn:Hi; simpl;
    try (exists (_available_mask self); by rewrite with_mask_id; auto).
  case_decide; simpl;
    try (exists (_available_mask self); by rewrite with_mask_id; auto).
  eexists; split; [reflexivity|]. right. exists i, q. auto.
Qed.

(** ** Simple features: lines and load centers *)

Lemma available_capacity_simple self g f ll :
  _features self !! g = Some f → f_type f ≠ "Substation" →
  available_capacity g ll self = getitem_avail_cap f self.
Proof.
  intros Hf Ht. unfold available_capacity. rewrite mbind_unfold.
  unfold bind. rewrite (features_getitem_Some _ _ _ Hf). simpl.
  destruct (String.eqb_spec (f_type f) "Substation"); [done|].
  by destruct (getitem_avail_cap f self).
Qed.

Lemma available_capacity_number self g f a ll :
  _features self !! g = Some f → f_type f ≠ "Substation" →
  f_avail_cap f = Some (Some a) →
  available_capacity g ll self = Outcome (inr (Some a)) self [].
Proof.
  intros Hf Ht Ha. rewrite (available_capacity_simple _ _ _ _ Hf Ht).
  unfold getitem_avail_cap. by rewrite Ha.
Qed.

Lemma simple_type_not_station t : simple_type t → t ≠ "Substation".
Proof. by intros [-> | ->]. Qed.

Lemma _connect_runs_ok self g f a c :
  _features self !! g = Some f → f_avail_cap f = Some (Some a) → c <= a →
  runs (_connect g c) self (inr tt)
    (with_features self (<[g := set_avail_cap f (a - c)]> (_features self))).
Proof.
  intros Hf Ha Hle. eapply runs_outcome. rewrite (_connect_run _ _ _ _ _ Hf Ha).
  destruct (Qlt_le_dec a c) as [Hlt|_]; [by apply Qlt_not_le in Hlt|done].
Qed.

Lemma connect_simple_run self g f a c ll i b :
  _features self !! g = Some f → simple_type (f_type f) →
  f_avail_cap f = Some (Some a) →
  index g (_feature_gid_list self) = Some i →
  _available_mask self !! i = Some b →
  runs (connect g c true ll) self (inr (b && negb (Qltb a c)))
    (if b && negb (Qltb a c) then after_simple_connect self g f a c i else self).
Proof.
  intros Hf Ht Ha Hi Hb. unfold connect.
  eapply runs_bind_ok.
  { eapply runs_outcome, check_availability_run; eauto. }
  destruct b; simpl; [|apply runs_ret].
  pose proof (simple_type_not_station _ Ht) as Hns.
  eapply runs_bind_ok.
  { eapply runs_outcome, available_capacity_number; eauto. }
  simpl. unfold Qltb. destruct (Qlt_le_dec a c) as [Hlt|Hle]; simpl; [apply runs_ret|].
  set (s1 := with_features self (<[g := set_avail_cap f (a - c)]> (_features self))).
  assert (Hf1 : _features s1 !! g = Some (set_avail_cap f (a - c))).
  { unfold s1. simpl. apply lookup_insert_eq. }
  assert (Hav : result (available_capacity g false s1) = inr (Some (a - c))).
  { by rewrite (available_capacity_number _ _ _ (a - c) _ Hf1 Hns). }
  assert (Hlt : (i < length (_available_mask s1))%nat).
  { simpl. by eapply lookup_lt_Some. }
  destruct (_update_availability_run s1 g false _ i Hav Hi Hlt) as [Hr Hs].
  eapply runs_bind_ok; [|apply runs_ret].
  eapply runs_bind_ok.
  { eapply runs_outcome, features_getitem_Some; eauto. }
  eapply runs_bind_ok with (s1 := s1).
  { destruct Ht as [-> | ->]; simpl; by apply _connect_runs_ok. }
  split; [done|]. rewrite Hs. unfold after_simple_connect. fold s1.
  simpl. by destruct (Qeq_dec (a - c) 0).
Qed.

(** ** Derived capacity of a substation *)

Lemma bind_outcome {A B} (m : M A) (k : A → M B) self a s1 w1 r s2 w2 :
  m self = Outcome (inr a) s1 w1 → k a s1 = Outcome r s2 w2 →
  bind m k self = Outcome r s2 (w1 ++ w2).
Proof. intros Hm Hk. unfold bind. rewrite Hm. simpl. by rewrite Hk. Qed.

Lemma cap_of_lookup fs g f a :
  fs !! g = Some f → f_avail_cap f = Some (Some a) → cap_of fs g = a.
Proof. intros Hf Ha. unfold cap_of. by rewrite Hf, Ha. Qed.

Lemma _substation_capacity_step_line self g f a s m :
  _features self !! g = Some f → f_type f = "TransLine" →
  f_avail_cap f = Some (Some a) →
  _substation_capacity_step (s, m) g self =
  Outcome (inr (s + a, if Qlt_le_dec m a then a else m)) self [].
Proof.
  intros Hf Ht Ha. unfold _substation_capacity_step. rewrite mbind_unfold.
  eapply (bind_outcome _ _ _ _ _ []); [by apply features_getitem_Some|].
  rewrite Ht. simpl. unfold getitem_avail_cap. rewrite Ha. done.
Qed.

Lemma _substation_capacity_step_other self g f s m :
  _features self !! g = Some f → f_type f ≠ "TransLine" →
  _substation_capacity_step (s, m) g self =
  Outcome (inr (s, m)) self [NotATransLine (f_type f)].
Proof.
  intros Hf Ht. unfold _substation_capacity_step. rewrite mbind_unfold.
  eapply (bind_outcome _ _ _ _ _ []); [by apply features_getitem_Some|].
  by destruct (String.eqb_spec (f_type f) "TransLine").
Qed.

Lemma member_line_caps_cons_line fs l ls fl :
  fs !! l = Some fl → f_type fl = "TransLine" →
  member_line_caps fs (l :: ls) = cap_of fs l :: member_line_caps fs ls
  ∧ member_warnings fs (l :: ls) = member_warnings fs ls.
Proof.
  intros Hfl Ht. unfold member_line_caps, member_warnings. simpl.
  by rewrite Hfl, Ht.
Qed.

Lemma member_line_caps_cons_other fs l ls fl :
  fs !! l = Some fl → f_type fl ≠ "TransLine" →
  member_line_caps fs (l :: ls) = member_line_caps fs ls
  ∧ member_warnings fs (l :: ls) = NotATransLine (f_type fl) :: member_warnings fs ls.
Proof.
  intros Hfl Ht. unfold member_line_caps, member_warnings. simpl.
  rewrite Hfl. by destruct (String.eqb_spec (f_type fl) "TransLine").
Qed.

Lemma _substation_capacity_loop self ls :
  members_resolve (_features self) ls →
  ∀ s0 m0, ∃ s m,
    for_fold ls (s0, m0) _substation_capacity_step self =
      Outcome (inr (s, m)) self (member_warnings (_features self) ls)
    ∧ s == s0 + Qsum (member_line_caps (_features self) ls)
    ∧ m0 <= m
    ∧ Forall (λ c, c <= m) (member_line_caps (_features self) ls)
    ∧ (m = m0 ∨ m ∈ member_line_caps (_features self) ls).
Proof.
  induction ls as [|l ls IH]; intros Hres s0 m0.
  - exists s0, m0. simpl. repeat split; auto; lra.
  - apply Forall_cons in Hres as [(fl & Hfl & Hnum) Hres'].
    destruct (String.eqb_spec (f_type fl) "TransLine") as [Ht|Ht].
    + destruct (Hnum Ht) as [a Ha].
      destruct (member_line_caps_cons_line _ l ls _ Hfl Ht) as [-> ->].
      destruct (IH Hres' (s0 + a) (if Qlt_le_dec m0 a then a else m0))
        as (s & m & Hrun & Hs & Hm0 & Hall & Hin).
      exists s, m. rewrite (cap_of_lookup _ _ _ _ Hfl Ha).
      split; [|split; [|split; [|split]]].
      * eapply (bind_outcome _ _ _ _ _ []); [|exact Hrun].
        by eapply _substation_capacity_step_line.
      * simpl. lra.
      * destruct (Qlt_le_dec m0 a); lra.
      * constructor; [destruct (Qlt_le_dec m0 a); lra | exact Hall].
      * destruct Hin as [-> | Hin].
        -- destruct (Qlt_le_dec m0 a); [right; left | by left].
        -- right. by right.
    + destruct (member_line_caps_cons_other _ l ls _ Hfl Ht) as [-> ->].
      destruct (IH Hres' s0 m0) as (s & m & Hrun & Hs & Hm0 & Hall & Hin).
      exists s, m. split; [|done].
      eapply (bind_outcome _ _ _ _ _ [_]); [|exact Hrun].
      by eapply _substation_capacity_step_other.
Qed.

Lemma Forall_nonneg_Qsum xs : Forall (λ x, 0 <= x) xs → 0 <= Qsum xs.
Proof. induction 1; simpl; [lra | unfold Qsum in *; lra]. Qed.

Lemma Forall_nonpos_Qsum xs : Forall (λ x, x <= 0) xs → Qsum xs <= 0.
Proof. induction 1; simpl; [lra | unfold Qsum in *; lra]. Qed.

Lemma half_eq (x : Q) : x / 2 == x * (1 # 2).
Proof. reflexivity. Qed.

(** The value and the warnings of [_substation_capacity]. *)
Lemma _substation_capacity_run self ls ll :
  members_resolve (_features self) ls →
  ∃ v, _substation_capacity ls ll self =
         Outcome (inr v) self (member_warnings (_features self) ls)
    ∧ let caps := member_line_caps (_features self) ls in
      if ll then
        Forall (λ c, 0 <= c) caps →
        (caps = [] ∧ v == 0) ∨ ∃ m, largest caps m ∧ v == Qmin (Qsum caps / 2) m
      else v == Qsum caps / 2.
Proof.
  intros Hres.
  destruct (_substation_capacity_loop self ls Hres 0 0)
    as (s & m & Hrun & Hs & Hm0 & Hall & Hin).
  unfold _substation_capacity. rewrite mbind_unfold.
  set (caps := member_line_caps (_features self) ls) in *.
  assert (Hhalf : s / 2 == Qsum caps / 2) by (rewrite !half_eq; lra).
  set (v := if ll then if Qlt_le_dec m (s / 2) then m else s / 2 else s / 2).
  exists v. split.
  { rewrite <- (app_nil_r (member_warnings _ _)).
    eapply bind_outcome; [exact Hrun|]. simpl. unfold v.
    destruct ll; [|done]. by destruct (Qlt_le_dec m (s / 2)). }
  simpl. unfold v. destruct ll; [|exact Hhalf].
  intros Hpos. pose proof (Forall_nonneg_Qsum _ Hpos) as Hsum.
  destruct (Qlt_le_dec m (s / 2)) as [Hlt|Hle].
  - destruct Hin as [-> | Hin].
    + pose proof (Forall_nonpos_Qsum _ Hall).
      rewrite half_eq in Hlt, Hhalf. exfalso. lra.
    + right. exists m. split; [by split|].
      rewrite Q.min_r; [reflexivity|]. rewrite <- Hhalf. by apply Qlt_le_weak.
  - destruct Hin as [-> | Hin].
    + destruct caps as [|c caps'] eqn:Hc.
      * left. split; [done|]. rewrite Hhalf. reflexivity.
      * right. exists c.
        inversion Hall as [|? ? Hc0 Hall']; subst.
        inversion Hpos as [|? ? Hc1 Hpos']; subst.
        assert (c == 0) as Hcz by lra.
        split; [split; [left|]|].
        -- eapply Forall_impl; [exact Hall|]. simpl. intros x Hx. lra.
        -- pose proof (Forall_nonpos_Qsum _ Hall).
           rewrite Q.min_l; [exact Hhalf|]. rewrite half_eq in *. lra.
    + right. exists m. split; [by split|].
      rewrite Q.min_l; [exact Hhalf|]. by rewrite <- Hhalf.
Qed.

(** On a substation, [available_capacity] is [_substation_capacity] of its
    member list. *)
Lemma available_capacity_station self g f ls ll v w :
  _features self !! g = Some f → f_type f = "Substation" → f_lines f = Some ls →
  _substation_capacity ls ll self = Outcome (inr v) self w →
  available_capacity g ll self = Outcome (inr (Some v)) self w.
Proof.
  intros Hf Ht Hls Hrun.
  unfold available_capacity. rewrite mbind_unfold.
  eapply (bind_outcome _ _ _ _ _ []); [by apply features_getitem_Some|].
  rewrite Ht. simpl. rewrite mbind_unfold. unfold getitem_lines. rewrite Hls.
  eapply (bind_outcome _ _ _ _ _ []); [done|].
  rewrite mbind_unfold. simpl.
  erewrite bind_outcome; [|exact Hrun|reflexivity]. by rewrite app_nil_r.
Qed.

(** ** Reservation traces *)

Lemma reserved_app fs rs1 fs1 rs2 fs2 :
  reserved fs rs1 fs1 → reserved fs1 rs2 fs2 → reserved fs (rs1 ++ rs2) fs2.
Proof.
  induction 1 as [|fs g a f q rs fs' Hf Ha Hle _ IH]; intros H2; simpl; [done|].
  econstructor; eauto.
Qed.

Lemma reserved_one fs g a f q :
  fs !! g = Some f → f_avail_cap f = Some (Some q) → a <= q →
  reserved fs [(g, a)] (<[g := set_avail_cap f (q - a)]> fs).
Proof. intros. econstructor; eauto. constructor. Qed.

Lemma reserved_untouched fs rs fs' g :
  reserved fs rs fs' → g ∉ rs.*1 → fs' !! g = fs !! g.
Proof.
  induction 1 as [|fs g' a f q rs fs' Hf Ha Hle _ IH]; intros Hg; [done|].
  simpl in Hg. apply not_elem_of_cons in Hg as [Hne Hg].
  rewrite IH by done. by rewrite lookup_insert_ne.
Qed.

Lemma same_shape_refl f : same_shape f f.
Proof. repeat split; auto. Qed.

Lemma same_shape_trans f1 f2 f3 :
  same_shape f1 f2 → same_shape f2 f3 → same_shape f1 f3.
Proof.
  intros (Ht1 & Hl1 & Hc1) (Ht2 & Hl2 & Hc2). repeat split; try congruence.
  destruct Hc1 as [Hc1 | (a & a' & Ha & Ha')], Hc2 as [Hc2 | (b & b' & Hb & Hb')].
  - left; congruence.
  - right. exists b, b'. split; congruence.
  - right. exists a, a'. split; congruence.
  - right. exists a, b'. split; congruence.
Qed.

Lemma same_shape_set f q v :
  f_avail_cap f = Some (Some q) → same_shape f (set_avail_cap f v).
Proof. intros Hq. repeat split. right. eauto. Qed.

Lemma reserved_shape fs rs fs' :
  reserved fs rs fs' →
  ∀ g, match fs !! g with
       | Some f => ∃ f', fs' !! g = Some f' ∧ same_shape f f'
       | None => fs' !! g = None
       end.
Proof.
  induction 1 as [fs|fs g' a f q rs fs' Hf Ha Hle _ IH]; intros g.
  - destruct (fs !! g) as [f|]; eauto using same_shape_refl.
  - specialize (IH g). destruct (decide (g' = g)) as [->|Hne].
    + rewrite lookup_insert_eq in IH. rewrite Hf.
      destruct IH as (f' & Hf' & Hsh). exists f'. split; [done|].
      eapply same_shape_trans; [|exact Hsh]. by eapply same_shape_set.
    + by rewrite lookup_insert_ne in IH.
Qed.

Lemma cap_of_insert fs g f v g' :
  cap_of (<[g := set_avail_cap f v]> fs) g' = if decide (g = g') then v else cap_of fs g'.
Proof.
  unfold cap_of. case_decide as H.
  - subst. by rewrite lookup_insert_eq.
  - by rewrite lookup_insert_ne.
Qed.

Lemma total_cons fs l L : total fs (l :: L) = cap_of fs l + total fs L.
Proof. reflexivity. Qed.

Lemma total_insert_notin fs g f v L :
  g ∉ L → total (<[g := set_avail_cap f v]> fs) L = total fs L.
Proof.
  induction L as [|l L IH]; intros Hg; [done|].
  apply not_elem_of_cons in Hg as [Hne Hg].
  rewrite !total_cons, cap_of_insert, decide_False by done. by rewrite IH.
Qed.

Lemma total_insert fs g f q v L :
  NoDup L → g ∈ L → fs !! g = Some f → f_avail_cap f = Some (Some q) →
  total (<[g := set_avail_cap f v]> fs) L == total fs L - q + v.
Proof.
  intros Hnd Hg Hf Hq. induction Hnd as [|l L Hl Hnd IH].
  - by apply elem_of_nil in Hg.
  - rewrite !total_cons, cap_of_insert.
    apply elem_of_cons in Hg as [->|Hg].
    + rewrite decide_True by done.
      rewrite (total_insert_notin fs l f v L Hl), (cap_of_lookup _ _ _ _ Hf Hq). lra.
    + rewrite decide_False by (intros ->; done).
      specialize (IH Hg). lra.
Qed.

(** Reservations on lines of [L] lower the total of [L] by their sum. *)
Lemma reserved_total fs rs fs' L :
  reserved fs rs fs' → NoDup L → (∀ g, g ∈ rs.*1 → g ∈ L) →
  total fs' L == total fs L - Qsum rs.*2.
Proof.
  induction 1 as [fs|fs g a f q rs fs' Hf Ha Hle _ IH]; intros Hnd Hsub.
  - change (Qsum ([] : list (gid * Q)).*2) with 0. lra.
  - rewrite IH; [|done|intros g' Hg'; apply Hsub; by right].
    rewrite (total_insert fs g f q (q - a) L Hnd) by (auto; apply Hsub; by left).
    change (Qsum ((g, a) :: rs).*2) with (a + Qsum rs.*2). lra.
Qed.

(** A line that was reserved on ends with a non-negative capacity. *)
Lemma reserved_nonneg fs rs fs' g :
  reserved fs rs fs' → g ∈ rs.*1 → 0 <= cap_of fs' g.
Proof.
  induction 1 as [fs|fs g' a f q rs fs' Hf Ha Hle Hrest IH]; intros Hg.
  - by apply elem_of_nil in Hg.
  - destruct (decide (g ∈ rs.*1)) as [Hin|Hout]; [by apply IH|].
    simpl in Hg. apply elem_of_cons in Hg as [->|Hg]; [|done].
    unfold cap_of. rewrite (reserved_untouched _ _ _ _ Hrest Hout).
    rewrite lookup_insert_eq. simpl. lra.
Qed.

(** ** Boolean masks and filters *)

Lemma bool_index_fmap {A B} (f : A → bool) (h : A → B) (xs : list A) :
  bool_index (f <$> xs) (h <$> xs) = h <$> filter (λ x, f x = true) xs.
Proof.
  induction xs as [|x xs IH]; [done|].
  rewrite !fmap_cons. simpl. rewrite filter_cons.
  destruct (f x) eqn:Hfx.
  - rewrite decide_True by done. by rewrite fmap_cons, IH.
  - rewrite decide_False by done. exact IH.
Qed.

Lemma bool_index_fmap_neg {A B} (f : A → bool) (h : A → B) (xs : list A) :
  bool_index (negb <$> (f <$> xs)) (h <$> xs) = h <$> filter (λ x, ¬ f x = true) xs.
Proof.
  rewrite <- list_fmap_compose, bool_index_fmap. f_equal.
  apply list_filter_iff. intros x. simpl. destruct (f x); naive_solver.
Qed.

Lemma fill_mask_filled x (ps : list (gid * Q)) :
  bool_index ((λ cap, Qltb cap x) <$> ps.*2) (zip ps.*1 ps.*2) = filled x ps.
Proof.
  rewrite zip_fst_snd, <- list_fmap_compose.
  rewrite <- (list_fmap_id ps) at 2. rewrite bool_index_fmap.
  by rewrite list_fmap_id.
Qed.

Lemma fill_mask_kept_gids x (ps : list (gid * Q)) :
  bool_index (negb <$> ((λ cap, Qltb cap x) <$> ps.*2)) ps.*1 = (kept x ps).*1.
Proof.
  rewrite <- (list_fmap_compose snd (λ cap, Qltb cap x)).
  by rewrite bool_index_fmap_neg.
Qed.

Lemma fill_mask_kept_caps x (ps : list (gid * Q)) :
  bool_index (negb <$> ((λ cap, Qltb cap x) <$> ps.*2)) ps.*2 = (kept x ps).*2.
Proof.
  rewrite <- (list_fmap_compose snd (λ cap, Qltb cap x)).
  by rewrite bool_index_fmap_neg.
Qed.

Lemma filled_kept_perm x ps : filled x ps ++ kept x ps ≡ₚ ps.
Proof. apply filter_app_complement. Qed.

Lemma below_lt x p : below x p ↔ p.2 < x.
Proof. unfold below, Qltb. destruct (Qlt_le_dec p.2 x) as [|H]; [done|]. apply Qle_not_lt in H. naive_solver. Qed.

Lemma kept_le x ps p : p ∈ kept x ps → x <= p.2.
Proof.
  intros [Hp _]%list_elem_of_filter. rewrite below_lt in Hp.
  by apply Qnot_lt_le.
Qed.

Lemma kept_length x ps : (length (kept x ps) <= length ps)%nat.
Proof. apply length_filter. Qed.

Lemma filled_nil_kept x ps : filled x ps = [] → kept x ps = ps.
Proof.
  unfold filled, kept. induction ps as [|p ps IH]; [done|].
  rewrite !filter_cons. case_decide as Hb; [done|].
  rewrite decide_True by done. intros H. f_equal. by apply IH.
Qed.

Lemma kept_all x ps : length (kept x ps) = length ps → kept x ps = ps ∧ filled x ps = [].
Proof.
  intros Hlen.
  pose proof (filled_kept_perm x ps) as Hp. apply Permutation_length in Hp.
  rewrite length_app in Hp.
  assert (filled x ps = []) as Hf by (apply length_zero_iff_nil; lia).
  split; [by apply filled_nil_kept | done].
Qed.

(** ** Filling the lines that are below the share *)

Lemma with_features_twice self fs1 fs2 :
  with_features (with_features self fs1) fs2 = with_features self fs2.
Proof. done. Qed.

Lemma _connect_cases self g a :
  (∃ e, _connect g a self = Outcome (inl e) self []
        ∧ e ≠ ZeroDivisionError ∧ e ≠ IterationBudget)
  ∨ (∃ f q, _features self !! g = Some f ∧ f_avail_cap f = Some (Some q) ∧ a <= q
      ∧ _connect g a self =
          Outcome (inr tt)
            (with_features self (<[g := set_avail_cap f (q - a)]> (_features self))) []).
Proof.
  destruct (_features self !! g) as [f|] eqn:Hf.
  - destruct (f_avail_cap f) as [[q|]|] eqn:Hq.
    + rewrite (_connect_run _ _ _ _ _ Hf Hq).
      destruct (Qlt_le_dec q a); [left; eauto | right; eauto 10].
    + left. exists TypeError. split; [|done]. unfold _connect. rewrite mbind_unfold.
      unfold bind. rewrite (features_getitem_Some _ _ _ Hf). simpl.
      unfold getitem_avail_cap. by rewrite Hq.
    + left. exists KeyError. split; [|done]. unfold _connect. rewrite mbind_unfold.
      unfold bind. rewrite (features_getitem_Some _ _ _ Hf). simpl.
      unfold getitem_avail_cap. by rewrite Hq.
  - left. exists KeyError. split; [|done]. unfold _connect. rewrite mbind_unfold.
    unfold bind, features_getitem. by rewrite Hf.
Qed.

Lemma Qsum_cons x xs : Qsum (x :: xs) = x + Qsum xs.
Proof. reflexivity. Qed.

Lemma Qsum_app xs ys : Qsum (xs ++ ys) == Qsum xs + Qsum ys.
Proof.
  induction xs as [|x xs IH].
  - change (Qsum ([] ++ ys)) with (Qsum ys). change (Qsum []) with 0. lra.
  - change ((x :: xs) ++ ys) with (x :: (xs ++ ys)). rewrite !Qsum_cons, IH. lra.
Qed.

Lemma _connect_runs_inv self g a r self' :
  runs (_connect g a) self r self' →
  (∃ e, r = inl e ∧ self' = self ∧ e ≠ ZeroDivisionError ∧ e ≠ IterationBudget)
  ∨ (∃ f q, r = inr tt ∧ _features self !! g = Some f
      ∧ f_avail_cap f = Some (Some q) ∧ a <= q
      ∧ self' = with_features self (<[g := set_avail_cap f (q - a)]> (_features self))).
Proof.
  intros [<- <-].
  destruct (_connect_cases self g a) as [(e & -> & He) | (f & q & Hf & Hq & Hle & ->)].
  - left. eauto.
  - right. exists f, q. eauto.
Qed.

Lemma for_fold_cons {A S} (x : A) xs (s : S) body :
  for_fold (x :: xs) s body = bind (body s x) (λ s', for_fold xs s' body).
Proof. reflexivity. Qed.

Lemma fill_loop_general ps : ∀ self c r self',
  runs (for_fold ps c _fill_lines_step) self r self' →
  ∃ rs fs',
    self' = with_features self fs'
    ∧ reserved (_features self) rs fs'
    ∧ (∀ g, g ∈ rs.*1 → g ∈ ps.*1)
    ∧ match r with
      | inr c' => rs = ps ∧ c' == c - Qsum ps.*2
      | inl e => e ≠ ZeroDivisionError ∧ e ≠ IterationBudget
      end.
Proof.
  induction ps as [|[g a] ps IH]; intros self c r self' Hrun.
  - destruct Hrun as [<- <-]. exists [], (_features self). simpl.
    rewrite with_features_id.
    split; [done|]. split; [constructor|]. split; [done|].
    split; [reflexivity | lra].
  - rewrite for_fold_cons in Hrun.
    apply runs_bind_inv in Hrun as [(e & -> & Hrun) | (c1 & s1 & Hstep & Hrun)].
    + unfold _fill_lines_step in Hrun. rewrite mbind_unfold in Hrun.
      apply runs_bind_inv in Hrun as [(e' & [= <-] & Hrun) | (? & s1 & _ & [[=] _])].
      apply _connect_runs_inv in Hrun as [(e' & [= <-] & -> & He) | (? & ? & [=] & _)].
      exists [], (_features self). rewrite with_features_id.
      split; [done|]. split; [constructor|]. split; [|done].
      intros g' Hg'. by apply elem_of_nil in Hg'.
    + unfold _fill_lines_step in Hstep. rewrite mbind_unfold in Hstep.
      apply runs_bind_inv in Hstep as [(e' & [=] & _) | ([] & s0 & Hc & [[= <-] <-])].
      apply _connect_runs_inv in Hc as [(e' & [=] & _) | (f & q & _ & Hf & Hq & Hle & ->)].
      destruct (IH _ _ _ _ Hrun) as (rs & fs' & -> & Hres & Hsub & Hr).
      exists ((g, a) :: rs), fs'. split; [done|]. split.
      { econstructor; eauto. }
      split.
      { intros g' Hg'. rewrite !fmap_cons in *. apply elem_of_cons in Hg' as [->|Hg'].
        - by left.
        - right. by apply Hsub. }
      destruct r as [e|c']; [done|].
      destruct Hr as [-> Hc']. split; [done|].
      rewrite fmap_cons, Qsum_cons. simpl. lra.
Qed.

Lemma synced_insert_other fs g f v ps :
  g ∉ ps.*1 → synced fs ps → synced (<[g := set_avail_cap f v]> fs) ps.
Proof.
  intros Hg Hs g' a' Hin. destruct (Hs g' a' Hin) as (f' & Hf' & Ha').
  exists f'. split; [|done]. rewrite lookup_insert_ne; [done|].
  intros ->. apply Hg. apply list_elem_of_fmap. by exists (g', a').
Qed.

Lemma synced_tail fs p ps : synced fs (p :: ps) → synced fs ps.
Proof. intros Hs g a Hin. apply Hs. by right. Qed.

Lemma _fill_lines_step_runs_ok self c g a f :
  _features self !! g = Some f → f_avail_cap f = Some (Some a) →
  runs (_fill_lines_step c (g, a)) self (inr (c - a))
    (with_features self (<[g := set_avail_cap f (a - a)]> (_features self))).
Proof.
  intros Hf Ha. unfold _fill_lines_step. rewrite mbind_unfold.
  eapply runs_bind_ok; [|apply runs_ret].
  apply _connect_runs_ok; auto. lra.
Qed.

Lemma fill_loop_synced ps : ∀ self c,
  NoDup ps.*1 → synced (_features self) ps →
  ∃ c' self', runs (for_fold ps c _fill_lines_step) self (inr c') self'.
Proof.
  induction ps as [|[g a] ps IH]; intros self c Hnd Hs.
  - exists c, self. apply runs_ret.
  - rewrite fmap_cons in Hnd. apply NoDup_cons in Hnd as [Hg Hnd].
    destruct (Hs g a) as (f & Hf & Ha); [left|].
    edestruct (IH (with_features self (<[g := set_avail_cap f (a - a)]> (_features self)))
                 (c - a)) as (c' & self' & Hrun); [done| |].
    { simpl. apply synced_insert_other; [done|]. by eapply synced_tail. }
    exists c', self'. rewrite for_fold_cons.
    eapply runs_bind_ok; [|exact Hrun]. by apply _fill_lines_step_runs_ok.
Qed.

Lemma len_zero {A} (l : list A) : len l == 0 ↔ l = [].
Proof.
  unfold len. destruct l; simpl; [done|]. split; [|done].
  intros H. unfold Qeq in H. simpl in H. lia.
Qed.

Lemma fmap_fst_nil (ps : list (gid * Q)) : ps.*1 = [] ↔ ps = [].
Proof. split; [apply fmap_nil_inv | by intros ->]. Qed.

Lemma _fill_lines_general ps c self r self' :
  ps ≠ [] →
  runs (_fill_lines ps.*1 ps.*2 c) self r self' →
  let x := c / len ps.*1 in
  ∃ rs fs',
    self' = with_features self fs'
    ∧ reserved (_features self) rs fs'
    ∧ (∀ g, g ∈ rs.*1 → g ∈ (filled x ps).*1)
    ∧ match r with
      | inr r => rs = filled x ps
                 ∧ r.1.1 = (kept x ps).*1 ∧ r.1.2 = (kept x ps).*2
                 ∧ r.2 == c - Qsum (filled x ps).*2
      | inl e => e ≠ ZeroDivisionError ∧ e ≠ IterationBudget
      end.
Proof.
  intros Hne Hrun x. unfold _fill_lines in Hrun.
  rewrite mbind_unfold in Hrun.
  apply runs_bind_inv in Hrun as [(e & -> & Hrun) | (x' & s1 & Hdiv & Hrun)];
    unfold py_div in *; destruct (Qeq_dec (len ps.*1) 0) as [H0|_];
    try (apply len_zero, fmap_fst_nil in H0; done).
  { by destruct Hrun as [[=] _]. }
  destruct Hdiv as [[= <-] <-]. fold x in Hrun.
  rewrite fill_mask_filled, fill_mask_kept_gids, fill_mask_kept_caps in Hrun.
  rewrite mbind_unfold in Hrun.
  apply runs_bind_inv in Hrun as [(e & -> & Hrun) | (c' & s1 & Hloop & [<- <-])].
  - destruct (fill_loop_general _ _ _ _ _ Hrun) as (rs & fs' & ? & ? & ? & ?). eauto 10.
  - destruct (fill_loop_general _ _ _ _ _ Hloop) as (rs & fs' & ? & ? & ? & -> & ?).
    exists (filled x ps), fs'. simpl. done.
Qed.

Lemma NoDup_filter_fst (P : gid * Q → Prop) `{!∀ p, Decision (P p)} ps :
  NoDup ps.*1 → NoDup (filter P ps).*1.
Proof.
  intros Hnd. eapply sublist_NoDup; [exact Hnd|].
  apply fmap_sublist, sublist_filter.
Qed.

Lemma _fill_lines_synced ps c self :
  ps ≠ [] → NoDup ps.*1 → synced (_features self) ps →
  ∃ r self', runs (_fill_lines ps.*1 ps.*2 c) self (inr r) self'.
Proof.
  intros Hne Hnd Hs. unfold _fill_lines. rewrite mbind_unfold.
  set (x := c / len ps.*1).
  destruct (fill_loop_synced (filled x ps) self c) as (c' & self' & Hrun).
  { by apply NoDup_filter_fst. }
  { intros g a Hin. apply Hs. unfold filled in Hin.
    by apply list_elem_of_filter in Hin as [_ ?]. }
  eexists _, self'. eapply runs_bind_ok.
  { unfold py_div. destruct (Qeq_dec (len ps.*1) 0) as [H0|_].
    - by apply len_zero, fmap_fst_nil in H0.
    - apply runs_ret. }
  fold x. rewrite fill_mask_filled, fill_mask_kept_gids, fill_mask_kept_caps.
  rewrite mbind_unfold. eapply runs_bind_ok; [exact Hrun|]. apply runs_ret.
Qed.

(** ** The spreading loop *)

Lemma spread_loop_S budget gids caps c :
  spread_loop (S budget) gids caps c =
  bind (_fill_lines gids caps c) (λ r,
    let '(lines, line_caps, capacity) := r in
    if (length lines <? length gids)%nat
    then spread_loop budget lines line_caps capacity
    else ret (lines, capacity)).
Proof. reflexivity. Qed.

Lemma fmap_snd_app (rs1 rs2 : list (gid * Q)) :
  Qsum (rs1 ++ rs2).*2 == Qsum rs1.*2 + Qsum rs2.*2.
Proof. by rewrite fmap_app, Qsum_app. Qed.

Ltac no_reservation self :=
  exists [], (_features self); rewrite ?with_features_id;
  split; [done|]; split; [constructor|];
  split; [by intros ? ?%elem_of_nil|].

Lemma spread_loop_general budget : ∀ ps c self r self',
  runs (spread_loop budget ps.*1 ps.*2 c) self r self' →
  ∃ rs fs',
    self' = with_features self fs'
    ∧ reserved (_features self) rs fs'
    ∧ (∀ g, g ∈ rs.*1 → g ∈ ps.*1)
    ∧ match r with
      | inr (lines, c') =>
          ∃ qs, lines = qs.*1 ∧ qs ≠ [] ∧ rs ++ qs ≡ₚ ps
                ∧ c' == c - Qsum rs.*2
                ∧ (∀ p, p ∈ qs → c' / len qs.*1 <= p.2)
      | inl _ => True
      end.
Proof.
  induction budget as [|budget IH]; intros ps c self r self' Hrun.
  { destruct Hrun as [<- <-]. by no_reservation self. }
  rewrite spread_loop_S in Hrun.
  destruct (decide (ps = [])) as [->|Hne].
  { destruct Hrun as [<- <-]. by no_reservation self. }
  apply runs_bind_inv in Hrun as [(e & -> & Hfill) | ([[gids' caps'] c1] & s1 & Hfill & Hrun)].
  - destruct (_fill_lines_general _ _ _ _ _ Hne Hfill) as (rs & fs' & -> & Hres & Hsub & _).
    exists rs, fs'. repeat split; auto. intros g Hg. apply Hsub in Hg.
    unfold filled in Hg. apply list_elem_of_fmap in Hg as (p & -> & Hp).
    apply list_elem_of_filter in Hp as [_ Hp]. apply list_elem_of_fmap. eauto.
  - destruct (_fill_lines_general _ _ _ _ _ Hne Hfill)
      as (rs1 & fs1 & -> & Hres1 & Hsub1 & -> & Hg' & Hc' & Hc1).
    simpl in Hg', Hc', Hc1. subst gids' caps'.
    set (x := c / len ps.*1) in *.
    destruct (length (kept x ps).*1 <? length ps.*1)%nat eqn:Hlt.
    + destruct (IH _ _ _ _ _ Hrun) as (rs2 & fs2 & -> & Hres2 & Hsub2 & Hr).
      exists (filled x ps ++ rs2), fs2. rewrite with_features_twice.
      split; [done|]. split; [by eapply reserved_app|]. split.
      { intros g. rewrite fmap_app, elem_of_app. intros [Hg|Hg].
        - apply list_elem_of_fmap in Hg as (p & -> & Hp).
          apply list_elem_of_filter in Hp as [_ Hp]. apply list_elem_of_fmap. eauto.
        - apply Hsub2 in Hg. apply list_elem_of_fmap in Hg as (p & -> & Hp).
          apply list_elem_of_filter in Hp as [_ Hp]. apply list_elem_of_fmap. eauto. }
      destruct r as [e|[lines c']]; [done|].
      destruct Hr as (qs & -> & Hqs & Hperm & Hc2 & Hstable).
      exists qs. split; [done|]. split; [done|]. split.
      { rewrite <- app_assoc. etransitivity; [|apply (filled_kept_perm x)].
        by apply Permutation_app_head. }
      split; [|done]. rewrite fmap_snd_app. simpl in Hres2. lra.
    + destruct Hrun as [<- <-]. apply Nat.ltb_ge in Hlt.
      rewrite !length_fmap in Hlt. pose proof (kept_length x ps) as Hle.
      destruct (kept_all x ps) as [Hk Hf]; [lia|].
      rewrite Hf in *. exists [], fs1. cbn [ret result self_after].
      split; [done|]. split; [done|].
      split; [by intros ? ?%elem_of_nil|]. exists ps. rewrite Hk.
      split; [done|]. split; [done|]. split; [done|].
      change (Qsum ([] : list (gid * Q)).*2) with 0 in *.
      split; [lra|]. intros p Hp. rewrite <- Hk in Hp. apply kept_le in Hp.
      assert (c1 == c) as -> by lra. exact Hp.
Qed.

Lemma Qsum_perm xs ys : xs ≡ₚ ys → Qsum xs == Qsum ys.
Proof.
  induction 1 as [|x xs ys _ IH|x y xs|xs ys zs _ IH1 _ IH2].
  - reflexivity.
  - rewrite !Qsum_cons, IH. reflexivity.
  - rewrite !Qsum_cons. lra.
  - by rewrite IH1.
Qed.

Lemma filled_kept_sum x ps :
  Qsum ps.*2 == Qsum (filled x ps).*2 + Qsum (kept x ps).*2.
Proof.
  rewrite <- fmap_snd_app. apply Qsum_perm, fmap_Permutation.
  symmetry. apply filled_kept_perm.
Qed.

Lemma len_cons {A} (x : A) xs : len (x :: xs) == 1 + len xs.
Proof.
  unfold len. cbn [length]. rewrite Nat2Z.inj_succ, <- Z.add_1_l.
  by rewrite inject_Z_plus.
Qed.

Lemma len_fmap {A B} (f : A → B) xs : len (f <$> xs) = len xs.
Proof. unfold len. by rewrite length_fmap. Qed.

Lemma all_below_sum x (ps : list (gid * Q)) :
  ps ≠ [] → (∀ p, p ∈ ps → p.2 < x) → Qsum ps.*2 < len ps * x.
Proof.
  induction ps as [|p ps IH]; intros Hne Hall; [done|].
  rewrite fmap_cons, Qsum_cons, len_cons.
  assert (Hp : p.2 < x) by (apply Hall; left).
  destruct (decide (ps = [])) as [->|Hne'].
  - change (Qsum ([] : list (gid * Q)).*2) with 0.
    change (len ([] : list (gid * Q))) with 0. lra.
  - assert (Qsum ps.*2 < len ps * x) by (apply IH; [done|]; intros q Hq; apply Hall; by right).
    lra.
Qed.

Lemma share_times_len c {A} (xs : list A) : xs ≠ [] → len xs * (c / len xs) == c.
Proof.
  intros Hne. apply Qmult_div_r. intros H0. by apply len_zero in H0.
Qed.

Lemma kept_nil_below x ps : kept x ps = [] → ∀ p, p ∈ ps → p.2 < x.
Proof.
  intros Hk p Hp. apply below_lt. destruct (decide (below x p)) as [|Hn]; [done|].
  assert (p ∈ kept x ps) as Hin by (by apply list_elem_of_filter).
  rewrite Hk in Hin. by apply elem_of_nil in Hin.
Qed.

Lemma kept_nil_sum x c ps :
  ps ≠ [] → x = c / len ps.*1 → kept x ps = [] → Qsum ps.*2 < c.
Proof.
  intros Hne -> Hk.
  pose proof (all_below_sum _ ps Hne (kept_nil_below _ _ Hk)) as Hlt.
  rewrite len_fmap in Hlt. by rewrite share_times_len in Hlt.
Qed.

(** Lines outside a trace are still in sync after it. *)
Lemma synced_after fs rs fs' qs ps :
  NoDup ps.*1 → rs ++ qs ≡ₚ ps → synced fs ps → reserved fs rs fs' →
  synced fs' qs ∧ NoDup qs.*1.
Proof.
  intros Hnd Hperm Hs Hres.
  assert (Hnd' : NoDup (rs.*1 ++ qs.*1)).
  { rewrite <- fmap_app. by rewrite Hperm. }
  apply NoDup_app in Hnd' as (_ & Hdisj & Hq). split; [|done].
  intros g a Hin. destruct (Hs g a) as (f & Hf & Ha).
  { rewrite <- Hperm. apply elem_of_app. by right. }
  exists f. split; [|done]. rewrite (reserved_untouched _ _ _ _ Hres); [done|].
  intros Hg. apply (Hdisj g Hg). apply list_elem_of_fmap. by exists (g, a).
Qed.

Lemma spread_loop_synced budget : ∀ ps c self,
  NoDup ps.*1 → synced (_features self) ps →
  ((length ps < budget)%nat
   ∨ (ps ≠ [] ∧ c <= Qsum ps.*2 ∧ (length ps <= budget)%nat)) →
  ∃ r self', runs (spread_loop budget ps.*1 ps.*2 c) self r self'
    ∧ ((r = inl ZeroDivisionError ∧ (ps = [] ∨ Qsum ps.*2 < c)) ∨ ∃ v, r = inr v).
Proof.
  induction budget as [|budget IH]; intros ps c self Hnd Hs Hb.
  { destruct Hb as [?|(Hne & _ & Hlen)]; [lia|]. destruct ps; [done|simpl in Hlen; lia]. }
  destruct (decide (ps = [])) as [->|Hne].
  { eexists _, _. split; [apply runs_intro|]. left. split; [done | by left]. }
  destruct (_fill_lines_synced ps c self Hne Hnd Hs) as ([[gids' caps'] c1] & s1 & Hfill).
  destruct (_fill_lines_general _ _ _ _ _ Hne Hfill)
    as (rs1 & fs1 & -> & Hres1 & Hsub1 & -> & Hg' & Hc' & Hc1).
  simpl in Hg', Hc', Hc1. subst gids' caps'.
  set (x := c / len ps.*1) in *.
  pose proof (filled_kept_sum x ps) as Hsum.
  destruct (synced_after _ _ _ _ _ Hnd (filled_kept_perm x ps) Hs Hres1) as [Hs1 Hnd1].
  destruct (length (kept x ps).*1 <? length ps.*1)%nat eqn:Hlt.
  - apply Nat.ltb_lt in Hlt. rewrite !length_fmap in Hlt.
    destruct (IH (kept x ps) c1 (with_features self fs1) Hnd1 Hs1)
      as (r & self' & Hrun & Hr).
    { destruct Hb as [Hb|(_ & Hc & Hb)]; [left; lia|]. right.
      split; [|split; [lra|lia]].
      intros Hk. pose proof (kept_nil_sum x c ps Hne eq_refl Hk). lra. }
    exists r, self'. split.
    { rewrite spread_loop_S. eapply runs_bind_ok; [exact Hfill|].
      simpl. apply Nat.ltb_lt in Hlt. rewrite <- !(length_fmap fst) in Hlt.
      by rewrite Hlt. }
    destruct Hr as [[-> Hr]|Hr]; [left|by right]. split; [done|]. right.
    destruct Hr as [Hk|Hr]; [|lra].
    by apply (kept_nil_sum x c ps Hne eq_refl).
  - eexists _, _. split; [|right; eauto].
    rewrite spread_loop_S. eapply runs_bind_ok; [exact Hfill|].
    simpl. rewrite Hlt. apply runs_ret.
Qed.

(** ** The equal share for the lines that remain *)

Lemma for_each_cons {A} (x : A) xs body :
  for_each (x :: xs) body = bind (body x) (λ _, for_each xs body).
Proof. reflexivity. Qed.

Lemma final_stage_general x lines : ∀ self r self',
  runs (for_each lines (λ g, _connect g x)) self r self' →
  ∃ rs fs',
    self' = with_features self fs'
    ∧ reserved (_features self) rs fs'
    ∧ (∀ g, g ∈ rs.*1 → g ∈ lines)
    ∧ match r with
      | inr _ => rs = (λ g, (g, x)) <$> lines
      | inl e => e ≠ ZeroDivisionError ∧ e ≠ IterationBudget
      end.
Proof.
  induction lines as [|g lines IH]; intros self r self' Hrun.
  - destruct Hrun as [<- <-]. by no_reservation self.
  - rewrite for_each_cons in Hrun.
    apply runs_bind_inv in Hrun as [(e & -> & Hrun) | ([] & s1 & Hc & Hrun)].
    + apply _connect_runs_inv in Hrun as [(e' & [= <-] & -> & He) | (? & ? & [=] & _)].
      by no_reservation self.
    + apply _connect_runs_inv in Hc as [(e' & [=] & _) | (f & q & _ & Hf & Hq & Hle & ->)].
      destruct (IH _ _ _ Hrun) as (rs & fs' & -> & Hres & Hsub & Hr).
      exists ((g, x) :: rs), fs'. split; [done|]. split.
      { econstructor; eauto. }
      split.
      { intros g' Hg'. rewrite fmap_cons in Hg'. apply elem_of_cons in Hg' as [->|Hg'].
        - by left.
        - right. by apply Hsub. }
      destruct r as [e|[]]; [done|]. by rewrite Hr.
Qed.

Lemma final_stage_synced x qs : ∀ self,
  NoDup qs.*1 → synced (_features self) qs → (∀ p, p ∈ qs → x <= p.2) →
  ∃ self', runs (for_each qs.*1 (λ g, _connect g x)) self (inr tt) self'.
Proof.
  induction qs as [|[g a] qs IH]; intros self Hnd Hs Hle.
  - exists self. apply runs_ret.
  - rewrite fmap_cons in Hnd. apply NoDup_cons in Hnd as [Hg Hnd].
    destruct (Hs g a) as (f & Hf & Ha); [left|].
    assert (Hxa : x <= a) by (apply (Hle (g, a)); left).
    edestruct (IH (with_features self (<[g := set_avail_cap f (a - x)]> (_features self))))
      as (self' & Hrun); [done| |intros p Hp; apply Hle; by right|].
    { simpl. apply synced_insert_other; [done|]. by eapply synced_tail. }
    exists self'. rewrite fmap_cons, for_each_cons.
    eapply runs_bind_ok; [|exact Hrun]. by apply _connect_runs_ok.
Qed.

Lemma Qsum_const x (gs : list gid) :
  Qsum ((λ g, (g, x)) <$> gs).*2 == len gs * x.
Proof.
  induction gs as [|g gs IH].
  - change (len ([] : list gid)) with 0. change (Qsum _) with 0. lra.
  - rewrite !fmap_cons, Qsum_cons, len_cons, IH. simpl. lra.
Qed.

Lemma fmap_fst_const (x : Q) (gs : list gid) : ((λ g, (g, x)) <$> gs).*1 = gs.
Proof. rewrite <- list_fmap_compose. apply list_fmap_id. Qed.

(** A completed spreading is a trace over the lines in play whose amounts
    add up to the request. *)
Lemma spread_general budget ps c self self' :
  runs (spread_with_budget budget ps.*1 ps.*2 c) self (inr tt) self' →
  ∃ rs fs',
    self' = with_features self fs'
    ∧ reserved (_features self) rs fs'
    ∧ rs.*1 ≡ₚ ps.*1
    ∧ Qsum rs.*2 == c.
Proof.
  unfold spread_with_budget. rewrite mbind_unfold. intros Hrun.
  apply runs_bind_inv in Hrun as [(e & [=] & _) | ([lines c'] & s1 & Hloop & Hrun)].
  destruct (spread_loop_general _ _ _ _ _ _ Hloop)
    as (rs1 & fs1 & -> & Hres1 & _ & qs & -> & Hqs & Hperm & Hc' & _).
  rewrite mbind_unfold in Hrun.
  apply runs_bind_inv in Hrun as [(e & [=] & _) | (x & s2 & Hdiv & Hrun)].
  unfold py_div in Hdiv. destruct (Qeq_dec (len qs.*1) 0) as [H0|_].
  { by destruct Hdiv as [[=] _]. }
  destruct Hdiv as [[= <-] <-].
  destruct (final_stage_general _ _ _ _ _ Hrun) as (rs2 & fs2 & -> & Hres2 & _ & ->).
  exists (rs1 ++ ((λ g, (g, c' / len qs.*1)) <$> qs.*1)), fs2.
  split; [done|]. split; [by eapply reserved_app|]. split.
  - rewrite fmap_app, fmap_fst_const, <- fmap_app. by rewrite Hperm.
  - rewrite fmap_snd_app, Qsum_const, share_times_len; [lra|].
    by intros ?%fmap_fst_nil.
Qed.

Lemma spread_empty budget c self :
  runs (spread_with_budget (S budget) [] [] c) self (inl ZeroDivisionError) self.
Proof. done. Qed.

(** With the lines in sync and distinct, spreading either completes or
    stops on a division by zero, the latter only when no line is in play
    or the lines cannot hold the request. *)
Lemma spread_synced budget ps c self :
  NoDup ps.*1 → synced (_features self) ps →
  ((length ps < budget)%nat
   ∨ (ps ≠ [] ∧ c <= Qsum ps.*2 ∧ (length ps <= budget)%nat)) →
  ∃ r self', runs (spread_with_budget budget ps.*1 ps.*2 c) self r self'
    ∧ ((r = inl ZeroDivisionError ∧ (ps = [] ∨ Qsum ps.*2 < c)) ∨ r = inr tt).
Proof.
  intros Hnd Hs Hb.
  destruct (spread_loop_synced budget ps c self Hnd Hs Hb)
    as (r & s1 & Hloop & [[-> Hr] | [[lines c'] ->]]).
  - exists (inl ZeroDivisionError), s1. split; [|by left].
    unfold spread_with_budget. rewrite mbind_unfold. by apply runs_bind_err.
  - destruct (spread_loop_general _ _ _ _ _ _ Hloop)
      as (rs1 & fs1 & -> & Hres1 & _ & qs & -> & Hqs & Hperm & Hc' & Hstable).
    destruct (synced_after _ _ _ _ _ Hnd Hperm Hs Hres1) as [Hs1 Hnd1].
    destruct (final_stage_synced (c' / len qs.*1) qs (with_features self fs1) Hnd1 Hs1 Hstable)
      as (self' & Hfinal).
    exists (inr tt), self'. split; [|by right].
    unfold spread_with_budget. rewrite mbind_unfold.
    eapply runs_bind_ok; [exact Hloop|]. simpl. rewrite mbind_unfold.
    eapply runs_bind_ok; [|exact Hfinal].
    unfold py_div. destruct (Qeq_dec (len qs.*1) 0) as [H0|_]; [|apply runs_ret].
    by apply len_zero, fmap_fst_nil in H0.
Qed.

(** ** Connecting to a substation *)

Lemma read_only_member_caps_step acc g : read_only (member_caps_step acc g).
Proof. unfold member_caps_step. repeat read_only_step. Qed.

Lemma member_caps_step_inv self acc l vs self' :
  runs (member_caps_step acc l) self (inr vs) self' →
  self' = self ∧ vs = acc ++ [value_of (_features self) l]
  ∧ has_cap_key (_features self) l.
Proof.
  intros Hrun. pose proof (runs_read_only _ _ _ _ (read_only_member_caps_step acc l) Hrun) as ->.
  split; [done|]. destruct Hrun as [Hr _]. revert Hr.
  unfold member_caps_step, value_of, has_cap_key.
  rewrite mbind_unfold, bind_result. unfold features_getitem.
  destruct (_features self !! l) as [f|]; [|done]. cbn [ret result self_after].
  rewrite mbind_unfold, bind_result. unfold getitem_avail_cap.
  destruct (f_avail_cap f) as [v|] eqn:Hv; [|done]. simpl. intros [= <-]. split; eauto.
Qed.

Lemma member_caps_step_ok self acc l :
  has_cap_key (_features self) l →
  runs (member_caps_step acc l) self (inr (acc ++ [value_of (_features self) l])) self.
Proof.
  intros (f & v & Hf & Hv). apply read_only_runs; [apply read_only_member_caps_step|].
  unfold member_caps_step, value_of.
  rewrite mbind_unfold, bind_result. unfold features_getitem. rewrite Hf.
  cbn [ret result self_after].
  rewrite mbind_unfold, bind_result. unfold getitem_avail_cap. by rewrite Hv.
Qed.

Lemma member_caps_inv self ls : ∀ acc vs self',
  runs (for_fold ls acc member_caps_step) self (inr vs) self' →
  self' = self ∧ vs = acc ++ (value_of (_features self) <$> ls)
  ∧ ∀ l, l ∈ ls → has_cap_key (_features self) l.
Proof.
  induction ls as [|l ls IH]; intros acc vs self' Hrun.
  - destruct Hrun as [[= <-] <-]. rewrite app_nil_r.
    split; [done|]. split; [done|]. by intros ? ?%elem_of_nil.
  - rewrite for_fold_cons in Hrun.
    apply runs_bind_inv in Hrun as [(e & [=] & _) | (acc' & s1 & Hstep & Hrun)].
    apply member_caps_step_inv in Hstep as (-> & -> & Hkey).
    apply IH in Hrun as (-> & -> & Hkeys).
    split; [done|]. split; [by rewrite fmap_cons, <- app_assoc|].
    intros l' [->|Hl']%elem_of_cons; auto.
Qed.

Lemma member_caps_ok self ls : ∀ acc,
  (∀ l, l ∈ ls → has_cap_key (_features self) l) →
  runs (for_fold ls acc member_caps_step) self
    (inr (acc ++ (value_of (_features self) <$> ls))) self.
Proof.
  induction ls as [|l ls IH]; intros acc Hkeys.
  - rewrite app_nil_r. apply runs_ret.
  - rewrite for_fold_cons. eapply runs_bind_ok.
    + apply member_caps_step_ok, Hkeys. by left.
    + rewrite fmap_cons.
      specialize (IH (acc ++ [value_of (_features self) l])).
      rewrite <- app_assoc in IH. apply IH.
      intros l' Hl'. apply Hkeys. by right.
Qed.

Lemma in_play_gids fs ls :
  bool_index (truthy <$> (value_of fs <$> ls)) ls = (in_play fs ls).*1.
Proof.
  unfold in_play. induction ls as [|l ls IH]; [done|].
  rewrite !fmap_cons. cbn [bool_index omap list_omap]. unfold truthy at 1.
  destruct (value_of fs l) as [q|]; [|exact IH].
  destruct (Qeq_dec q 0); [exact IH|]. rewrite fmap_cons. simpl. by f_equal.
Qed.

Lemma in_play_caps fs ls :
  numbers (bool_index (truthy <$> (value_of fs <$> ls)) (value_of fs <$> ls))
  = (in_play fs ls).*2.
Proof.
  unfold in_play, numbers. induction ls as [|l ls IH]; [done|].
  rewrite !fmap_cons. cbn [bool_index omap list_omap]. unfold truthy at 1.
  destruct (value_of fs l) as [q|] eqn:Hq; [|exact IH].
  destruct (Qeq_dec q 0); [exact IH|].
  cbn [omap list_omap]. simpl. f_equal. exact IH.
Qed.

Lemma elem_of_in_play fs ls g a :
  (g, a) ∈ in_play fs ls ↔ g ∈ ls ∧ value_of fs g = Some a ∧ ¬ a == 0.
Proof.
  unfold in_play. rewrite list_elem_of_omap. split.
  - intros (l & Hl & Hv). destruct (value_of fs l) as [q|] eqn:Hq; [|done].
    destruct (Qeq_dec q 0); [done|]. by injection Hv as -> ->.
  - intros (Hg & Hv & Ha). exists g. split; [done|]. rewrite Hv.
    by destruct (Qeq_dec a 0).
Qed.

Lemma in_play_synced fs ls : synced fs (in_play fs ls).
Proof.
  intros g a (_ & Hv & _)%elem_of_in_play. unfold value_of in Hv.
  destruct (fs !! g) as [f|]; [|done]. exists f. split; [done|].
  destruct (f_avail_cap f); by subst.
Qed.

Lemma in_play_sublist fs ls : (in_play fs ls).*1 `sublist_of` ls.
Proof.
  unfold in_play. induction ls as [|l ls IH]; [done|].
  cbn [omap list_omap]. destruct (value_of fs l) as [q|].
  - destruct (Qeq_dec q 0).
    + by apply sublist_cons.
    + rewrite fmap_cons. by apply sublist_skip.
  - by apply sublist_cons.
Qed.

Lemma in_play_nodup fs ls : NoDup ls → NoDup (in_play fs ls).*1.
Proof. intros H. eapply sublist_NoDup; [exact H | apply in_play_sublist]. Qed.

Lemma cap_of_value fs l : cap_of fs l = default 0 (value_of fs l).
Proof.
  unfold cap_of, value_of. destruct (fs !! l) as [f|]; [|done].
  by destruct (f_avail_cap f) as [[|]|].
Qed.

(** Dropping the zero capacities does not change the sum. *)
Lemma in_play_sum fs ls : Qsum (in_play fs ls).*2 == total fs ls.
Proof.
  unfold in_play. induction ls as [|l ls IH]; [reflexivity|].
  rewrite total_cons, cap_of_value. cbn [omap list_omap].
  destruct (value_of fs l) as [q|]; simpl.
  - destruct (Qeq_dec q 0); [lra|]. rewrite fmap_cons, Qsum_cons. simpl. lra.
  - lra.
Qed.

Lemma _connect_to_substation_unfold ls c :
  _connect_to_substation ls c false =
  bind (for_fold ls [] member_caps_step) (λ line_caps,
    _spread_substation_load (bool_index (truthy <$> line_caps) ls)
      (numbers (bool_index (truthy <$> line_caps) line_caps)) c).
Proof. reflexivity. Qed.

(** A completed substation connection is a trace over the lines in play
    whose amounts add up to the request. *)
Lemma _connect_to_substation_general ls c self self' :
  runs (_connect_to_substation ls c false) self (inr tt) self' →
  ∃ rs fs',
    self' = with_features self fs'
    ∧ reserved (_features self) rs fs'
    ∧ rs.*1 ≡ₚ (in_play (_features self) ls).*1
    ∧ Qsum rs.*2 == c.
Proof.
  rewrite _connect_to_substation_unfold. intros Hrun.
  apply runs_bind_inv in Hrun as [(e & [=] & _) | (vs & s1 & Hcaps & Hrun)].
  apply member_caps_inv in Hcaps as (-> & -> & _). simpl in Hrun.
  rewrite in_play_gids, in_play_caps in Hrun.
  by apply spread_general in Hrun.
Qed.

Lemma _connect_to_substation_synced ls c self :
  (∀ l, l ∈ ls → has_cap_key (_features self) l) → NoDup ls →
  ∃ r self', runs (_connect_to_substation ls c false) self r self'
    ∧ ((r = inl ZeroDivisionError
        ∧ (in_play (_features self) ls = [] ∧ self' = self
           ∨ total (_features self) ls < c))
       ∨ r = inr tt).
Proof.
  intros Hkeys Hnd. set (ps := in_play (_features self) ls).
  destruct (spread_synced (S (length ps.*1)) ps c self) as (r & self' & Hrun & Hr).
  { by apply in_play_nodup. }
  { apply in_play_synced. }
  { left. rewrite length_fmap. lia. }
  exists r, self'. split.
  { rewrite _connect_to_substation_unfold. eapply runs_bind_ok.
    - by apply member_caps_ok.
    - simpl. rewrite in_play_gids, in_play_caps. exact Hrun. }
  destruct Hr as [[-> Hr] | ->]; [left|by right]. split; [done|].
  destruct Hr as [Hps|Hlt].
  - left. split; [done|]. unfold ps in *. rewrite Hps in Hrun.
    by destruct (runs_det _ _ _ _ _ _ Hrun (spread_empty _ c self)) as [_ ->].
  - right. unfold ps in Hlt. by rewrite in_play_sum in Hlt.
Qed.

(** ** Connecting through [connect] to a substation *)

Lemma is_line_key fs l : is_line fs l → has_cap_key fs l.
Proof. intros (f & a & Hf & _ & Ha). exists f, (Some a). done. Qed.

Lemma lines_member_caps fs ls :
  Forall (is_line fs) ls →
  member_line_caps fs ls = cap_of fs <$> ls ∧ member_warnings fs ls = [].
Proof.
  induction 1 as [|l ls (f & a & Hf & Ht & Ha) _ [IH1 IH2]]; [done|].
  destruct (member_line_caps_cons_line fs l ls f Hf Ht) as [-> ->].
  by rewrite IH1, IH2.
Qed.

Lemma lines_resolve fs ls : Forall (is_line fs) ls → members_resolve fs ls.
Proof.
  intros Hall. eapply Forall_impl; [exact Hall|].
  intros l (f & a & Hf & Ht & Ha). eauto.
Qed.

(** The derived capacity of a substation whose members are lines. *)
Lemma station_capacity self g f ls :
  _features self !! g = Some f → f_type f = "Substation" → f_lines f = Some ls →
  Forall (is_line (_features self)) ls →
  ∃ v, available_capacity g false self = Outcome (inr (Some v)) self []
       ∧ v == total (_features self) ls / 2.
Proof.
  intros Hf Ht Hls Hall.
  destruct (_substation_capacity_run self ls false (lines_resolve _ _ Hall))
    as (v & Hrun & Hv).
  destruct (lines_member_caps _ _ Hall) as [Hcaps Hw].
  rewrite Hw in Hrun. simpl in Hv. rewrite Hcaps in Hv.
  exists v. split; [|done]. by eapply available_capacity_station.
Qed.

Lemma bind_ret_left {A B} (m : M A) (k : A → M B) self a :
  m self = Outcome (inr a) self [] → bind m k self = k a self.
Proof. intros Hm. unfold bind. rewrite Hm. simpl. by destruct (k a self). Qed.

(** The [apply] block of [connect] on a substation. *)
Lemma connect_apply_station self g f ls c ll :
  _features self !! g = Some f → f_type f = "Substation" → f_lines f = Some ls →
  (f ← features_getitem g;
   _ ← (if String.eqb (f_type f) "TransLine" then _connect g c
        else if String.eqb (f_type f) "Substation" then
          ls ← getitem_lines f; _connect_to_substation ls c ll
        else if String.eqb (f_type f) "LoadCen" then _connect g c
        else ret tt) : M unit;
   _update_availability g false) self
  = bind (_connect_to_substation ls c ll) (λ _, _update_availability g false) self.
Proof.
  intros Hf Ht Hls. rewrite mbind_unfold.
  rewrite (bind_ret_left _ _ _ f) by (by apply features_getitem_Some).
  rewrite Ht. simpl. rewrite !mbind_unfold. unfold bind at 1 3.
  rewrite (bind_ret_left _ _ _ ls); [done|]. unfold getitem_lines. by rewrite Hls.
Qed.

Lemma connect_unfold g c ll :
  connect g c true ll =
  bind (check_availability g) (λ available,
    if available : bool then
      bind (available_capacity g ll) (λ avail_cap,
        if match avail_cap with Some a => Qltb a c | None => false end
        then ret false
        else bind (f ← features_getitem g;
                   _ ← (if String.eqb (f_type f) "TransLine" then _connect g c
                        else if String.eqb (f_type f) "Substation" then
                          ls ← getitem_lines f; _connect_to_substation ls c ll
                        else if String.eqb (f_type f) "LoadCen" then _connect g c
                        else ret tt) : M unit;
                   _update_availability g false)
                  (λ _, ret true))
    else ret false).
Proof. reflexivity. Qed.

(** A substation connection reported feasible went through
    [_connect_to_substation]; the mask update leaves the features alone. *)
Lemma connect_station_inv self g f ls c ll self' :
  _features self !! g = Some f → f_type f = "Substation" → f_lines f = Some ls →
  runs (connect g c true ll) self (inr true) self' →
  ∃ s1, runs (_connect_to_substation ls c ll) self (inr tt) s1
        ∧ _features self' = _features s1.
Proof.
  intros Hf Ht Hls. rewrite connect_unfold. intros Hrun.
  apply runs_bind_inv in Hrun as [(e & [=] & _) | (b & s0 & Hb & Hrun)].
  apply (runs_read_only _ _ _ _ (read_only_check_availability g)) in Hb as ->.
  destruct b; [|by destruct Hrun as [[=] _]].
  apply runs_bind_inv in Hrun as [(e & [=] & _) | (v & s0 & Hv & Hrun)].
  apply (runs_read_only _ _ _ _ (read_only_available_capacity g ll)) in Hv as ->.
  destruct (match v with Some a => Qltb a c | None => false end);
    [by destruct Hrun as [[=] _]|].
  apply runs_bind_inv in Hrun as [(e & [=] & _) | ([] & s2 & Happly & [_ <-])].
  unfold runs in Happly. rewrite (connect_apply_station _ _ _ _ _ _ Hf Ht Hls) in Happly.
  fold (runs (bind (_connect_to_substation ls c ll) (λ _, _update_availability g false))
          self (inr tt) s2) in Happly.
  apply runs_bind_inv in Happly as [(e & [=] & _) | ([] & s1 & Hsub & [_ <-])].
  exists s1. split; [done|].
  destruct (_update_availability_frame s1 g false) as (mask' & -> & _). done.
Qed.

Lemma Qsum_differences fs fs' L :
  Qsum ((λ l, cap_of fs l - cap_of fs' l) <$> L) == total fs L - total fs' L.
Proof.
  induction L as [|l L IH].
  - change (Qsum _) with 0. change (total fs []) with 0. change (total fs' []) with 0. lra.
  - rewrite fmap_cons, Qsum_cons, !total_cons, IH. lra.
Qed.

Lemma reserved_is_line fs rs fs' l :
  reserved fs rs fs' → is_line fs l → is_line fs' l.
Proof.
  intros Hres (f & a & Hf & Ht & Ha).
  pose proof (reserved_shape _ _ _ Hres l) as Hl. rewrite Hf in Hl.
  destruct Hl as (f' & Hf' & Ht' & _ & Hc).
  destruct Hc as [Hc | (b & b' & _ & Hb')].
  - exists f', a. repeat split; congruence.
  - exists f', b'. repeat split; congruence.
Qed.

Lemma is_line_value fs l : is_line fs l → ∃ a, value_of fs l = Some a.
Proof. intros (f & a & Hf & _ & Ha). exists a. unfold value_of. by rewrite Hf, Ha. Qed.

(** A member left out of the spreading had no capacity. *)
Lemma not_in_play_zero fs ls l :
  l ∈ ls → l ∉ (in_play fs ls).*1 → cap_of fs l == 0.
Proof.
  intros Hl Hout. rewrite cap_of_value.
  destruct (value_of fs l) as [a|] eqn:Ha; [|reflexivity]. simpl.
  destruct (Qeq_dec a 0) as [|Hne]; [done|].
  exfalso. apply Hout. apply list_elem_of_fmap. exists (l, a). split; [done|].
  by apply elem_of_in_play.
Qed.

Lemma in_play_member fs ls g : g ∈ (in_play fs ls).*1 → g ∈ ls.
Proof.
  intros ([g' a] & -> & Hin)%list_elem_of_fmap.
  by apply elem_of_in_play in Hin as [? _].
Qed.

(** ** The iteration budget *)

Lemma _fill_lines_no_budget_error gids caps c self :
  result (_fill_lines gids caps c self) ≠ inl IterationBudget.
Proof.
  unfold _fill_lines. rewrite mbind_unfold, bind_result.
  unfold py_div. destruct (Qeq_dec (len gids) 0); [done|].
  cbn [ret result self_after]. rewrite mbind_unfold, bind_result.
  match goal with |- context [for_fold ?ps c _fill_lines_step self] =>
    destruct (fill_loop_general ps self c _ _ (runs_intro _ _))
      as (rs & fs' & Hs & Hres & Hsub & He);
    destruct (result (for_fold ps c _fill_lines_step self)) as [e|c']
  end; [|done].
  destruct He as [_ He]. congruence.
Qed.

(** One more iteration than there are lines always suffices. *)
Lemma spread_loop_budget_enough budget : ∀ gids caps c self,
  (length gids < budget)%nat →
  result (spread_loop budget gids caps c self) ≠ inl IterationBudget.
Proof.
  induction budget as [|budget IH]; intros gids caps c self Hlen; [lia|].
  rewrite spread_loop_S, bind_result.
  pose proof (_fill_lines_no_budget_error gids caps c self) as Hfill.
  destruct (result (_fill_lines gids caps c self)) as [e|[[lines caps'] c1]].
  - congruence.
  - destruct (length lines <? length gids)%nat eqn:Hlt; [|done].
    apply Nat.ltb_lt in Hlt. apply IH. lia.
Qed.

(** A larger budget does not change a run that stayed within its budget. *)
Lemma spread_loop_budget_mono budget : ∀ gids caps c self r self',
  runs (spread_loop budget gids caps c) self r self' →
  r ≠ inl IterationBudget →
  runs (spread_loop (S budget) gids caps c) self r self'.
Proof.
  induction budget as [|budget IH]; intros gids caps c self r self' Hrun Hr.
  { by destruct Hrun as [<- _]. }
  rewrite spread_loop_S in Hrun. rewrite spread_loop_S.
  apply runs_bind_inv in Hrun as [(e & -> & Hfill) | ([[lines caps'] c1] & s1 & Hfill & Hrun)].
  - by apply runs_bind_err.
  - eapply runs_bind_ok; [exact Hfill|]. simpl.
    destruct (length lines <? length gids)%nat; [|done]. by apply IH.
Qed.

Lemma spread_with_budget_mono budget gids caps c self self' :
  runs (spread_with_budget budget gids caps c) self (inr tt) self' →
  runs (spread_with_budget (S budget) gids caps c) self (inr tt) self'.
Proof.
  unfold spread_with_budget. rewrite !mbind_unfold. intros Hrun.
  apply runs_bind_inv in Hrun as [(e & [=] & _) | (v & s1 & Hloop & Hrun)].
  eapply runs_bind_ok; [|exact Hrun]. by apply spread_loop_budget_mono.
Qed.

Lemma total_nonneg fs ls : Forall (λ l, 0 <= cap_of fs l) ls → 0 <= total fs ls.
Proof.
  intros H. unfold total. apply Forall_nonneg_Qsum. by apply Forall_fmap.
Qed.

(** The capacities that count for the derived capacity are among those
    in play. *)
Lemma member_line_caps_cons fs l ls :
  member_line_caps fs (l :: ls)
  = match fs !! l with
    | Some fl => if String.eqb (f_type fl) "TransLine"
                 then cap_of fs l :: member_line_caps fs ls
                 else member_line_caps fs ls
    | None => member_line_caps fs ls
    end.
Proof.
  unfold member_line_caps. cbn [omap list_omap].
  destruct (fs !! l) as [fl|]; [|done]. by destruct (String.eqb _ _).
Qed.

Lemma member_line_caps_le_total fs ls :
  Forall (λ l, 0 <= cap_of fs l) ls → Qsum (member_line_caps fs ls) <= total fs ls.
Proof.
  induction 1 as [|l ls Hl _ IH].
  - change (Qsum (member_line_caps fs [])) with 0. change (total fs []) with 0. lra.
  - rewrite total_cons, member_line_caps_cons.
    destruct (fs !! l) as [fl|]; [|lra].
    destruct (String.eqb (f_type fl) "TransLine"); [|lra].
    rewrite Qsum_cons. lra.
Qed.

(** A request within the derived capacity fits on the members in play. *)
Lemma feasible_fits fs ls c :
  Forall (λ l, 0 <= cap_of fs l) ls →
  c <= Qsum (member_line_caps fs ls) / 2 →
  c <= Qsum (in_play fs ls).*2.
Proof.
  intros Hpos Hc. pose proof (total_nonneg _ _ Hpos).
  pose proof (member_line_caps_le_total _ _ Hpos).
  rewrite in_play_sum. rewrite half_eq in Hc. lra.
Qed.

Lemma lines_keys fs ls : Forall (is_line fs) ls → ∀ l, l ∈ ls → has_cap_key fs l.
Proof. rewrite Forall_forall. intros H l Hl. by apply is_line_key, H. Qed.

(** Spreading a request that fits over distinct members completes, within
    as many iterations as members in play. *)
Lemma spread_feasible self ls c :
  (∀ l, l ∈ ls → has_cap_key (_features self) l) → NoDup ls →
  let ps := in_play (_features self) ls in
  c <= Qsum ps.*2 →
  ps ≠ [] →
  ∃ self', runs (spread_with_budget (length ps) ps.*1 ps.*2 c) self (inr tt) self'
           ∧ runs (_connect_to_substation ls c false) self (inr tt) self'.
Proof.
  intros Hkeys Hnd ps Hfit Hne.
  destruct (spread_synced (length ps) ps c self) as (r & self' & Hrun & Hr).
  { by apply in_play_nodup. }
  { apply in_play_synced. }
  { right. split; [done|]. split; [done|lia]. }
  destruct Hr as [[_ [Hps|Hlt]] | ->]; [done | lra |].
  exists self'. split; [done|].
  rewrite _connect_to_substation_unfold. eapply runs_bind_ok.
  - by apply member_caps_ok.
  - simpl. rewrite in_play_gids, in_play_caps. fold ps.
    unfold _spread_substation_load. rewrite length_fmap.
    by apply spread_with_budget_mono.
Qed.

(** Reading the member capacities can only fail on a missing key. *)
Lemma member_caps_error ls : ∀ self acc e self',
  runs (for_fold ls acc member_caps_step) self (inl e) self' → e = KeyError.
Proof.
  induction ls as [|l ls IH]; intros self acc e self' Hrun.
  - by destruct Hrun as [[=] _].
  - rewrite for_fold_cons in Hrun.
    apply runs_bind_inv in Hrun as [(e' & [= <-] & Hstep) | (acc' & s1 & _ & Hrun)];
      [|by eapply IH].
    destruct Hstep as [Hr _]. revert Hr. unfold member_caps_step.
    rewrite mbind_unfold, bind_result. unfold features_getitem.
    destruct (_features self !! l) as [f|]; [|by intros [= <-]].
    cbn [ret result self_after]. rewrite mbind_unfold, bind_result.
    unfold getitem_avail_cap. destruct (f_avail_cap f); [done|by intros [= <-]].
Qed.

(** With distinct member gids the spreading never reaches the raise of
    [_connect]. *)
Lemma spreading_safe self ls c :
  NoDup ls → result (_connect_to_substation ls c false self) ≠ inl RuntimeError.
Proof.
  intros Hnd.
  pose proof (runs_intro (for_fold ls [] member_caps_step) self) as Hcaps.
  destruct (result (for_fold ls [] member_caps_step self)) as [e|vs] eqn:He.
  - rewrite _connect_to_substation_unfold, bind_result, He.
    by rewrite (member_caps_error _ _ _ _ _ Hcaps).
  - apply member_caps_inv in Hcaps as (_ & _ & Hkeys).
    destruct (_connect_to_substation_synced ls c self Hkeys Hnd)
      as (r & self' & [<- _] & [[Hr _] | Hr]); rewrite Hr; done.
Qed.

(** ** Well-formed objects *)

Lemma catalog_wf fs : NoDup fs.*1 → wf_state (catalog fs).
Proof.
  intros Hnd. split; simpl.
  - done.
  - intros g. rewrite list_elem_of_fmap. split.
    + intros ([g' f] & -> & Hin). exists f. by apply elem_of_list_to_map_1.
    + intros [f Hf]. exists (g, f). split; [done|]. by apply elem_of_list_to_map_2.
  - by rewrite length_replicate, length_fmap.
Qed.

(** [__init__] builds a well-formed object, all flags set. *)
Lemma init_wf read_csv read_json table features p1 p2 p3 p4 p5 p6 tf :
  __init__ read_csv read_json table features p1 p2 p3 p4 p5 p6 = inr tf →
  wf_state tf ∧ Forall (λ b, b = true) (_available_mask tf).
Proof.
  unfold __init__.
  destruct (_get_features read_csv read_json p6 table features) as [e|fs]; [done|].
  intros [= <-]. split; [split|]; simpl.
  - apply NoDup_fst_map_to_list.
  - intros g. rewrite list_elem_of_fmap. split.
    + intros ([g' f] & -> & Hin). exists f. by apply elem_of_map_to_list.
    + intros [f Hf]. exists (g, f). split; [done|]. by apply elem_of_map_to_list.
  - by rewrite length_replicate, length_fmap.
  - apply Forall_replicate. done.
Qed.

(** ** Batch costing *)

Lemma costs_loop_spec df capacity ll feature rows : ∀ acc,
  match result (for_fold rows acc (λ costs r,
            c ← cost_of_row (row_get_multiplier df r) r capacity ll;
            ret (costs ++ [c])) feature) with
  | inr costs => ∃ cs, costs = acc ++ cs
                       ∧ Forall2 (λ r c, row_cost df capacity ll feature r = inr c) rows cs
  | inl e => Exists (λ r, row_cost df capacity ll feature r = inl e) rows
  end.
Proof.
  induction rows as [|r rows IH]; intros acc.
  - simpl. exists []. by rewrite app_nil_r.
  - rewrite for_fold_cons, bind_result, mbind_unfold, bind_result, bind_self_after.
    rewrite read_only_cost_of_row.
    destruct (result (cost_of_row _ _ _ _ feature)) as [e|c] eqn:Hc.
    + by left.
    + cbn [ret result self_after]. specialize (IH (acc ++ [c])).
      destruct (result (for_fold rows (acc ++ [c]) _ feature)) as [e|costs].
      * by right.
      * destruct IH as (cs & -> & Hall). exists (c :: cs).
        split; [by rewrite <- app_assoc|]. by constructor.
Qed.

(** ** Reservations that keep zero at zero *)

Lemma reserved_pointwise fs rs fs' :
  reserved fs rs fs' → NoDup rs.*1 →
  ∀ g, ((g ∉ rs.*1) ∧ fs' !! g = fs !! g)
       ∨ (∃ a, (g, a) ∈ rs ∧ a <= cap_of fs g ∧ cap_of fs' g = cap_of fs g - a).
Proof.
  induction 1 as [fs|fs g' a f q rs fs' Hf Ha Hle Hrest IH]; intros Hnd g.
  - left. split; [by intros ?%elem_of_nil | done].
  - rewrite fmap_cons in Hnd. apply NoDup_cons in Hnd as [Hg' Hnd].
    simpl in Hg'.
    destruct (decide (g = g')) as [->|Hne].
    + right. exists a. split; [left|]. rewrite (cap_of_lookup _ _ _ _ Hf Ha).
      split; [done|].
      assert (fs' !! g' = Some (set_avail_cap f (q - a))) as Hlk.
      { rewrite (reserved_untouched _ _ _ _ Hrest Hg'). apply lookup_insert_eq. }
      unfold cap_of. by rewrite Hlk.
    + destruct (IH Hnd g) as [[Hout Hsame] | (b & Hin & Hb & Hcap)].
      * left. split.
        -- rewrite fmap_cons. simpl. apply not_elem_of_cons. done.
        -- rewrite Hsame. by apply lookup_insert_ne.
      * right. exists b. rewrite cap_of_insert, decide_False in Hb, Hcap by done.
        split; [by right | done].
Qed.

(** The two facts the invariant needs from a trace: no capacity goes
    negative and a capacity at zero stays there. *)
Lemma reserved_gentle fs rs fs' :
  reserved fs rs fs' → NoDup rs.*1 →
  (∀ g a, (g, a) ∈ rs → 0 <= a ∨ ¬ cap_of fs g == 0) →
  ∀ g, (0 <= cap_of fs g → 0 <= cap_of fs' g)
       ∧ (cap_of fs g == 0 → cap_of fs' g == 0).
Proof.
  intros Hres Hnd Hsafe g.
  destruct (reserved_pointwise _ _ _ Hres Hnd g) as [[_ Hsame] | (a & Hin & Ha & Hcap)].
  - unfold cap_of. rewrite Hsame. done.
  - rewrite Hcap. split; [lra|]. intros H0.
    destruct (Hsafe g a Hin) as [Hpos|Hnz]; [lra | done].
Qed.

Lemma total_zero_members fs ls :
  (∀ g, 0 <= cap_of fs g) → total fs ls == 0 → Forall (λ l, cap_of fs l == 0) ls.
Proof.
  intros Hpos. induction ls as [|l ls IH]; intros H0; [done|].
  rewrite total_cons in H0.
  assert (0 <= total fs ls).
  { apply total_nonneg. apply Forall_forall. auto. }
  pose proof (Hpos l). constructor; [lra | apply IH; lra].
Qed.

Lemma members_zero_total fs ls :
  Forall (λ l, cap_of fs l == 0) ls → total fs ls == 0.
Proof.
  induction 1 as [|l ls Hl _ IH]; [reflexivity|]. rewrite total_cons. lra.
Qed.

Lemma reserved_lookup_inv fs rs fs' g f' :
  reserved fs rs fs' → fs' !! g = Some f' →
  ∃ f, fs !! g = Some f ∧ same_shape f f'.
Proof.
  intros Hres Hf'. pose proof (reserved_shape _ _ _ Hres g) as Hg.
  destruct (fs !! g) as [f|]; [|congruence].
  destruct Hg as (f2 & Hf2 & Hsh). exists f. split; [done|]. congruence.
Qed.

(** Well-formed features stay well formed under a gentle trace. *)
Lemma features_ok_reserved fs rs fs' :
  reserved fs rs fs' →
  (∀ g, (0 <= cap_of fs g → 0 <= cap_of fs' g)) →
  (∀ g f, fs !! g = Some f → feature_ok fs f) →
  ∀ g f', fs' !! g = Some f' → feature_ok fs' f'.
Proof.
  intros Hres Hgentle Hok g f' Hf'.
  destruct (reserved_lookup_inv _ _ _ _ _ Hres Hf') as (f & Hf & Ht & Hl & Hc).
  destruct (Hok g f Hf) as [Hpos Hst]. split.
  - intros a' Ha'. rewrite <- (cap_of_lookup _ _ _ _ Hf' Ha').
    apply Hgentle. unfold cap_of. rewrite Hf.
    destruct (f_avail_cap f) as [[a|]|] eqn:Ha; [by apply Hpos | lra | lra].
  - rewrite Ht, Hl. intros Hsub. destruct (Hst Hsub) as (ls & Hls & Hnd & Hlines).
    exists ls. split; [done|]. split; [done|].
    eapply Forall_impl; [exact Hlines|]. intros l. by eapply reserved_is_line.
Qed.

Lemma caps_nonneg fs :
  (∀ g f, fs !! g = Some f → feature_ok fs f) → ∀ g, 0 <= cap_of fs g.
Proof.
  intros Hok g. unfold cap_of. destruct (fs !! g) as [f|] eqn:Hf; [|lra].
  destruct (f_avail_cap f) as [[a|]|] eqn:Ha; try lra.
  by apply (Hok g f Hf).
Qed.

Lemma drained_reserved fs rs fs' g :
  reserved fs rs fs' →
  (∀ g, cap_of fs g == 0 → cap_of fs' g == 0) →
  (∀ g f, fs !! g = Some f → feature_ok fs f) →
  drained fs g → drained fs' g.
Proof.
  intros Hres Hzero Hok (f & Hf & Hd).
  pose proof (reserved_shape _ _ _ Hres g) as Hg. rewrite Hf in Hg.
  destruct Hg as (f' & Hf' & Ht & Hl & Hc).
  exists f'. split; [done|]. rewrite Ht.
  destruct (decide (f_type f = "Substation")) as [Hsub|Hsub].
  - destruct Hd as (ls & Hls & H0). exists ls. split; [congruence|].
    apply members_zero_total.
    eapply Forall_impl; [apply (total_zero_members fs ls (caps_nonneg _ Hok) H0)|].
    intros l. apply Hzero.
  - destruct Hd as (q & Hq & H0).
    destruct Hc as [Hc | (a & a' & Ha & Ha')].
    + exists q. split; [congruence | done].
    + exists a'. split; [done|].
      rewrite <- (cap_of_lookup _ _ _ _ Hf' Ha'). apply Hzero.
      rewrite (cap_of_lookup _ _ _ _ Hf Hq). done.
Qed.

Lemma wf_state_with_features self fs' :
  wf_state self →
  (∀ g, is_Some (fs' !! g) ↔ is_Some (_features self !! g)) →
  wf_state (with_features self fs').
Proof.
  intros [Hnd Hkeys Hmask] Hdom. split; simpl; [done| |done].
  intros g. by rewrite Hkeys, Hdom.
Qed.

Lemma reserved_dom fs rs fs' g :
  reserved fs rs fs' → is_Some (fs' !! g) ↔ is_Some (fs !! g).
Proof.
  intros Hres. pose proof (reserved_shape _ _ _ Hres g) as Hg.
  destruct (fs !! g) as [f|].
  - destruct Hg as (f' & -> & _). split; eauto.
  - rewrite Hg. done.
Qed.

(** The invariant survives a gentle trace. *)
Lemma catalog_ok_reserved self rs fs' :
  catalog_ok self → reserved (_features self) rs fs' → NoDup rs.*1 →
  (∀ g a, (g, a) ∈ rs → 0 <= a ∨ ¬ cap_of (_features self) g == 0) →
  catalog_ok (with_features self fs').
Proof.
  intros [Hwf Hok Hcl] Hres Hnd Hsafe.
  pose proof (reserved_gentle _ _ _ Hres Hnd Hsafe) as Hgentle.
  split; simpl.
  - apply wf_state_with_features; [done|]. intros g. by eapply reserved_dom.
  - eapply features_ok_reserved; eauto. intros g. apply Hgentle.
  - intros g i Hi Hb. eapply drained_reserved; eauto. intros g'. apply Hgentle.
Qed.

(** [drained] is what [available_capacity] reports as zero. *)
Lemma drained_no_capacity self g :
  (∀ g f, _features self !! g = Some f → feature_ok (_features self) f) →
  drained (_features self) g ↔ no_capacity self g.
Proof.
  intros Hok. unfold drained, no_capacity. split.
  - intros (f & Hf & Hd). destruct (Hok g f Hf) as [_ Hst].
    destruct (decide (f_type f = "Substation")) as [Hsub|Hsub].
    + destruct Hd as (ls & Hls & H0). destruct (Hst Hsub) as (ls' & Hls' & _ & Hlines).
      assert (ls' = ls) as -> by congruence.
      destruct (station_capacity self g f ls Hf Hsub Hls Hlines) as (v & Hrun & Hv).
      exists v. rewrite Hrun. split; [done|]. rewrite Hv, half_eq. lra.
    + destruct Hd as (q & Hq & H0). exists q.
      by rewrite (available_capacity_number self g f q false Hf Hsub Hq).
  - intros (q & Hr & H0).
    destruct (_features self !! g) as [f|] eqn:Hf.
    2:{ unfold available_capacity in Hr. rewrite mbind_unfold, bind_result in Hr.
        unfold features_getitem in Hr. by rewrite Hf in Hr. }
    exists f. split; [done|]. destruct (Hok g f Hf) as [_ Hst].
    destruct (decide (f_type f = "Substation")) as [Hsub|Hsub].
    + destruct (Hst Hsub) as (ls & Hls & _ & Hlines). exists ls. split; [done|].
      destruct (station_capacity self g f ls Hf Hsub Hls Hlines) as (v & Hrun & Hv).
      rewrite Hrun in Hr. injection Hr as ->. rewrite half_eq in Hv. lra.
    + rewrite (available_capacity_simple self g f false Hf Hsub) in Hr.
      unfold getitem_avail_cap in Hr. destruct (f_avail_cap f) as [v|]; [|done].
      injection Hr as ->. eauto.
Qed.

(** ** What one [connect] call does to the object *)

Lemma _connect_to_substation_ll_unfold ls c :
  _connect_to_substation ls c true =
  bind (for_fold ls [] member_caps_step) (λ line_caps,
    if decide (Forall is_Some line_caps) then
      match argmax (numbers line_caps) with
      | Some pos =>
          match ls !! pos with
          | Some g => _connect g c
          | None => raise IndexError
          end
      | None => raise ValueError
      end
    else raise TypeError).
Proof. reflexivity. Qed.

Lemma read_only_member_caps ls acc : read_only (for_fold ls acc member_caps_step).
Proof. apply read_only_for_fold. intros. apply read_only_member_caps_step. Qed.

(** In line-limited mode at most one line is reserved on, for the whole
    request. *)
Lemma _connect_to_substation_ll_effect ls c self r self' :
  runs (_connect_to_substation ls c true) self r self' →
  ∃ rs fs',
    self' = with_features self fs'
    ∧ reserved (_features self) rs fs'
    ∧ (rs = [] ∨ ∃ g', rs = [(g', c)]).
Proof.
  rewrite _connect_to_substation_ll_unfold. intros Hrun.
  assert (∃ rs fs', self = with_features self fs'
                    ∧ reserved (_features self) rs fs'
                    ∧ (rs = [] ∨ ∃ g', rs = [(g', c)])) as Hsame.
  { exists [], (_features self). rewrite with_features_id.
    split; [done|]. split; [constructor | by left]. }
  apply runs_bind_inv in Hrun as [(e & -> & Hcaps) | (vs & s1 & Hcaps & Hrun)].
  { by apply (runs_read_only _ _ _ _ (read_only_member_caps ls [])) in Hcaps as ->. }
  apply (runs_read_only _ _ _ _ (read_only_member_caps ls [])) in Hcaps as ->.
  destruct (decide (Forall is_Some vs)); [|by destruct Hrun as [_ <-]].
  destruct (argmax (numbers vs)) as [pos|]; [|by destruct Hrun as [_ <-]].
  destruct (ls !! pos) as [g'|]; [|by destruct Hrun as [_ <-]].
  apply _connect_runs_inv in Hrun
    as [(e & -> & -> & _) | (f0 & q & -> & Hf0 & Hq & Hle & ->)]; [done|].
  eexists [(g', c)], _. split; [done|]. split; [by eapply reserved_one | eauto].
Qed.

Lemma self_as_update self :
  self = with_mask (with_features self (_features self)) (_available_mask self).
Proof. by destruct self. Qed.

Lemma gentle_nil fs : gentle fs [].
Proof. split; [constructor | by intros ? ? ?%elem_of_nil]. Qed.

Lemma gentle_one fs g c : 0 <= c → gentle fs [(g, c)].
Proof.
  intros Hc. split.
  - apply NoDup_singleton.
  - intros g' a Hin. apply list_elem_of_singleton in Hin. injection Hin as -> ->. by left.
Qed.

Lemma gentle_in_play fs ls rs :
  NoDup ls → rs.*1 ≡ₚ (in_play fs ls).*1 → gentle fs rs.
Proof.
  intros Hnd Hperm. split.
  - rewrite Hperm. by apply in_play_nodup.
  - intros g a Hin. right.
    assert (g ∈ (in_play fs ls).*1) as Hg.
    { rewrite <- Hperm. apply list_elem_of_fmap. by exists (g, a). }
    apply list_elem_of_fmap in Hg as ([g' q] & -> & Hq).
    apply elem_of_in_play in Hq as (_ & Hv & Hnz). simpl.
    by rewrite cap_of_value, Hv.
Qed.

(** The reservation step of [connect], after the feasibility check. *)
Lemma connect_dispatch_effect self g f c ll r self' :
  catalog_ok self → 0 <= c →
  _features self !! g = Some f →
  (∀ v, result (available_capacity g ll self) = inr (Some v) → c <= v) →
  runs (if String.eqb (f_type f) "TransLine" then _connect g c
        else if String.eqb (f_type f) "Substation" then
          ls ← getitem_lines f; _connect_to_substation ls c ll
        else if String.eqb (f_type f) "LoadCen" then _connect g c
        else ret tt) self r self' →
  ∃ rs fs',
    self' = with_features self fs'
    ∧ reserved (_features self) rs fs'
    ∧ gentle (_features self) rs.
Proof.
  intros Hok Hc Hf Hfeas Hrun.
  assert (∃ rs fs', self = with_features self fs'
                    ∧ reserved (_features self) rs fs'
                    ∧ gentle (_features self) rs) as Hsame.
  { exists [], (_features self). rewrite with_features_id.
    split; [done|]. split; [constructor | apply gentle_nil]. }
  assert (∀ r self', runs (_connect g c) self r self' →
            ∃ rs fs', self' = with_features self fs'
                      ∧ reserved (_features self) rs fs'
                      ∧ gentle (_features self) rs) as Hdirect.
  { intros r0 s0 H0. apply _connect_runs_inv in H0
      as [(e & -> & -> & _) | (f0 & q & -> & Hf0 & Hq & Hle & ->)]; [done|].
    eexists [(g, c)], _. split; [done|].
    split; [by eapply reserved_one | by apply gentle_one]. }
  destruct (String.eqb_spec (f_type f) "TransLine") as [_|_]; [by eapply Hdirect|].
  destruct (String.eqb_spec (f_type f) "Substation") as [Hsub|_].
  2:{ destruct (String.eqb_spec (f_type f) "LoadCen") as [_|_]; [by eapply Hdirect|].
      by destruct Hrun as [_ <-]. }
  rewrite mbind_unfold in Hrun.
  apply runs_bind_inv in Hrun as [(e & -> & Hls) | (ls & s1 & Hls & Hrun)].
  { by apply (runs_read_only _ _ _ _ (read_only_getitem_lines f)) in Hls as ->. }
  pose proof (runs_read_only _ _ _ _ (read_only_getitem_lines f) Hls) as ->.
  destruct ll.
  - destruct (_connect_to_substation_ll_effect _ _ _ _ _ Hrun)
      as (rs & fs' & -> & Hres & Hrs).
    exists rs, fs'. split; [done|]. split; [done|].
    destruct Hrs as [->|[g' ->]]; [apply gentle_nil | by apply gentle_one].
  - destruct (ok_features _ Hok g f Hf) as [_ Hst].
    destruct (Hst Hsub) as (ls' & Hls' & Hnd & Hlines).
    assert (ls' = ls) as ->.
    { destruct Hls as [Hr _]. unfold getitem_lines in Hr. rewrite Hls' in Hr.
      by injection Hr. }
    destruct (station_capacity self g f ls Hf Hsub Hls' Hlines) as (v & Hv & Hhalf).
    assert (c <= v) as Hcv by (apply Hfeas; by rewrite Hv).
    destruct (_connect_to_substation_synced ls c self (lines_keys _ _ Hlines) Hnd)
      as (r' & s' & Hrun' & Hr').
    destruct (runs_det _ _ _ _ _ _ Hrun Hrun') as [-> ->].
    destruct Hr' as [[-> [[_ ->] | Hlt]] | ->].
    + done.
    + exfalso. pose proof (total_nonneg (_features self) ls) as Hpos.
      rewrite half_eq in Hhalf.
      assert (0 <= total (_features self) ls).
      { apply Hpos. apply Forall_forall. intros l _.
        apply (caps_nonneg _ (ok_features _ Hok)). }
      lra.
    + destruct (_connect_to_substation_general _ _ _ _ Hrun')
        as (rs & fs' & -> & Hres & Hperm & _).
      exists rs, fs'. split; [done|]. split; [done|]. by eapply gentle_in_play.
Qed.

Lemma _update_availability_inv self g ll q :
  result (_update_availability g ll self) = inr tt →
  result (available_capacity g ll self) = inr (Some q) → q == 0 →
  ∃ i, index g (_feature_gid_list self) = Some i
       ∧ (i < length (_available_mask self))%nat
       ∧ self_after (_update_availability g ll self)
         = with_mask self (<[i := false]> (_available_mask self)).
Proof.
  unfold _update_availability.
  rewrite mbind_unfold, bind_result, bind_self_after, read_only_available_capacity.
  intros Hr Hv Hq. rewrite Hv in *. simpl in *.
  destruct (Qeq_dec q 0); [|done].
  rewrite mbind_unfold, bind_result, bind_self_after in *.
  unfold list_index in *.
  destruct (index g (_feature_gid_list self)) as [i|]; simpl in *; [|done].
  case_decide; simpl in *; [|done]. eauto.
Qed.

(** One [connect] call: a gentle trace on the features, then at most the
    flag of [g] cleared, and that only once [g] has no capacity. *)
Lemma connect_effect self g c ll r self' :
  catalog_ok self → 0 <= c →
  runs (connect g c true ll) self r self' →
  ∃ rs fs' mask',
    self' = with_mask (with_features self fs') mask'
    ∧ reserved (_features self) rs fs'
    ∧ gentle (_features self) rs
    ∧ (mask' = _available_mask self
       ∨ ∃ i, index g (_feature_gid_list self) = Some i
              ∧ (i < length (_available_mask self))%nat
              ∧ mask' = <[i := false]> (_available_mask self)
              ∧ no_capacity (with_features self fs') g)
    ∧ (r = inr true →
       result (check_availability g self) = inr true
       ∧ (no_capacity (with_features self fs') g →
          ∃ i, index g (_feature_gid_list self) = Some i
               ∧ mask' = <[i := false]> (_available_mask self))).
Proof.
  intros Hok Hc. rewrite connect_unfold. intros Hrun.
  assert (r ≠ inr true →
          self' = self →
          ∃ rs fs' mask',
            self' = with_mask (with_features self fs') mask'
            ∧ reserved (_features self) rs fs'
            ∧ gentle (_features self) rs
            ∧ (mask' = _available_mask self
               ∨ ∃ i, index g (_feature_gid_list self) = Some i
                      ∧ (i < length (_available_mask self))%nat
                      ∧ mask' = <[i := false]> (_available_mask self)
                      ∧ no_capacity (with_features self fs') g)
            ∧ (r = inr true →
               result (check_availability g self) = inr true
               ∧ (no_capacity (with_features self fs') g →
                  ∃ i, index g (_feature_gid_list self) = Some i
                       ∧ mask' = <[i := false]> (_available_mask self)))) as Hsame.
  { intros Hr ->. exists [], (_features self), (_available_mask self).
    split; [apply self_as_update|]. split; [constructor|].
    split; [apply gentle_nil|]. split; [by left | done]. }
  apply runs_bind_inv in Hrun as [(e & -> & Hb) | (b & s0 & Hb & Hrun)].
  { apply Hsame; [done|].
    by apply (runs_read_only _ _ _ _ (read_only_check_availability g)) in Hb. }
  pose proof (runs_read_only _ _ _ _ (read_only_check_availability g) Hb) as ->.
  destruct b; [|destruct Hrun as [<- <-]; by apply Hsame].
  apply runs_bind_inv in Hrun as [(e & -> & Hv) | (v & s0 & Hv & Hrun)].
  { apply Hsame; [done|].
    by apply (runs_read_only _ _ _ _ (read_only_available_capacity g ll)) in Hv. }
  pose proof (runs_read_only _ _ _ _ (read_only_available_capacity g ll) Hv) as ->.
  destruct (match v with Some a => Qltb a c | None => false end) eqn:Hfeas;
    [destruct Hrun as [<- <-]; by apply Hsame|].
  assert (∃ s2 r2, runs (f ← features_getitem g;
                         _ ← (if String.eqb (f_type f) "TransLine" then _connect g c
                              else if String.eqb (f_type f) "Substation" then
                                ls ← getitem_lines f; _connect_to_substation ls c ll
                              else if String.eqb (f_type f) "LoadCen" then _connect g c
                              else ret tt) : M unit;
                         _update_availability g false) self r2 s2
                   ∧ self' = s2 ∧ (r = inr true → r2 = inr tt)
                   ∧ (∀ e, r2 = inl e → r = inl e)) as (s2 & r2 & Happly & -> & Hr2 & Hr2e).
  { apply runs_bind_inv in Hrun as [(e & -> & Happly) | ([] & s2 & Happly & [<- <-])].
    - eexists _, _. split; [exact Happly|]. split; [done|]. split; [done|].
      by intros e' [= ->].
    - eexists _, _. split; [exact Happly|]. done. }
  rewrite mbind_unfold in Happly.
  apply runs_bind_inv in Happly as [(e & -> & Hf) | (f & s0 & Hf & Happly)].
  { pose proof (runs_read_only _ _ _ _ (read_only_features_getitem g) Hf) as ->.
    apply Hsame; [|done]. by rewrite (Hr2e e eq_refl). }
  pose proof (runs_read_only _ _ _ _ (read_only_features_getitem g) Hf) as ->.
  assert (_features self !! g = Some f) as Hlk.
  { destruct Hf as [Hr _]. unfold features_getitem in Hr.
    destruct (_features self !! g); [by injection Hr as -> | done]. }
  rewrite mbind_unfold in Happly.
  assert (∀ r1 s1,
            runs (if String.eqb (f_type f) "TransLine" then _connect g c
                  else if String.eqb (f_type f) "Substation" then
                    ls ← getitem_lines f; _connect_to_substation ls c ll
                  else if String.eqb (f_type f) "LoadCen" then _connect g c
                  else ret tt) self r1 s1 →
            ∃ rs fs', s1 = with_features self fs'
                      ∧ reserved (_features self) rs fs'
                      ∧ gentle (_features self) rs) as Hdispatch.
  { intros r1 s1 H1. eapply connect_dispatch_effect; eauto.
    intros v' Hv'. destruct Hv as [Hv _]. rewrite Hv in Hv'. injection Hv' as ->.
    simpl in Hfeas. unfold Qltb in Hfeas. by destruct (Qlt_le_dec v' c). }
  apply runs_bind_inv in Happly as [(e & -> & Hd) | ([] & s1 & Hd & Hupd)].
  { destruct (Hdispatch _ _ Hd) as (rs & fs' & -> & Hres & Hgentle).
    exists rs, fs', (_available_mask self). split; [by destruct self|].
    split; [done|]. split; [done|]. split; [by left|].
    intros ->. by specialize (Hr2e e eq_refl). }
  destruct (Hdispatch _ _ Hd) as (rs & fs' & -> & Hres & Hgentle).
  destruct Hupd as [Hupd <-].
  destruct (_update_availability_frame (with_features self fs') g false)
    as (mask' & Hs & Hmask).
  exists rs, fs', mask'. split; [done|]. split; [done|]. split; [done|]. split.
  { destruct Hmask as [->|(i & q & Hi & Hlt & -> & Hq & H0)]; [by left|].
    right. exists i. repeat split; try done. by exists q. }
  intros Hr. split; [by destruct Hb|].
  intros (q & Hq & H0). rewrite (Hr2 Hr) in Hupd.
  destruct (_update_availability_inv _ g false q Hupd Hq H0) as (i & Hi & Hlt & Hafter).
  exists i. split; [done|]. rewrite Hs in Hafter.
  by injection Hafter.
Qed.

(** ** The invariant along a sequence of calls *)

Lemma evolves_refl self : evolves self self.
Proof. by repeat split. Qed.

Lemma evolves_trans s1 s2 s3 : evolves s1 s2 → evolves s2 s3 → evolves s1 s3.
Proof.
  intros (Hg1 & Hl1 & Hm1) (Hg2 & Hl2 & Hm2). repeat split; try congruence. auto.
Qed.

Lemma catalog_ok_clear self g i :
  catalog_ok self →
  index g (_feature_gid_list self) = Some i →
  drained (_features self) g →
  catalog_ok (with_mask self (<[i := false]> (_available_mask self))).
Proof.
  intros [[Hnd Hkeys Hlen] Hok Hcl] Hi Hd. split; [split|..]; simpl; try done.
  - by rewrite length_insert.
  - intros g' i' Hi' Hb. destruct (decide (i' = i)) as [->|Hne].
    + apply index_lookup in Hi, Hi'. by assert (g' = g) as -> by congruence.
    + rewrite list_lookup_insert_ne in Hb by done. by eapply Hcl.
Qed.

Lemma connect_preserves self g c ll :
  catalog_ok self → 0 <= c →
  catalog_ok (self_after (connect g c true ll self))
  ∧ evolves self (self_after (connect g c true ll self)).
Proof.
  intros Hok Hc.
  destruct (connect_effect self g c ll _ _ Hok Hc (runs_intro _ _))
    as (rs & fs' & mask' & -> & Hres & [Hnd Hsafe] & Hmask & _).
  pose proof (catalog_ok_reserved self rs fs' Hok Hres Hnd Hsafe) as Hok1.
  destruct Hmask as [->|(i & Hi & Hlt & -> & Hno)].
  - split; [by destruct self | by repeat split].
  - split.
    + apply (catalog_ok_clear (with_features self fs') g i Hok1 Hi).
      by apply (drained_no_capacity (with_features self fs') g (ok_features _ Hok1)).
    + repeat split; simpl; [by rewrite length_insert|].
      intros j Hj. destruct (decide (j = i)) as [->|Hne].
      * by apply list_lookup_insert_eq.
      * by rewrite list_lookup_insert_ne.
Qed.

Lemma run_calls_preserves calls : ∀ self,
  catalog_ok self → Forall (λ call, 0 <= call.1.2) calls →
  catalog_ok (run_calls calls self) ∧ evolves self (run_calls calls self).
Proof.
  induction calls as [|[[g c] ll] calls IH]; intros self Hok Hcalls.
  - split; [done | apply evolves_refl].
  - apply Forall_cons in Hcalls as [Hc Hcalls]. simpl in Hc.
    destruct (connect_preserves self g c ll Hok Hc) as [Hok1 Hev1].
    destruct (IH _ Hok1 Hcalls) as [Hok2 Hev2].
    split; [done | by eapply evolves_trans].
Qed.

Lemma flag_false_stays self self' g :
  evolves self self' →
  result (check_availability g self) = inr false →
  result (check_availability g self') = inr false.
Proof.
  intros (Hg & _ & Hm) (i & Hi & Hb)%check_availability_inv.
  rewrite <- Hg in Hi. by rewrite (check_availability_run self' g i false Hi (Hm i Hb)).
Qed.



(** ** No division by zero while the request fits *)

Lemma spread_loop_progress budget : ∀ ps c self,
  ps ≠ [] → c <= Qsum ps.*2 → (length ps <= budget)%nat →
  match result (spread_loop budget ps.*1 ps.*2 c self) with
  | inl e => e ≠ ZeroDivisionError ∧ e ≠ IterationBudget
  | inr (lines, _) => lines ≠ []
  end.
Proof.
  induction budget as [|budget IH]; intros ps c self Hne Hc Hlen.
  { destruct ps; [done | simpl in Hlen; lia]. }
  rewrite spread_loop_S, bind_result.
  destruct (_fill_lines_general ps c self _ _ Hne (runs_intro _ _))
    as (rs & fs' & Hs & Hres & Hsub & Hr).
  destruct (result (_fill_lines ps.*1 ps.*2 c self)) as [e|[[gids' caps'] c1]]; [done|].
  destruct Hr as (-> & Hg & Hcaps & Hc1). simpl in Hg, Hcaps, Hc1. subst gids' caps'.
  set (x := c / len ps.*1) in *.
  pose proof (filled_kept_sum x ps) as Hsum.
  destruct (length (kept x ps).*1 <? length ps.*1)%nat eqn:Hlt.
  - apply Nat.ltb_lt in Hlt. rewrite !length_fmap in Hlt. apply IH.
    + intros Hk. pose proof (kept_nil_sum x c ps Hne eq_refl Hk). lra.
    + lra.
    + lia.
  - apply Nat.ltb_ge in Hlt. rewrite !length_fmap in Hlt.
    pose proof (kept_length x ps).
    destruct (kept_all x ps) as [Hk _]; [lia|]. simpl. rewrite Hk.
    by intros ?%fmap_fst_nil.
Qed.

Lemma spread_no_zero_division budget ps c self :
  ps ≠ [] → c <= Qsum ps.*2 → (length ps <= budget)%nat →
  result (spread_with_budget budget ps.*1 ps.*2 c self) ≠ inl ZeroDivisionError
  ∧ result (spread_with_budget budget ps.*1 ps.*2 c self) ≠ inl IterationBudget.
Proof.
  intros Hne Hc Hlen.
  pose proof (spread_loop_progress budget ps c self Hne Hc Hlen) as Hloop.
  unfold spread_with_budget. rewrite mbind_unfold, bind_result.
  destruct (result (spread_loop budget ps.*1 ps.*2 c self)) as [e|[lines c']].
  { destruct Hloop. split; congruence. }
  rewrite mbind_unfold, bind_result. unfold py_div.
  destruct (Qeq_dec (len lines) 0) as [H0|_]; [by apply len_zero in H0|].
  cbn [ret result self_after].
  match goal with |- context [for_each lines ?body ?s] =>
    destruct (final_stage_general (c' / len lines) lines s _ _ (runs_intro _ _))
      as (rs & fs' & _ & _ & _ & Hr);
    destruct (result (for_each lines body s)) as [e|[]]
  end; [|done].
  destruct Hr. split; congruence.
Qed.

(** ** Building well-formed catalogs *)

Lemma catalog_ok_catalog fs :
  NoDup fs.*1 →
  Forall (λ p, feature_ok (list_to_map fs) p.2) fs →
  catalog_ok (catalog fs).
Proof.
  intros Hnd Hall. split.
  - by apply catalog_wf.
  - intros g f Hf. simpl in Hf. apply elem_of_list_to_map_2 in Hf.
    rewrite Forall_forall in Hall. apply (Hall (g, f) Hf).
  - simpl. intros g i _ Hb. apply lookup_replicate in Hb as [? _]. done.
Qed.

(** An object fresh from [__init__] satisfies the invariant as soon as its
    feature records are well formed: no flag is cleared yet. *)
Lemma init_catalog_ok read_csv read_json table features p1 p2 p3 p4 p5 p6 tf :
  __init__ read_csv read_json table features p1 p2 p3 p4 p5 p6 = inr tf →
  (∀ g f, _features tf !! g = Some f → feature_ok (_features tf) f) →
  catalog_ok tf.
Proof.
  intros Hinit Hok. destruct (init_wf _ _ _ _ _ _ _ _ _ _ _ Hinit) as [Hwf Hmask].
  split; [done | done |].
  intros g i _ Hb. rewrite Forall_forall in Hmask.
  apply list_elem_of_lookup_2, Hmask in Hb. done.
Qed.

(** ** Catalogs built from a table *)

Lemma features_from_table_cons cap r df :
  _features_from_table cap (r :: df)
  = <[trans_line_gid r := feature_dict cap r]> (_features_from_table cap df).
Proof. reflexivity. Qed.

Lemma features_from_table_first_row cap df g :
  _features_from_table cap df !! g = feature_dict cap <$> first_row g df.
Proof.
  induction df as [|r df IH]; [done|].
  rewrite features_from_table_cons. cbn [first_row].
  destruct (decide (trans_line_gid r = g)) as [->|Hne].
  - by rewrite lookup_insert_eq.
  - by rewrite lookup_insert_ne.
Qed.

Lemma feature_dict_type cap r : f_type (feature_dict cap r) = category r.
Proof. unfold feature_dict. by repeat case_match. Qed.

Lemma first_row_gid g df r : first_row g df = Some r → trans_line_gid r = g ∧ r ∈ df.
Proof.
  induction df as [|r' df IH]; [done|]. cbn [first_row].
  destruct (decide (trans_line_gid r' = g)) as [Hg|Hne].
  - intros [= ->]. split; [done | by left].
  - intros H. destruct (IH H). split; [done | by right].
Qed.


(** The object built from a DataFrame. *)
Lemma init_frame read_csv read_json df p1 p2 p3 p4 p5 p6 :
  __init__ read_csv read_json (TableFrame df) None p1 p2 p3 p4 p5 p6
  = inr {| _line_tie_in_cost := p1; _line_cost := p2;
           _station_tie_in_cost := p3; _center_tie_in_cost := p4;
           _sink_tie_in_cost := p5; _available_capacity := p6;
           _features := _features_from_table p6 df;
           _feature_gid_list := (map_to_list (_features_from_table p6 df)).*1;
           _available_mask :=
             replicate (length (map_to_list (_features_from_table p6 df))) true |}.
Proof. reflexivity. Qed.

Lemma init_frame_inv read_csv read_json df p1 p2 p3 p4 p5 p6 tf :
  __init__ read_csv read_json (TableFrame df) None p1 p2 p3 p4 p5 p6 = inr tf →
  _features tf = _features_from_table p6 df
  ∧ _line_tie_in_cost tf = p1 ∧ _line_cost tf = p2 ∧ _station_tie_in_cost tf = p3
  ∧ _center_tie_in_cost tf = p4 ∧ _sink_tie_in_cost tf = p5.
Proof. rewrite init_frame. by intros [= <-]. Qed.

Lemma init_len read_csv read_json table features p1 p2 p3 p4 p5 p6 tf :
  __init__ read_csv read_json table features p1 p2 p3 p4 p5 p6 = inr tf →
  __len__ tf = length (_feature_gid_list tf)
  ∧ __len__ tf = length (_available_mask tf).
Proof.
  unfold __init__.
  destruct (_get_features read_csv read_json p6 table features) as [e|fs]; [done|].
  intros [= <-]. unfold __len__. simpl.
  by rewrite length_fmap, length_replicate, length_map_to_list.
Qed.

Lemma check_availability_missing self g :
  wf_state self → _features self !! g = None →
  check_availability g self = Outcome (inl ValueError) self [].
Proof.
  intros Hwf Hg. unfold check_availability. rewrite mbind_unfold.
  unfold bind, list_index.
  destruct (index g (_feature_gid_list self)) as [i|] eqn:Hi; [|done].
  apply index_lookup, list_elem_of_lookup_2, (wf_keys _ Hwf) in Hi.
  rewrite Hg in Hi. by destruct Hi.
Qed.

(** ** Outcomes of single calls *)

Lemma available_capacity_missing self g ll :
  _features self !! g = None →
  available_capacity g ll self = Outcome (inl KeyError) self [].
Proof.
  intros Hg. unfold available_capacity. rewrite mbind_unfold.
  unfold bind, features_getitem. by rewrite Hg.
Qed.

Lemma _update_availability_unbounded self g ll :
  available_capacity g ll self = Outcome (inr None) self [] →
  _update_availability g ll self = Outcome (inr tt) self [].
Proof.
  intros Hav. unfold _update_availability.
  by rewrite mbind_unfold, (bind_ret_left _ _ _ _ Hav).
Qed.

Lemma connect_unavailable self g c apply ll i :
  index g (_feature_gid_list self) = Some i →
  _available_mask self !! i = Some false →
  connect g c apply ll self = Outcome (inr false) self [].
Proof.
  intros Hi Hb. unfold connect.
  by rewrite mbind_unfold, (bind_ret_left _ _ _ _ (check_availability_run _ _ _ _ Hi Hb)).
Qed.

Lemma connect_missing self g c apply ll :
  wf_state self → _features self !! g = None →
  connect g c apply ll self = Outcome (inl ValueError) self [].
Proof.
  intros Hwf Hg. unfold connect. rewrite mbind_unfold. unfold bind.
  by rewrite (check_availability_missing self g Hwf Hg).
Qed.

Lemma tie_in_step_outcome self t :
  (if String.eqb t "TransLine" then ret (_line_tie_in_cost self)
   else if String.eqb t "Substation" then ret (_station_tie_in_cost self)
   else if String.eqb t "LoadCen" then ret (_center_tie_in_cost self)
   else if String.eqb t "PCALoadCen" then ret (_sink_tie_in_cost self)
   else _ ← warn (UnknownFeatureType t); ret 0 : M Q) self
  = Outcome (inr (tie_in_cost self t)) self
      (if known_type t then [] else [UnknownFeatureType t]).
Proof. unfold tie_in_cost, known_type. by repeat case_match. Qed.

Lemma known_type_spec t :
  known_type t = true
  ↔ t = "TransLine" ∨ t = "Substation" ∨ t = "LoadCen" ∨ t = "PCALoadCen".
Proof.
  unfold known_type. rewrite !orb_true_iff, !String.eqb_eq. tauto.
Qed.

Lemma bind_step {A B} (m : M A) (k : A → M B) self a s1 w1 :
  m self = Outcome (inr a) s1 w1 →
  bind m k self
  = Outcome (result (k a s1)) (self_after (k a s1)) (w1 ++ warned (k a s1)).
Proof. intros Hm. unfold bind. by rewrite Hm. Qed.

(** The whole outcome of [cost]: the object is left alone, and the only
    warning of [cost] itself is the one for a type it does not know. *)
Lemma cost_outcome self g f d tm capacity ll :
  _features self !! g = Some f →
  cost g d tm capacity ll self
  = let price := _calc_cost d (_line_cost self) (tie_in_cost self (f_type f)) tm in
    let ws := if known_type (f_type f) then [] else [UnknownFeatureType (f_type f)] in
    match capacity with
    | None => Outcome (inr (Some price)) self ws
    | Some c =>
        let o := connect g c false ll self in
        Outcome (match result o with
                 | inl e => inl e
                 | inr true => inr (Some price)
                 | inr false => inr None
                 end) self (ws ++ warned o)
    end.
Proof.
  intros Hf. unfold cost.
  rewrite mbind_unfold, (bind_ret_left _ _ _ _ (features_getitem_Some _ _ _ Hf)).
  rewrite mbind_unfold, (bind_ret_left get_self _ self self eq_refl).
  rewrite mbind_unfold, (bind_step _ _ _ _ _ _ (tie_in_step_outcome self (f_type f))).
  destruct capacity as [c|]; cbn zeta.
  - rewrite mbind_unfold. unfold bind.
    rewrite (read_only_connect_no_apply g c ll self).
    destruct (result (connect g c false ll self)) as [e|[|]]; cbn [result self_after warned ret];
      by rewrite ?app_nil_r.
  - cbn [result self_after warned ret]. by rewrite app_nil_r.
Qed.

(** ** The footprint of a call, whatever its result *)

Lemma spread_with_budget_trace budget ps c self r self' :
  runs (spread_with_budget budget ps.*1 ps.*2 c) self r self' →
  ∃ rs fs', self' = with_features self fs' ∧ reserved (_features self) rs fs'.
Proof.
  unfold spread_with_budget. rewrite mbind_unfold. intros Hrun.
  apply runs_bind_inv in Hrun as [(e & -> & Hloop) | ([lines c'] & s1 & Hloop & Hrun)].
  { destruct (spread_loop_general _ _ _ _ _ _ Hloop) as (rs & fs' & -> & Hres & _).
    eauto. }
  destruct (spread_loop_general _ _ _ _ _ _ Hloop) as (rs1 & fs1 & -> & Hres1 & _).
  rewrite mbind_unfold in Hrun.
  apply runs_bind_inv in Hrun as [(e & -> & Hdiv) | (x & s2 & Hdiv & Hrun)].
  { apply (runs_read_only _ _ _ _ (read_only_py_div _ _)) in Hdiv as ->. eauto. }
  apply (runs_read_only _ _ _ _ (read_only_py_div _ _)) in Hdiv as ->.
  destruct (final_stage_general _ _ _ _ _ Hrun) as (rs2 & fs2 & -> & Hres2 & _).
  exists (rs1 ++ rs2), fs2. rewrite with_features_twice.
  split; [done|]. by eapply reserved_app.
Qed.

Lemma _connect_to_substation_trace ls c ll self r self' :
  runs (_connect_to_substation ls c ll) self r self' →
  ∃ rs fs', self' = with_features self fs' ∧ reserved (_features self) rs fs'.
Proof.
  destruct ll.
  { intros Hrun.
    destruct (_connect_to_substation_ll_effect _ _ _ _ _ Hrun) as (rs & fs' & ? & ? & _).
    eauto. }
  rewrite _connect_to_substation_unfold. intros Hrun.
  apply runs_bind_inv in Hrun as [(e & -> & Hcaps) | (vs & s1 & Hcaps & Hrun)].
  { apply (runs_read_only _ _ _ _ (read_only_member_caps ls [])) in Hcaps as ->.
    exists [], (_features self). rewrite with_features_id. split; [done | constructor]. }
  apply member_caps_inv in Hcaps as (-> & -> & _). simpl in Hrun.
  rewrite in_play_gids, in_play_caps in Hrun.
  by apply spread_with_budget_trace in Hrun.
Qed.

Lemma connect_trace self g c apply ll r self' :
  runs (connect g c apply ll) self r self' →
  ∃ rs fs' mask',
    self' = with_mask (with_features self fs') mask'
    ∧ reserved (_features self) rs fs'
    ∧ (mask' = _available_mask self
       ∨ ∃ i, (i < length (_available_mask self))%nat
              ∧ mask' = <[i := false]> (_available_mask self)).
Proof.
  assert (self' = self →
          ∃ rs fs' mask',
            self' = with_mask (with_features self fs') mask'
            ∧ reserved (_features self) rs fs'
            ∧ (mask' = _available_mask self
               ∨ ∃ i, (i < length (_available_mask self))%nat
                      ∧ mask' = <[i := false]> (_available_mask self))) as Hsame.
  { intros ->. exists [], (_features self), (_available_mask self).
    split; [apply self_as_update|]. split; [constructor | by left]. }
  destruct apply.
  2:{ intros Hrun. apply Hsame.
      by apply (runs_read_only _ _ _ _ (read_only_connect_no_apply g c ll)) in Hrun. }
  rewrite connect_unfold. intros Hrun.
  apply runs_bind_inv in Hrun as [(e & -> & Hb) | (b & s0 & Hb & Hrun)].
  { apply Hsame.
    by apply (runs_read_only _ _ _ _ (read_only_check_availability g)) in Hb. }
  pose proof (runs_read_only _ _ _ _ (read_only_check_availability g) Hb) as ->.
  destruct b; [|destruct Hrun as [_ <-]; by apply Hsame].
  apply runs_bind_inv in Hrun as [(e & -> & Hv) | (v & s0 & Hv & Hrun)].
  { apply Hsame.
    by apply (runs_read_only _ _ _ _ (read_only_available_capacity g ll)) in Hv. }
  pose proof (runs_read_only _ _ _ _ (read_only_available_capacity g ll) Hv) as ->.
  destruct (match v with Some a => Qltb a c | None => false end);
    [destruct Hrun as [_ <-]; by apply Hsame|].
  assert (∃ r2, runs (f ← features_getitem g;
                      _ ← (if String.eqb (f_type f) "TransLine" then _connect g c
                           else if String.eqb (f_type f) "Substation" then
                             ls ← getitem_lines f; _connect_to_substation ls c ll
                           else if String.eqb (f_type f) "LoadCen" then _connect g c
                           else ret tt) : M unit;
                      _update_availability g false) self r2 self') as (r2 & Happly).
  { apply runs_bind_inv in Hrun as [(e & -> & Happly) | ([] & s2 & Happly & [_ <-])];
      eauto. }
  clear Hrun. rewrite mbind_unfold in Happly.
  apply runs_bind_inv in Happly as [(e & -> & Hf) | (f & s0 & Hf & Happly)].
  { apply Hsame. by apply (runs_read_only _ _ _ _ (read_only_features_getitem g)) in Hf. }
  pose proof (runs_read_only _ _ _ _ (read_only_features_getitem g) Hf) as ->.
  rewrite mbind_unfold in Happly.
  assert (∀ r1 s1,
            runs (if String.eqb (f_type f) "TransLine" then _connect g c
                  else if String.eqb (f_type f) "Substation" then
                    ls ← getitem_lines f; _connect_to_substation ls c ll
                  else if String.eqb (f_type f) "LoadCen" then _connect g c
                  else ret tt) self r1 s1 →
            ∃ rs fs', s1 = with_features self fs'
                      ∧ reserved (_features self) rs fs') as Hdispatch.
  { intros r1 s1 H1.
    assert (∃ rs fs', self = with_features self fs'
                      ∧ reserved (_features self) rs fs') as Hnone.
    { exists [], (_features self). rewrite with_features_id. split; [done | constructor]. }
    assert (∀ r s, runs (_connect g c) self r s →
              ∃ rs fs', s = with_features self fs'
                        ∧ reserved (_features self) rs fs') as Hdirect.
    { intros r0 s0 H0. apply _connect_runs_inv in H0
        as [(e & -> & -> & _) | (f0 & q & -> & Hf0 & Hq & Hle & ->)]; [done|].
      eexists [(g, c)], _. split; [done|]. by eapply reserved_one. }
    destruct (String.eqb (f_type f) "TransLine"); [by eapply Hdirect|].
    destruct (String.eqb (f_type f) "Substation").
    2:{ destruct (String.eqb (f_type f) "LoadCen"); [by eapply Hdirect|].
        by destruct H1 as [_ <-]. }
    rewrite mbind_unfold in H1.
    apply runs_bind_inv in H1 as [(e & -> & Hls) | (ls & s2 & Hls & H1)].
    { by apply (runs_read_only _ _ _ _ (read_only_getitem_lines f)) in Hls as ->. }
    apply (runs_read_only _ _ _ _ (read_only_getitem_lines f)) in Hls as ->.
    by eapply _connect_to_substation_trace. }
  apply runs_bind_inv in Happly as [(e & -> & Hd) | ([] & s1 & Hd & Hupd)].
  { destruct (Hdispatch _ _ Hd) as (rs & fs' & -> & Hres).
    exists rs, fs', (_available_mask self). split; [by destruct self|].
    split; [done | by left]. }
  destruct (Hdispatch _ _ Hd) as (rs & fs' & -> & Hres).
  destruct Hupd as [_ <-].
  destruct (_update_availability_frame (with_features self fs') g false)
    as (mask' & Hs & Hmask).
  exists rs, fs', mask'. split; [done|]. split; [done|].
  destruct Hmask as [->|(i & q & _ & Hlt & -> & _)]; [by left|].
  right. by exists i.
Qed.

Lemma flags_only_cleared_insert mask i :
  flags_only_cleared mask (<[i := false]> mask).
Proof.
  split; [apply length_insert|]. intros j Hj.
  destruct (decide (i = j)) as [->|Hne].
  - apply list_lookup_insert_eq. by eapply lookup_lt_Some.
  - by rewrite list_lookup_insert_ne.
Qed.

Lemma connect_evolves self g c apply ll :
  evolves self (self_after (connect g c apply ll self)).
Proof.
  destruct (connect_trace self g c apply ll _ _ (runs_intro _ _))
    as (rs & fs' & mask' & -> & _ & Hmask).
  split; [done|]. simpl.
  destruct Hmask as [->|(i & _ & ->)]; [done|].
  apply flags_only_cleared_insert.
Qed.

Lemma run_calls_evolves calls : ∀ self, evolves self (run_calls calls self).
Proof.
  induction calls as [|[[g c] ll] calls IH]; intros self; [apply evolves_refl|].
  eapply evolves_trans; [apply (connect_evolves self g c true ll)|]. apply IH.
Qed.

(** ** The line limit *)

Lemma _substation_capacity_modes self ls :
  match result (_substation_capacity ls false self) with
  | inl e => result (_substation_capacity ls true self) = inl e
  | inr vu => ∃ vl, result (_substation_capacity ls true self) = inr vl ∧ vl <= vu
  end.
Proof.
  unfold _substation_capacity. rewrite !mbind_unfold, !bind_result.
  destruct (result (for_fold ls (0, 0) _substation_capacity_step self))
    as [e|[avail_cap line_max]]; [done|].
  destruct (Qlt_le_dec line_max (avail_cap / 2)) as [Hlt|Hle]; simpl.
  - exists line_max. split; [done|]. by apply Qlt_le_weak.
  - exists (avail_cap / 2). split; [done|]. apply Qle_refl.
Qed.

Lemma available_capacity_modes self g :
  match result (available_capacity g false self) with
  | inl e => result (available_capacity g true self) = inl e
  | inr None => result (available_capacity g true self) = inr None
  | inr (Some vu) =>
      ∃ vl, result (available_capacity g true self) = inr (Some vl) ∧ vl <= vu
  end.
Proof.
  unfold available_capacity. rewrite !mbind_unfold, !bind_result.
  rewrite (read_only_features_getitem g self).
  destruct (result (features_getitem g self)) as [e|f]; [done|].
  destruct (String.eqb (f_type f) "Substation").
  - rewrite !mbind_unfold, !bind_result, (read_only_getitem_lines f self).
    destruct (result (getitem_lines f self)) as [e|ls]; [done|].
    rewrite !mbind_unfold, !bind_result.
    pose proof (_substation_capacity_modes self ls) as Hmodes.
    destruct (result (_substation_capacity ls false self)) as [e|vu].
    + by rewrite Hmodes.
    + destruct Hmodes as (vl & -> & Hle). simpl. by exists vl.
  - destruct (result (getitem_avail_cap f self)) as [e|[v|]]; [done| |done].
    exists v. split; [done | apply Qle_refl].
Qed.

Lemma connect_probe_result self g c ll :
  result (connect g c false ll self)
  = match result (check_availability g self) with
    | inl e => inl e
    | inr false => inr false
    | inr true =>
        match result (available_capacity g ll self) with
        | inl e => inl e
        | inr (Some a) => inr (negb (Qltb a c))
        | inr None => inr true
        end
    end.
Proof.
  unfold connect. rewrite mbind_unfold, bind_result.
  rewrite (read_only_check_availability g self).
  destruct (result (check_availability g self)) as [e|[|]]; [done| |done].
  rewrite mbind_unfold, bind_result.
  destruct (result (available_capacity g ll self)) as [e|[a|]]; [done| |done].
  by destruct (Qltb a c).
Qed.

(** ** [np.argmax] *)

Lemma argmax_from_spec xs : ∀ best best_pos pos,
  let p := argmax_from best best_pos pos xs in
  (p = best_pos ∧ Forall (λ x, x <= best) xs)
  ∨ (∃ j x, p = (pos + j)%nat ∧ xs !! j = Some x ∧ best < x
            ∧ Forall (λ y, y <= x) xs
            ∧ ∀ j' y, (j' < j)%nat → xs !! j' = Some y → y < x).
Proof.
  induction xs as [|x xs IH]; intros best best_pos pos; cbn zeta.
  { left. by split. }
  cbn [argmax_from]. destruct (Qlt_le_dec best x) as [Hlt|Hle].
  - right. destruct (IH x pos (S pos)) as [[Hp Hall] | (j & x' & Hp & Hj & Hx & Hall & Hfirst)].
    + exists O, x. rewrite Hp, Nat.add_0_r. split; [done|]. split; [done|].
      split; [done|]. split; [constructor; [apply Qle_refl | done]|].
      intros j' y Hj'. lia.
    + exists (S j), x'. split; [lia|]. split; [done|].
      split; [by eapply Qlt_trans|]. split.
      { constructor; [by apply Qlt_le_weak | done]. }
      intros [|j'] y Hj' Hy.
      * injection Hy as <-. done.
      * apply (Hfirst j' y); [lia | done].
  - destruct (IH best best_pos (S pos))
      as [[Hp Hall] | (j & x' & Hp & Hj & Hx & Hall & Hfirst)].
    + left. split; [done|]. by constructor.
    + right. exists (S j), x'. split; [lia|]. split; [done|]. split; [done|]. split.
      { constructor; [|done]. apply Qlt_le_weak. by eapply Qle_lt_trans. }
      intros [|j'] y Hj' Hy.
      * injection Hy as <-. by eapply Qle_lt_trans.
      * apply (Hfirst j' y); [lia | done].
Qed.

(** [argmax] returns the first position that holds the largest element. *)
Lemma argmax_spec xs pos :
  argmax xs = Some pos →
  ∃ m, xs !! pos = Some m
       ∧ Forall (λ x, x <= m) xs
       ∧ ∀ j y, (j < pos)%nat → xs !! j = Some y → y < m.
Proof.
  destruct xs as [|x xs]; [done|]. cbn [argmax]. intros [= <-].
  destruct (argmax_from_spec xs x O 1%nat)
    as [[-> Hall] | (j & x' & -> & Hj & Hx & Hall & Hfirst)].
  - exists x. split; [done|]. split; [constructor; [apply Qle_refl | done]|].
    intros j y Hj. lia.
  - exists x'. split; [done|]. split.
    { constructor; [by apply Qlt_le_weak | done]. }
    intros [|j'] y Hj' Hy.
    + injection Hy as <-. done.
    + apply (Hfirst j' y); [lia | done].
Qed.

Lemma argmax_is_Some xs : xs ≠ [] → is_Some (argmax xs).
Proof. destruct xs; [done | by eexists]. Qed.

(** Member capacities that are all numbers are the stored capacities. *)
Lemma numbers_values fs ls :
  Forall is_Some (value_of fs <$> ls) →
  numbers (value_of fs <$> ls) = cap_of fs <$> ls.
Proof.
  induction ls as [|l ls IH]; [done|].
  rewrite !fmap_cons. intros [[q Hq] Hall]%Forall_cons.
  unfold numbers in *. cbn [omap list_omap].
  rewrite Hq, cap_of_value, Hq. simpl. by rewrite IH.
Qed.

Lemma lines_values fs ls :
  Forall (is_line fs) ls → Forall is_Some (value_of fs <$> ls).
Proof.
  intros Hall. apply Forall_fmap. eapply Forall_impl; [exact Hall|].
  intros l Hl. destruct (is_line_value _ _ Hl) as [a Ha]. simpl. by rewrite Ha.
Qed.

(** A completed line-limited substation connection: the whole request
    went to the first member with the largest stored capacity. *)
Lemma _connect_to_substation_ll_inv ls c self self' :
  runs (_connect_to_substation ls c true) self (inr tt) self' →
  ∃ pos l fl q,
    ls !! pos = Some l
    ∧ _features self !! l = Some fl
    ∧ f_avail_cap fl = Some (Some q)
    ∧ Forall (λ l', cap_of (_features self) l' <= q) ls
    ∧ (∀ j l', (j < pos)%nat → ls !! j = Some l' → cap_of (_features self) l' < q)
    ∧ c <= q
    ∧ self' = with_features self (<[l := set_avail_cap fl (q - c)]> (_features self)).
Proof.
  rewrite _connect_to_substation_ll_unfold. intros Hrun.
  apply runs_bind_inv in Hrun as [(e & [=] & _) | (vs & s1 & Hcaps & Hrun)].
  apply member_caps_inv in Hcaps as (-> & -> & _). simpl in Hrun.
  destruct (decide (Forall is_Some (value_of (_features self) <$> ls))) as [Hnum|];
    [|by destruct Hrun as [[=] _]].
  rewrite (numbers_values _ _ Hnum) in Hrun.
  destruct (argmax (cap_of (_features self) <$> ls)) as [pos|] eqn:Hpos;
    [|by destruct Hrun as [[=] _]].
  destruct (ls !! pos) as [l|] eqn:Hl; [|by destruct Hrun as [[=] _]].
  apply argmax_spec in Hpos as (m & Hm & Hall & Hfirst).
  rewrite list_lookup_fmap, Hl in Hm. injection Hm as <-.
  apply _connect_runs_inv in Hrun
    as [(e & [=] & _) | (fl & q & _ & Hfl & Hq & Hle & ->)].
  rewrite (cap_of_lookup _ _ _ _ Hfl Hq) in Hall, Hfirst.
  exists pos, l, fl, q. repeat split; try done.
  - exact (proj1 (Forall_fmap _ _ _) Hall).
  - intros j l' Hj Hl'. apply (Hfirst j); [done|].
    by rewrite list_lookup_fmap, Hl'.
Qed.

(** The line-limited connection completes as soon as the request fits
    the largest member. *)
Lemma _connect_to_substation_ll_ok ls c self :
  ls ≠ [] →
  Forall (is_line (_features self)) ls →
  (∀ m, Forall (λ l, cap_of (_features self) l <= m) ls →
        (∃ l, l ∈ ls ∧ cap_of (_features self) l = m) → c <= m) →
  ∃ l fl q,
    l ∈ ls ∧ _features self !! l = Some fl ∧ f_avail_cap fl = Some (Some q)
    ∧ c <= q
    ∧ runs (_connect_to_substation ls c true) self (inr tt)
        (with_features self (<[l := set_avail_cap fl (q - c)]> (_features self))).
Proof.
  intros Hne Hlines Hfit.
  pose proof (lines_values _ _ Hlines) as Hnum.
  destruct (argmax_is_Some (cap_of (_features self) <$> ls)) as [pos Hpos].
  { by intros ?%fmap_nil_inv. }
  pose proof Hpos as (m & Hm & Hall & _)%argmax_spec.
  rewrite list_lookup_fmap in Hm.
  destruct (ls !! pos) as [l|] eqn:Hl; [|done]. injection Hm as <-.
  assert (l ∈ ls) as Hin by (by eapply list_elem_of_lookup_2).
  rewrite Forall_forall in Hlines.
  destruct (Hlines l Hin) as (fl & q & Hfl & _ & Hq).
  assert (c <= q) as Hcq.
  { rewrite <- (cap_of_lookup _ _ _ _ Hfl Hq). apply Hfit.
    - exact (proj1 (Forall_fmap _ _ _) Hall).
    - by exists l. }
  exists l, fl, q. split; [done|]. split; [done|]. split; [done|]. split; [done|].
  rewrite _connect_to_substation_ll_unfold. eapply runs_bind_ok.
  { apply member_caps_ok. intros l' Hl'. by apply is_line_key, Hlines. }
  simpl. rewrite decide_True by done. rewrite (numbers_values _ _ Hnum), Hpos, Hl.
  by apply _connect_runs_ok.
Qed.

(** ** The level reached by the spreading *)

Lemma len_pos {A} (l : list A) : l ≠ [] → 0 < len l.
Proof.
  intros Hne. destruct l as [|x l]; [done|]. rewrite len_cons.
  assert (0 <= len l); [|lra].
  unfold len. change 0 with (inject_Z 0). rewrite <- Zle_Qle. lia.
Qed.

Lemma len_app {A} (xs ys : list A) : len (xs ++ ys) == len xs + len ys.
Proof.
  unfold len. by rewrite length_app, Nat2Z.inj_add, inject_Z_plus.
Qed.

Lemma len_perm {A} (xs ys : list A) : xs ≡ₚ ys → len xs = len ys.
Proof. intros H. unfold len. by rewrite H. Qed.

Lemma below_sum_le x (ps : list (gid * Q)) :
  (∀ p, p ∈ ps → p.2 < x) → Qsum ps.*2 <= len ps * x.
Proof.
  induction ps as [|p ps IH]; intros Hall.
  - change (Qsum ([] : list (gid * Q)).*2) with 0.
    change (len ([] : list (gid * Q))) with 0. lra.
  - rewrite fmap_cons, Qsum_cons, len_cons.
    assert (p.2 < x) by (apply Hall; left).
    assert (Qsum ps.*2 <= len ps * x) by (apply IH; intros q Hq; apply Hall; by right).
    lra.
Qed.

(** The share grows from one iteration to the next: what the filled
    lines could not take is left to the others. *)
Lemma share_grows x c c1 ps :
  kept x ps ≠ [] →
  x = c / len ps.*1 →
  c1 == c - Qsum (filled x ps).*2 →
  x <= c1 / len (kept x ps).*1.
Proof.
  intros Hk Hx Hc1.
  assert (ps ≠ []) as Hne.
  { intros ->. by apply Hk. }
  pose proof (below_sum_le x (filled x ps)) as Hsum.
  assert (Qsum (filled x ps).*2 <= len (filled x ps) * x) as Hfilled.
  { apply Hsum. intros p Hp. apply below_lt.
    by apply list_elem_of_filter in Hp as [Hp _]. }
  assert (len ps == len (filled x ps) + len (kept x ps)) as Hlen.
  { rewrite <- len_app. by rewrite (len_perm _ _ (filled_kept_perm x ps)). }
  assert (len ps * x == c) as Hshare.
  { rewrite Hx, len_fmap. apply share_times_len. done. }
  rewrite len_fmap. apply Qle_shift_div_l; [by apply len_pos|].
  nra.
Qed.

Lemma spread_loop_levels budget : ∀ ps c self lines c' self',
  runs (spread_loop budget ps.*1 ps.*2 c) self (inr (lines, c')) self' →
  ∃ rs qs fs',
    self' = with_features self fs'
    ∧ reserved (_features self) rs fs'
    ∧ lines = qs.*1 ∧ qs ≠ []
    ∧ rs ++ qs ≡ₚ ps
    ∧ c' == c - Qsum rs.*2
    ∧ (∀ p, p ∈ qs → c' / len qs.*1 <= p.2)
    ∧ (∀ p, p ∈ rs → p.2 < c' / len qs.*1)
    ∧ c / len ps.*1 <= c' / len qs.*1.
Proof.
  induction budget as [|budget IH]; intros ps c self lines c' self' Hrun.
  { by destruct Hrun as [[=] _]. }
  rewrite spread_loop_S in Hrun.
  destruct (decide (ps = [])) as [->|Hne].
  { by destruct Hrun as [[=] _]. }
  apply runs_bind_inv in Hrun as [(e & [=] & _) | ([[gids' caps'] c1] & s1 & Hfill & Hrun)].
  destruct (_fill_lines_general _ _ _ _ _ Hne Hfill)
    as (rs1 & fs1 & -> & Hres1 & Hsub1 & -> & Hg' & Hc' & Hc1).
  simpl in Hg', Hc', Hc1. subst gids' caps'.
  set (x := c / len ps.*1) in *.
  destruct (length (kept x ps).*1 <? length ps.*1)%nat eqn:Hlt.
  - destruct (IH _ _ _ _ _ _ Hrun)
      as (rs2 & qs & fs2 & -> & Hres2 & -> & Hqs & Hperm & Hc2 & Hstable & Hbelow & Hgrow).
    assert (kept x ps ≠ []) as Hk.
    { intros Hk. rewrite Hk in Hperm. apply Permutation_nil_r in Hperm.
      by destruct rs2, qs. }
    pose proof (share_grows x c c1 ps Hk eq_refl Hc1) as Hx.
    exists (filled x ps ++ rs2), qs, fs2. rewrite with_features_twice.
    split; [done|]. split; [by eapply reserved_app|].
    split; [done|]. split; [done|]. split.
    { rewrite <- app_assoc. etransitivity; [|apply (filled_kept_perm x)].
      by apply Permutation_app_head. }
    split; [rewrite fmap_snd_app; simpl in Hres2; lra|].
    split; [done|]. split; [|lra].
    intros p [Hp|Hp]%elem_of_app; [|by apply Hbelow].
    apply list_elem_of_filter in Hp as [Hp _]. apply below_lt in Hp. lra.
  - destruct Hrun as [[= <- <-] <-]. apply Nat.ltb_ge in Hlt.
    rewrite !length_fmap in Hlt. pose proof (kept_length x ps) as Hle.
    destruct (kept_all x ps) as [Hk Hf]; [lia|].
    rewrite Hf, Hk in *. exists [], ps, fs1.
    change (Qsum ([] : list (gid * Q)).*2) with 0 in *.
    split; [done|]. split; [done|]. split; [done|]. split; [done|].
    split; [done|]. split; [lra|].
    assert (c1 == c) as Heq by lra.
    split; [|split].
    + intros p Hp. rewrite Heq. rewrite <- Hk in Hp. by apply kept_le in Hp.
    + by intros ? ?%elem_of_nil.
    + unfold x. rewrite ?Heq. apply Qle_refl.
Qed.

Lemma nodup_fst_agree (ps : list (gid * Q)) g a a' :
  NoDup ps.*1 → (g, a) ∈ ps → (g, a') ∈ ps → a = a'.
Proof.
  induction ps as [|[g0 a0] ps IH]; [by intros _ ?%elem_of_nil|].
  rewrite fmap_cons. intros [Hg0 Hnd]%NoDup_cons Ha Ha'.
  apply elem_of_cons in Ha as [Ha|Ha]; apply elem_of_cons in Ha' as [Ha'|Ha'].
  - congruence.
  - injection Ha as -> ->. exfalso. apply Hg0. apply list_elem_of_fmap. by exists (g0, a').
  - injection Ha' as -> ->. exfalso. apply Hg0. apply list_elem_of_fmap. by exists (g0, a).
  - by apply IH.
Qed.

Lemma Qsum_fmap_ext {A} (f h : A → Q) xs :
  (∀ x, x ∈ xs → f x == h x) → Qsum (f <$> xs) == Qsum (h <$> xs).
Proof.
  induction xs as [|x xs IH]; intros Hext; [reflexivity|].
  rewrite !fmap_cons, !Qsum_cons, IH.
  - rewrite (Hext x); [reflexivity | by left].
  - intros y Hy. apply Hext. by right.
Qed.

Lemma Qsum_fmap_const {A} (x : Q) (xs : list A) :
  Qsum ((λ _, x) <$> xs) == len xs * x.
Proof.
  induction xs as [|y xs IH].
  - change (len ([] : list A)) with 0. change (Qsum _) with 0. lra.
  - rewrite fmap_cons, Qsum_cons, len_cons, IH. lra.
Qed.

(** A completed spreading over distinct lines in sync with the catalog
    fills them to a common level [x]: a line gives its capacity when that
    is below the level and [x] otherwise. *)
Lemma spread_levels budget ps c self self' :
  NoDup ps.*1 → synced (_features self) ps →
  runs (spread_with_budget budget ps.*1 ps.*2 c) self (inr tt) self' →
  ∃ x,
    Qsum ((λ p, Qmin p.2 x) <$> ps) == c
    ∧ (∀ l a, (l, a) ∈ ps → cap_of (_features self') l == a - Qmin a x)
    ∧ (∀ g, g ∉ ps.*1 → _features self' !! g = _features self !! g)
    ∧ c / len ps.*1 <= x.
Proof.
  intros Hnd Hsync. unfold spread_with_budget. rewrite mbind_unfold. intros Hrun.
  apply runs_bind_inv in Hrun as [(e & [=] & _) | ([lines c'] & s1 & Hloop & Hrun)].
  destruct (spread_loop_levels _ _ _ _ _ _ _ Hloop)
    as (rs1 & qs & fs1 & -> & Hres1 & -> & Hqs & Hperm & Hc' & Hstable & Hbelow & Hgrow).
  rewrite mbind_unfold in Hrun.
  apply runs_bind_inv in Hrun as [(e & [=] & _) | (x & s2 & Hdiv & Hrun)].
  unfold py_div in Hdiv. destruct (Qeq_dec (len qs.*1) 0) as [H0|_].
  { by destruct Hdiv as [[=] _]. }
  destruct Hdiv as [[= <-] <-].
  set (x := c' / len qs.*1) in *.
  destruct (final_stage_general _ _ _ _ _ Hrun) as (rs2 & fs2 & -> & Hres2 & _ & ->).
  simpl in Hres2.
  pose proof (reserved_app _ _ _ _ _ Hres1 Hres2) as Hres.
  assert ((rs1 ++ ((λ g, (g, x)) <$> qs.*1)).*1 ≡ₚ ps.*1) as Hgids.
  { rewrite fmap_app, fmap_fst_const, <- fmap_app. by rewrite Hperm. }
  assert (NoDup (rs1 ++ ((λ g, (g, x)) <$> qs.*1)).*1) as Hnd' by (by rewrite Hgids).
  assert (∀ p, p ∈ rs1 → p ∈ ps) as Hin1.
  { intros p Hp. rewrite <- Hperm. apply elem_of_app. by left. }
  assert (∀ p, p ∈ qs → p ∈ ps) as Hin2.
  { intros p Hp. rewrite <- Hperm. apply elem_of_app. by right. }
  exists x. split; [|split; [|split; [|done]]].
  - rewrite <- (Qsum_perm _ _ (fmap_Permutation (λ p, Qmin p.2 x) _ _ Hperm)).
    rewrite fmap_app, Qsum_app.
    rewrite (Qsum_fmap_ext (λ p, Qmin p.2 x) snd rs1).
    2:{ intros p Hp. apply Q.min_l, Qlt_le_weak. by apply Hbelow. }
    rewrite (Qsum_fmap_ext (λ p, Qmin p.2 x) (λ _, x) qs).
    2:{ intros p Hp. apply Q.min_r. by apply Hstable. }
    rewrite Qsum_fmap_const. unfold x. rewrite <- (len_fmap fst qs).
    rewrite share_times_len; [lra|]. by intros ?%fmap_fst_nil.
  - intros l a Hla. simpl.
    destruct (Hsync l a Hla) as (fl & Hfl & Ha).
    rewrite <- (cap_of_lookup _ _ _ _ Hfl Ha).
    destruct (reserved_pointwise _ _ _ Hres Hnd' l)
      as [[Hout _] | (amt & Hamt & _ & ->)].
    { exfalso. apply Hout. rewrite Hgids. apply list_elem_of_fmap. by exists (l, a). }
    rewrite (cap_of_lookup _ _ _ _ Hfl Ha).
    apply elem_of_app in Hamt as [Hamt|Hamt].
    + pose proof (nodup_fst_agree _ _ _ _ Hnd (Hin1 _ Hamt) Hla) as ->.
      rewrite Q.min_l; [reflexivity|]. apply Qlt_le_weak. by apply (Hbelow (l, a)).
    + apply list_elem_of_fmap in Hamt as (l' & [= <- ->] & Hl').
      apply list_elem_of_fmap in Hl' as ([l'' a'] & -> & Hq). simpl in *.
      pose proof (nodup_fst_agree _ _ _ _ Hnd (Hin2 _ Hq) Hla) as ->.
      rewrite Q.min_r; [reflexivity|]. by apply (Hstable (l'', a)).
  - intros g Hg. simpl. apply (reserved_untouched _ _ _ _ Hres). by rewrite Hgids.
Qed.

Lemma _connect_to_substation_levels ls c self self' :
  NoDup ls →
  runs (_connect_to_substation ls c false) self (inr tt) self' →
  ∃ x,
    Qsum ((λ p, Qmin p.2 x) <$> in_play (_features self) ls) == c
    ∧ (∀ l a, (l, a) ∈ in_play (_features self) ls →
         cap_of (_features self') l == a - Qmin a x)
    ∧ (∀ g, g ∉ (in_play (_features self) ls).*1 →
         _features self' !! g = _features self !! g)
    ∧ c / len (in_play (_features self) ls).*1 <= x.
Proof.
  intros Hnd. rewrite _connect_to_substation_unfold. intros Hsub.
  apply runs_bind_inv in Hsub as [(e & [=] & _) | (vs & s0 & Hcaps & Hsub)].
  apply member_caps_inv in Hcaps as (-> & -> & _). simpl in Hsub.
  rewrite in_play_gids, in_play_caps in Hsub. unfold _spread_substation_load in Hsub.
  exact (spread_levels _ _ _ _ _ (in_play_nodup _ _ Hnd)
           (in_play_synced (_features self) ls) Hsub).
Qed.

(** ** Pricing a whole table *)



(** ** [str.endswith] *)

Lemma string_length_app (s t : string) :
  String.length (s +:+ t) = (String.length s + String.length t)%nat.
Proof.
  induction s as [|a s IH]; [done|].
  change (String a s +:+ t) with (String a (s +:+ t)).
  change (String.length (String a (s +:+ t))) with (S (String.length (s +:+ t))).
  change (String.length (String a s)) with (S (String.length s)).
  by rewrite IH.
Qed.

Lemma substring_app_skip (p t : string) i m :
  String.substring (String.length p + i) m (p +:+ t) = String.substring i m t.
Proof.
  induction p as [|a p IH]; [done|].
  change (String a p +:+ t) with (String a (p +:+ t)).
  change (String.length (String a p) + i)%nat with (S (String.length p + i)).
  cbn [String.substring]. apply IH.
Qed.

Lemma substring_whole (t : string) : String.substring 0 (String.length t) t = t.
Proof.
  induction t as [|a t IH]; [done|].
  change (String.length (String a t)) with (S (String.length t)).
  cbn [String.substring]. by rewrite IH.
Qed.

Lemma substring_split (s : string) : ∀ i,
  (i <= String.length s)%nat →
  s = String.substring 0 i s +:+ String.substring i (String.length s - i) s.
Proof.
  induction s as [|a s IH]; intros i Hi.
  - cbn in Hi. assert (i = O) as -> by lia. done.
  - destruct i as [|i].
    + cbn [String.substring String.append]. rewrite Nat.sub_0_r.
      change (String.length (String a s)) with (S (String.length s)).
      cbn [String.substring]. by rewrite substring_whole.
    + change (String.length (String a s)) with (S (String.length s)) in *.
      cbn [String.substring Nat.sub].
      change (String a (String.substring 0 i s) +:+ ?t)
        with (String a (String.substring 0 i s +:+ t)).
      f_equal. apply IH. lia.
Qed.

(** [endswith s suffix] holds exactly when [s] is some prefix followed by
    [suffix]. *)
Lemma endswith_spec (s suffix : string) :
  endswith s suffix = true ↔ ∃ p, s = p +:+ suffix.
Proof.
  unfold endswith. split.
  - intros [Hlen Heq]%andb_true_iff. apply Nat.leb_le in Hlen.
    apply String.eqb_eq in Heq.
    exists (String.substring 0 (String.length s - String.length suffix) s).
    assert (String.length s - String.length suffix <= String.length s)%nat as Hle by lia.
    pose proof (substring_split s _ Hle) as Hsplit.
    replace (String.length s - (String.length s - String.length suffix))%nat
      with (String.length suffix) in Hsplit by lia.
    by rewrite Heq in Hsplit.
  - intros [p ->]. rewrite string_length_app. apply andb_true_iff. split.
    + apply Nat.leb_le. lia.
    + replace (String.length p + String.length suffix - String.length suffix)%nat
        with (String.length p + 0)%nat by lia.
      rewrite substring_app_skip, substring_whole. apply String.eqb_refl.
Qed.

Lemma json_is_not_csv (p : string) : endswith (p +:+ ".json") ".csv" = false.
Proof.
  unfold endswith. rewrite string_length_app.
  replace (String.length p + String.length ".json" - String.length ".csv")%nat
    with (String.length p + 1)%nat by (cbn; lia).
  rewrite substring_app_skip. cbn. by rewrite andb_false_r.
Qed.

(** ** A substation and its lines share their capacity *)

(** A call reported feasible found the flag set and the request within
    the available capacity. *)
Lemma connect_true_inv self g c apply ll self' :
  runs (connect g c apply ll) self (inr true) self' →
  result (check_availability g self) = inr true
  ∧ ∀ v, result (available_capacity g ll self) = inr (Some v) → c <= v.
Proof.
  unfold connect. rewrite mbind_unfold. intros Hrun.
  apply runs_bind_inv in Hrun as [(e & [=] & _) | (b & s0 & Hb & Hrun)].
  pose proof (runs_read_only _ _ _ _ (read_only_check_availability g) Hb) as ->.
  destruct b; [|by destruct Hrun as [[=] _]].
  split; [by destruct Hb|]. intros v Hv.
  rewrite mbind_unfold in Hrun.
  apply runs_bind_inv in Hrun as [(e & [=] & _) | (v' & s0 & Hv' & Hrun)].
  pose proof (runs_read_only _ _ _ _ (read_only_available_capacity g ll) Hv') as ->.
  destruct Hv' as [Hv' _]. rewrite Hv in Hv'. injection Hv' as <-.
  unfold Qltb in Hrun. destruct (Qlt_le_dec v c); [|done].
  by destruct Hrun as [[=] _].
Qed.

(** Reservations on the member lines of a substation lower its derived
    capacity by half their sum. *)
Lemma station_capacity_after_trace self g f ls rs s' :
  _features self !! g = Some f → f_type f = "Substation" → f_lines f = Some ls →
  NoDup ls → Forall (is_line (_features self)) ls →
  reserved (_features self) rs (_features s') →
  (∀ l, l ∈ rs.*1 → l ∈ ls) →
  ∃ v v',
    available_capacity g false self = Outcome (inr (Some v)) self []
    ∧ available_capacity g false s' = Outcome (inr (Some v')) s' []
    ∧ v' == v - Qsum rs.*2 / 2.
Proof.
  intros Hf Ht Hls Hnd Hlines Hres Hsub.
  destruct (station_capacity self g f ls Hf Ht Hls Hlines) as (v & Hv & Hhalf).
  pose proof (reserved_shape _ _ _ Hres g) as Hg. rewrite Hf in Hg.
  destruct Hg as (f' & Hf' & Ht' & Hls' & _).
  destruct (station_capacity s' g f' ls Hf') as (v' & Hv' & Hhalf').
  { congruence. }
  { congruence. }
  { eapply Forall_impl; [exact Hlines|]. intros l Hl. by eapply reserved_is_line. }
  exists v, v'. split; [done|]. split; [done|].
  pose proof (reserved_total _ _ _ ls Hres Hnd Hsub) as Htotal.
  rewrite half_eq in *. lra.
Qed.

(** A feasible connection to a line or load center, seen from the
    features. *)
Lemma connect_simple_inv self g f c ll self' :
  _features self !! g = Some f → simple_type (f_type f) →
  runs (connect g c true ll) self (inr true) self' →
  ∃ a, f_avail_cap f = Some (Some a) ∧ c <= a
       ∧ _features self' = <[g := set_avail_cap f (a - c)]> (_features self).
Proof.
  intros Hf Ht Hrun.
  destruct (connect_true_inv _ _ _ _ _ _ Hrun) as [Hcheck Hfeas].
  apply check_availability_inv in Hcheck as (i & Hi & Hb).
  pose proof (simple_type_not_station _ Ht) as Hns.
  destruct (f_avail_cap f) as [[a|]|] eqn:Ha.
  - pose proof (connect_simple_run self g f a c ll i true Hf Ht Ha Hi Hb) as Hrun'.
    assert (c <= a) as Hle.
    { apply Hfeas. by rewrite (available_capacity_number self g f a ll Hf Hns Ha). }
    assert (Qltb a c = false) as Hlt.
    { unfold Qltb. destruct (Qlt_le_dec a c) as [H|]; [|done]. by apply Qlt_not_le in H. }
    rewrite Hlt in Hrun'. simpl in Hrun'.
    destruct (runs_det _ _ _ _ _ _ Hrun Hrun') as [_ ->].
    exists a. split; [done|]. split; [done|].
    unfold after_simple_connect. by destruct (Qeq_dec (a - c) 0).
  - exfalso. revert Hrun. rewrite connect_unfold. intros Hrun.
    apply runs_bind_inv in Hrun as [(e & [=] & _) | (b & s0 & Hb' & Hrun)].
    pose proof (runs_read_only _ _ _ _ (read_only_check_availability g) Hb') as ->.
    destruct b; [|by destruct Hrun as [[=] _]].
    apply runs_bind_inv in Hrun as [(e & [=] & _) | (v & s0 & Hv & Hrun)].
    pose proof (runs_read_only _ _ _ _ (read_only_available_capacity g ll) Hv) as ->.
    destruct (match v with Some a => Qltb a c | None => false end);
      [by destruct Hrun as [[=] _]|].
    apply runs_bind_inv in Hrun as [(e & [=] & _) | ([] & s2 & Happly & _)].
    rewrite mbind_unfold in Happly.
    apply runs_bind_inv in Happly as [(e & [=] & _) | (f0 & s0 & Hf0 & Happly)].
    pose proof (runs_read_only _ _ _ _ (read_only_features_getitem g) Hf0) as ->.
    destruct Hf0 as [Hf0 _]. rewrite (features_getitem_Some _ _ _ Hf) in Hf0.
    injection Hf0 as <-. rewrite mbind_unfold in Happly.
    apply runs_bind_inv in Happly as [(e & [=] & _) | ([] & s1 & Hd & _)].
    assert (result (_connect g c self) = inl TypeError) as Herr.
    { unfold _connect. rewrite mbind_unfold, bind_result.
      rewrite (features_getitem_Some _ _ _ Hf). cbn [result self_after].
      rewrite mbind_unfold, bind_result. unfold getitem_avail_cap. rewrite Ha.
      done. }
    destruct Ht as [Ht|Ht]; rewrite Ht in Hd; cbn in Hd;
      destruct Hd as [Hd _]; congruence.
  - exfalso. destruct (connect_true_inv _ _ _ _ _ _ Hrun) as [_ _].
    revert Hrun. rewrite connect_unfold. intros Hrun.
    apply runs_bind_inv in Hrun as [(e & [=] & _) | (b & s0 & Hb' & Hrun)].
    pose proof (runs_read_only _ _ _ _ (read_only_check_availability g) Hb') as ->.
    destruct b; [|by destruct Hrun as [[=] _]].
    apply runs_bind_inv in Hrun as [(e & [=] & _) | (v & s0 & [Hv _] & Hrun)].
    rewrite (available_capacity_simple self g f ll Hf Hns) in Hv.
    unfold getitem_avail_cap in Hv. by rewrite Ha in Hv.
Qed.

(** ** Batch costing, row by row *)


(** ** The applied call, step by step *)

Lemma connect_result_apply self g f c ll i v :
  _features self !! g = Some f →
  index g (_feature_gid_list self) = Some i →
  _available_mask self !! i = Some true →
  result (available_capacity g ll self) = inr v →
  match v with Some a => Qltb a c | None => false end = false →
  result (connect g c true ll self)
  = match result (reserve_on g f c ll self) with
    | inl e => inl e
    | inr _ =>
        match result (_update_availability g false
                        (self_after (reserve_on g f c ll self))) with
        | inl e => inl e
        | inr _ => inr true
        end
    end.
Proof.
  intros Hf Hi Hb Hv Hfeas.
  rewrite connect_unfold, bind_result, (check_availability_run _ _ _ _ Hi Hb).
  cbn [result self_after].
  rewrite bind_result, Hv, (read_only_available_capacity g ll self), Hfeas.
  rewrite bind_result, mbind_unfold, bind_result.
  rewrite (features_getitem_Some _ _ _ Hf). cbn [result self_after].
  rewrite mbind_unfold, bind_result. fold (reserve_on g f c ll).
  destruct (result (reserve_on g f c ll self)) as [e|[]]; [done|].
  by destruct (result (_update_availability g false _)) as [e|[]].
Qed.

Lemma connect_trace_inv self g c ll r self' :
  runs (connect g c true ll) self r self' →
  self' = self
  ∨ ∃ f v r1 s1,
      _features self !! g = Some f
      ∧ result (available_capacity g ll self) = inr v
      ∧ (∀ a, v = Some a → c <= a)
      ∧ runs (reserve_on g f c ll) self r1 s1
      ∧ _features self' = _features s1.
Proof.
  rewrite connect_unfold. intros Hrun.
  apply runs_bind_inv in Hrun as [(e & -> & Hb) | (b & s0 & Hb & Hrun)].
  { left. by apply (runs_read_only _ _ _ _ (read_only_check_availability g)) in Hb. }
  pose proof (runs_read_only _ _ _ _ (read_only_check_availability g) Hb) as ->.
  destruct b; [|destruct Hrun as [_ <-]; by left].
  apply runs_bind_inv in Hrun as [(e & -> & Hv) | (v & s0 & Hv & Hrun)].
  { left. by apply (runs_read_only _ _ _ _ (read_only_available_capacity g ll)) in Hv. }
  pose proof (runs_read_only _ _ _ _ (read_only_available_capacity g ll) Hv) as ->.
  destruct (match v with Some a => Qltb a c | None => false end) eqn:Hfeas;
    [destruct Hrun as [_ <-]; by left|].
  assert (∃ r2, runs (f ← features_getitem g;
                      _ ← (if String.eqb (f_type f) "TransLine" then _connect g c
                           else if String.eqb (f_type f) "Substation" then
                             ls ← getitem_lines f; _connect_to_substation ls c ll
                           else if String.eqb (f_type f) "LoadCen" then _connect g c
                           else ret tt) : M unit;
                      _update_availability g false) self r2 self') as (r2 & Happly).
  { apply runs_bind_inv in Hrun as [(e & -> & Happly) | ([] & s2 & Happly & [_ <-])];
      eauto. }
  clear Hrun. rewrite mbind_unfold in Happly.
  apply runs_bind_inv in Happly as [(e & -> & Hf) | (f & s0 & Hf & Happly)].
  { left. by apply (runs_read_only _ _ _ _ (read_only_features_getitem g)) in Hf. }
  pose proof (runs_read_only _ _ _ _ (read_only_features_getitem g) Hf) as ->.
  assert (_features self !! g = Some f) as Hlk.
  { destruct Hf as [Hr _]. unfold features_getitem in Hr.
    destruct (_features self !! g); [by injection Hr as -> | done]. }
  rewrite mbind_unfold in Happly. fold (reserve_on g f c ll) in Happly.
  right. exists f, v.
  assert (∀ a, v = Some a → c <= a) as Hle.
  { intros a ->. unfold Qltb in Hfeas. by destruct (Qlt_le_dec a c). }
  apply runs_bind_inv in Happly as [(e & -> & Hd) | ([] & s1 & Hd & Hupd)].
  { exists (inl e), self'. by destruct Hv. }
  assert (_features self' = _features s1) as Hfs.
  { destruct Hupd as [_ <-].
    by destruct (_update_availability_frame s1 g false) as (mask' & -> & _). }
  exists (inr tt), s1. by destruct Hv.
Qed.

(** After reservations on its lines, the flag of a substation can be
    refreshed without an error. *)
Lemma update_after_station_trace self g f ls rs fs' i :
  _features self !! g = Some f → f_type f = "Substation" → f_lines f = Some ls →
  Forall (is_line (_features self)) ls →
  reserved (_features self) rs fs' →
  index g (_feature_gid_list self) = Some i →
  (i < length (_available_mask self))%nat →
  result (_update_availability g false (with_features self fs')) = inr tt.
Proof.
  intros Hf Ht Hls Hlines Hres Hi Hlt.
  pose proof (reserved_shape _ _ _ Hres g) as Hg. rewrite Hf in Hg.
  destruct Hg as (f' & Hf' & Ht' & Hls' & _).
  destruct (station_capacity (with_features self fs') g f' ls) as (v' & Hv' & _).
  { done. }
  { congruence. }
  { congruence. }
  { eapply Forall_impl; [exact Hlines|]. intros l Hl. by eapply reserved_is_line. }
  destruct (_update_availability_run (with_features self fs') g false (Some v') i)
    as [Hupd _]; [by rewrite Hv' | done | done | done].
Qed.

(** ** Reservations that go through *)

Lemma reserve_on_simple self g f a c ll :
  _features self !! g = Some f → simple_type (f_type f) →
  f_avail_cap f = Some (Some a) → c <= a →
  runs (reserve_on g f c ll) self (inr tt)
    (with_features self (<[g := set_avail_cap f (a - c)]> (_features self))).
Proof.
  intros Hf Ht Ha Hle. unfold reserve_on.
  destruct Ht as [-> | ->]; cbn [String.eqb Ascii.eqb Bool.eqb];
    by apply _connect_runs_ok.
Qed.

Lemma reserve_on_station self g f ls c ll :
  f_type f = "Substation" → f_lines f = Some ls →
  reserve_on g f c ll self = _connect_to_substation ls c ll self.
Proof.
  intros Ht Hls. unfold reserve_on. rewrite Ht. cbn [String.eqb Ascii.eqb Bool.eqb].
  rewrite mbind_unfold, (bind_ret_left _ _ _ ls); [done|].
  unfold getitem_lines. by rewrite Hls.
Qed.

Lemma reserve_on_other self g f c ll :
  ¬ simple_type (f_type f) → f_type f ≠ "Substation" →
  reserve_on g f c ll self = Outcome (inr tt) self [].
Proof.
  intros Hs Hn. unfold reserve_on.
  destruct (String.eqb_spec (f_type f) "TransLine") as [Ht|_].
  { exfalso. apply Hs. by left. }
  destruct (String.eqb_spec (f_type f) "Substation") as [Ht|_]; [done|].
  destruct (String.eqb_spec (f_type f) "LoadCen") as [Ht|_]; [|done].
  exfalso. apply Hs. by right.
Qed.

Lemma in_play_nonempty fs ls l :
  l ∈ ls → ¬ cap_of fs l == 0 → in_play fs ls ≠ [].
Proof.
  intros Hl Hcap Hnil. rewrite cap_of_value in Hcap.
  destruct (value_of fs l) as [a|] eqn:Ha; [|by apply Hcap].
  assert ((l, a) ∈ in_play fs ls) as Hin by (by apply elem_of_in_play).
  rewrite Hnil in Hin. by apply elem_of_nil in Hin.
Qed.

(** ** Capacity is consumed, never returned *)

Lemma cap_of_same_lookup fs fs' g : fs' !! g = fs !! g → cap_of fs' g = cap_of fs g.
Proof. intros H. unfold cap_of. by rewrite H. Qed.

Lemma reserved_single_consumes fs g0 c fs' g :
  0 <= c → reserved fs [(g0, c)] fs' → cap_of fs' g <= cap_of fs g.
Proof.
  intros Hc Hres. inversion Hres as [|? ? ? f q ? ? Hf Hq Hle Hrest]; subst.
  inversion Hrest; subst. rewrite cap_of_insert.
  destruct (decide (g0 = g)) as [->|_]; [|apply Qle_refl].
  rewrite (cap_of_lookup _ _ _ _ Hf Hq). lra.
Qed.

Lemma reserve_on_consumes self g f c ll r s1 :
  catalog_ok self → 0 <= c →
  _features self !! g = Some f →
  (∀ v, result (available_capacity g ll self) = inr (Some v) → c <= v) →
  runs (reserve_on g f c ll) self r s1 →
  ∀ g', cap_of (_features s1) g' <= cap_of (_features self) g'.
Proof.
  intros Hok Hc Hf Hfeas Hrun g'.
  assert (∀ r s, runs (_connect g c) self r s →
            cap_of (_features s) g' <= cap_of (_features self) g') as Hdirect.
  { intros r0 s0 H0. apply _connect_runs_inv in H0
      as [(e & -> & -> & _) | (f0 & q & -> & Hf0 & Hq & Hle & ->)]; [apply Qle_refl|].
    simpl. eapply reserved_single_consumes; [exact Hc|]. by eapply reserved_one. }
  unfold reserve_on in Hrun.
  destruct (String.eqb_spec (f_type f) "TransLine") as [_|_]; [by eapply Hdirect|].
  destruct (String.eqb_spec (f_type f) "Substation") as [Hst|_].
  2:{ destruct (String.eqb_spec (f_type f) "LoadCen") as [_|_]; [by eapply Hdirect|].
      destruct Hrun as [_ <-]. apply Qle_refl. }
  rewrite mbind_unfold in Hrun.
  apply runs_bind_inv in Hrun as [(e & -> & Hls) | (ls & s0 & Hls & Hrun)].
  { apply (runs_read_only _ _ _ _ (read_only_getitem_lines f)) in Hls as ->.
    apply Qle_refl. }
  pose proof (runs_read_only _ _ _ _ (read_only_getitem_lines f) Hls) as ->.
  destruct ll.
  - destruct (_connect_to_substation_ll_effect _ _ _ _ _ Hrun)
      as (rs & fs' & -> & Hres & [->|[g0 ->]]); simpl.
    + inversion Hres; subst. apply Qle_refl.
    + by eapply reserved_single_consumes.
  - destruct (ok_features _ Hok g f Hf) as [_ Hmembers].
    destruct (Hmembers Hst) as (ls' & Hls' & Hnd & Hlines).
    assert (ls' = ls) as ->.
    { destruct Hls as [Hr _]. unfold getitem_lines in Hr. rewrite Hls' in Hr.
      by injection Hr. }
    destruct (station_capacity self g f ls Hf Hst Hls' Hlines) as (v & Hv & Hhalf).
    assert (c <= v) as Hcv by (apply Hfeas; by rewrite Hv).
    pose proof (caps_nonneg _ (ok_features _ Hok)) as Hpos.
    destruct (_connect_to_substation_synced ls c self (lines_keys _ _ Hlines) Hnd)
      as (r' & s' & Hrun' & Hr').
    destruct (runs_det _ _ _ _ _ _ Hrun Hrun') as [-> ->].
    destruct Hr' as [[-> [[_ ->] | Hlt]] | ->].
    + apply Qle_refl.
    + exfalso. pose proof (total_nonneg (_features self) ls) as Htot.
      rewrite half_eq in Hhalf.
      assert (0 <= total (_features self) ls).
      { apply Htot. apply Forall_forall. intros l _. apply Hpos. }
      lra.
    + destruct (_connect_to_substation_levels ls c self s' Hnd Hrun')
        as (x & _ & Hgive & Hrest & Hx).
      destruct (decide (g' ∈ (in_play (_features self) ls).*1)) as [Hin|Hout].
      2:{ rewrite (cap_of_same_lookup _ _ _ (Hrest g' Hout)). apply Qle_refl. }
      apply list_elem_of_fmap in Hin as ([l a] & -> & Hla). simpl.
      rewrite (Hgive l a Hla).
      pose proof Hla as (_ & Hval & _)%elem_of_in_play.
      assert (cap_of (_features self) l = a) as Hcap.
      { by rewrite cap_of_value, Hval. }
      assert (0 <= a) as Ha by (rewrite <- Hcap; apply Hpos).
      assert (0 <= x) as H0x.
      { apply (Qle_trans _ (c / len (in_play (_features self) ls).*1)); [|done].
        apply Qmult_le_0_compat; [done|]. apply Qinv_le_0_compat.
        unfold len. change 0 with (inject_Z 0). rewrite <- Zle_Qle. lia. }
      pose proof (Q.min_glb a x 0 Ha H0x) as Hmin. rewrite Hcap. lra.
Qed.

Lemma connect_consumes self g c ll :
  catalog_ok self → 0 <= c →
  ∀ g', cap_of (_features (self_after (connect g c true ll self))) g'
        <= cap_of (_features self) g'.
Proof.
  intros Hok Hc g'.
  destruct (connect_trace_inv self g c ll _ _ (runs_intro _ _))
    as [-> | (f & v & r1 & s1 & Hf & Hv & Hle & Hrun & ->)]; [apply Qle_refl|].
  eapply reserve_on_consumes; eauto.
  intros v' Hv'. rewrite Hv in Hv'. injection Hv' as ->. by apply Hle.
Qed.

(** ** Independent features *)

Lemma after_simple_connect_frame self g f a c i :
  _feature_gid_list (after_simple_connect self g f a c i) = _feature_gid_list self
  ∧ (∀ g', g ≠ g' →
       _features (after_simple_connect self g f a c i) !! g' = _features self !! g')
  ∧ (∀ j, i ≠ j →
       _available_mask (after_simple_connect self g f a c i) !! j
       = _available_mask self !! j).
Proof.
  unfold after_simple_connect. destruct (Qeq_dec (a - c) 0); simpl.
  - split; [done|]. split.
    + intros g' Hg'. by apply lookup_insert_ne.
    + intros j Hj. by apply list_lookup_insert_ne.
  - split; [done|]. split; [|done].
    intros g' Hg'. by apply lookup_insert_ne.
Qed.

Lemma after_simple_connect_commute self g1 f1 a1 c1 i1 g2 f2 a2 c2 i2 :
  g1 ≠ g2 → i1 ≠ i2 →
  after_simple_connect (after_simple_connect self g1 f1 a1 c1 i1) g2 f2 a2 c2 i2
  = after_simple_connect (after_simple_connect self g2 f2 a2 c2 i2) g1 f1 a1 c1 i1.
Proof.
  intros Hg Hi. unfold after_simple_connect.
  destruct (Qeq_dec (a1 - c1) 0), (Qeq_dec (a2 - c2) 0);
    unfold with_mask, with_features; simpl; f_equal;
    try (by apply insert_insert_ne); by apply list_insert_insert_ne.
Qed.

(** ** Tables that give well-formed catalogs *)

Lemma feature_dict_ok cap df r :
  row_ok cap df r → feature_ok (_features_from_table cap df) (feature_dict cap r).
Proof.
  intros [Hcap Hmembers]. unfold feature_dict.
  destruct (String.eqb_spec (category r) "TransLine") as [Ht|_].
  { split; simpl.
    - intros a [= <-]. apply Hcap. by left.
    - by rewrite Ht. }
  destruct (String.eqb_spec (category r) "Substation") as [Ht|Hns].
  { split; simpl; [done|]. intros _. destruct (Hmembers Ht) as [Hnd Hlines].
    exists (trans_gids r). split; [done|]. split; [done|].
    eapply Forall_impl; [exact Hlines|]. intros l (r' & Hr' & Ht').
    exists (feature_dict cap r'), (ac_cap r' * cap).
    rewrite features_from_table_first_row, Hr'. split; [done|].
    rewrite feature_dict_type. split; [done|].
    unfold feature_dict. by rewrite Ht'. }
  destruct (String.eqb_spec (category r) "LoadCen") as [Ht|Hn].
  { split; simpl.
    - intros a [= <-]. apply Hcap. by right.
    - by rewrite Ht. }
  destruct (String.eqb_spec (category r) "PCALoadCen") as [Ht|_]; split; simpl; done.
Qed.

(** * The claims of the specification *)

(** C1 fails when a member of the substation is not a TransLine: the
    spreading runs over every member that holds a capacity, whatever its
    type.  On the substation over lines of 10 and 3 and a load center of
    50, a request of 6 is reported feasible (half of 13 is 6.5) and each
    of the three members gives 2: the member lines give 4 of the 6, the
    load center the rest. *)
Lemma load_center_member_takes_a_share :
  let self := mixed_station in
  let self' := self_after (connect 7 6 true false self) in
  let given := λ l, cap_of (_features self) l - cap_of (_features self') l in
  result (connect 7 6 true false self) = inr true
  ∧ member_line_caps (_features self) [1%Z; 5%Z; 2%Z]
    = [cap_of (_features self) 1%Z; cap_of (_features self) 2%Z]
  ∧ given 1%Z + given 2%Z == 4
  ∧ ¬ given 1%Z + given 2%Z == 6
  ∧ given 5%Z == 2.
Proof. vm_compute. repeat split; try reflexivity. discriminate. Qed.

(** C1 (amended).  A substation connection in non-line-limited mode that
    is reported feasible conserves capacity over the members of the
    substation, of whatever type, when none of them holds a negative
    capacity: over the distinct member gids, the amounts taken off the
    stored capacities add up to the requested capacity, and no member
    gives more than it had when the call started.  When every member is a
    TransLine this is the sum over the member lines. *)
Theorem substation_spreading_conserves_capacity self g f ls c self' :
  _features self !! g = Some f →
  f_type f = "Substation" →
  f_lines f = Some ls →
  Forall (λ l, 0 <= cap_of (_features self) l) ls →
  runs (connect g c true false) self (inr true) self' →
  Qsum ((λ l, cap_of (_features self) l - cap_of (_features self') l)
          <$> remove_dups ls) == c
  ∧ Forall (λ l, cap_of (_features self) l - cap_of (_features self') l
                 <= cap_of (_features self) l) ls.
Proof.
  intros Hf Ht Hls Hpos Hrun.
  destruct (connect_station_inv _ _ _ _ _ _ _ Hf Ht Hls Hrun) as (s1 & Hsub & ->).
  destruct (_connect_to_substation_general _ _ _ _ Hsub)
    as (rs & fs' & -> & Hres & Hperm & Hsum).
  simpl. split.
  - rewrite Qsum_differences.
    rewrite (reserved_total _ _ _ (remove_dups ls) Hres); [lra|apply NoDup_remove_dups|].
    intros l Hl. apply elem_of_remove_dups. rewrite Hperm in Hl.
    by apply in_play_member in Hl.
  - apply Forall_forall. intros l Hl.
    destruct (decide (l ∈ rs.*1)) as [Hin|Hout].
    + pose proof (reserved_nonneg _ _ _ _ Hres Hin). lra.
    + assert (cap_of fs' l = cap_of (_features self) l) as ->.
      { unfold cap_of. by rewrite (reserved_untouched _ _ _ _ Hres Hout). }
      rewrite Hperm in Hout.
      pose proof (not_in_play_zero _ _ _ Hl Hout). lra.
Qed.

Lemma substation_spreading_conserves_capacity_witness :
  let self := two_line_station in
  let self' := self_after (connect 7 (13 # 2) true false self) in
  runs (connect 7 (13 # 2) true false) self (inr true) self'
  ∧ Qsum ((λ l, cap_of (_features self) l - cap_of (_features self') l)
            <$> remove_dups [1%Z; 2%Z]) == 13 # 2
  ∧ Forall (λ l, cap_of (_features self) l - cap_of (_features self') l
                 <= cap_of (_features self) l) [1%Z; 2%Z].
Proof.
  assert (runs (connect 7 (13 # 2) true false) two_line_station (inr true)
            (self_after (connect 7 (13 # 2) true false two_line_station))) as Hrun.
  { split; vm_compute; reflexivity. }
  split; [exact Hrun|].
  apply (substation_spreading_conserves_capacity two_line_station 7
           (station [1%Z; 2%Z]) [1%Z; 2%Z] (13 # 2)).
  - reflexivity.
  - reflexivity.
  - reflexivity.
  - repeat constructor; vm_compute; discriminate.
  - exact Hrun.
Defined.

(** C2 fails on [connect]: the request of 10 exceeds the derived capacity
    (10 + 3) / 2 of the substation, so it is reported infeasible and both
    lines keep their capacities. *)
Lemma connect_ten_on_two_line_station_is_infeasible :
  let o := connect 7 10 true false two_line_station in
  result o = inr false
  ∧ self_after o = two_line_station
  ∧ cap_of (_features (self_after o)) 1 == 10
  ∧ cap_of (_features (self_after o)) 2 == 3
  ∧ ¬ (cap_of (_features (self_after o)) 1 == 3
       ∧ cap_of (_features (self_after o)) 2 == 0).
Proof.
  vm_compute. repeat split; try reflexivity. intros [H _]. discriminate H.
Qed.

(** C2 (amended).  For the substation over two lines of capacity 10 and 3,
    the load-spreading step asked to place 10 fills the capacity-3 line
    and takes the remaining 7 from the other line, ending with 3 and 0;
    [connect] itself reports the request of 10 infeasible, the derived
    capacity being 13/2, and changes nothing. *)
Theorem spreading_ten_over_ten_and_three :
  let o := _connect_to_substation [1%Z; 2%Z] 10 false two_line_station in
  result o = inr tt
  ∧ cap_of (_features (self_after o)) 1 == 3
  ∧ cap_of (_features (self_after o)) 2 == 0
  ∧ (∃ v, result (available_capacity 7 false two_line_station) = inr (Some v)
          ∧ v == 13 # 2)
  ∧ runs (connect 7 10 true false) two_line_station (inr false) two_line_station.
Proof.
  vm_compute. repeat split; try reflexivity. eexists. split; reflexivity.
Qed.


(** C3.  A feasible [connect] with [apply] on a line or load center (flag
    set, [c <= a]) returns true and leaves exactly [a - c]; an infeasible
    one ([c > a]) returns false and leaves [a].  The line built from a
    table row with [ac_cap = 100] and fraction 1/10 starts at 10; after
    connecting 5 it holds 5, and a request of 6 is then infeasible and
    leaves 5. *)
Theorem simple_connect_reserves_exactly :
  (∀ self g f a c ll,
     wf_state self →
     _features self !! g = Some f →
     simple_type (f_type f) →
     f_avail_cap f = Some (Some a) →
     (result (check_availability g self) = inr true → c <= a →
      ∃ self', runs (connect g c true ll) self (inr true) self'
               ∧ result (available_capacity g ll self') = inr (Some (a - c)))
     ∧ (a < c →
        runs (connect g c true ll) self (inr false) self
        ∧ result (available_capacity g ll self) = inr (Some a)))
  ∧ (∀ read_csv read_json,
       ∃ tf a0 tf1 a1,
         __init__ read_csv read_json (TableFrame one_line_table) None
           14000 3667 0 0 0 (1 # 10) = inr tf
         ∧ result (available_capacity 1 false tf) = inr (Some a0) ∧ a0 == 10
         ∧ runs (connect 1 5 true false) tf (inr true) tf1
         ∧ result (available_capacity 1 false tf1) = inr (Some a1) ∧ a1 == 5
         ∧ runs (connect 1 6 true false) tf1 (inr false) tf1).
Proof.
  split.
  - intros self g f a c ll Hwf Hf Ht Ha.
    destruct (wf_check_availability self g Hwf) as (i & b & Hi & Hb & Hcheck); [eauto|].
    pose proof (connect_simple_run self g f a c ll i b Hf Ht Ha Hi Hb) as Hrun.
    pose proof (simple_type_not_station _ Ht) as Hns.
    split.
    + rewrite Hcheck. intros [= ->] Hle.
      assert (Qltb a c = false) as Hlt.
      { unfold Qltb. destruct (Qlt_le_dec a c) as [H|]; [|done]. by apply Qlt_not_le in H. }
      rewrite Hlt in Hrun. simpl in Hrun. eexists. split; [exact Hrun|].
      unfold after_simple_connect.
      assert (∀ s, _features s !! g = Some (set_avail_cap f (a - c)) →
                   result (available_capacity g ll s) = inr (Some (a - c))) as Hav.
      { intros s Hs. by rewrite (available_capacity_number s g _ (a - c) ll Hs Hns). }
      destruct (Qeq_dec (a - c) 0); apply Hav; simpl; apply lookup_insert_eq.
    + intros Hlt.
      assert (Qltb a c = true) as Hb'.
      { unfold Qltb. destruct (Qlt_le_dec a c) as [|H]; [done|]. by apply Qle_not_lt in H. }
      rewrite Hb', andb_false_r in Hrun. split; [exact Hrun|].
      by rewrite (available_capacity_number self g f a ll Hf Hns Ha).
  - intros read_csv read_json.
    set (built := __init__ read_csv read_json (TableFrame one_line_table) None
                    14000 3667 0 0 0 (1 # 10)).
    let r := eval vm_compute in built in
    match r with inr ?tf => exists tf end.
    eexists _, _, _.
    split; [vm_compute; reflexivity|].
    split; [vm_compute; reflexivity|].
    split; [vm_compute; reflexivity|].
    split; [split; vm_compute; reflexivity|].
    split; [vm_compute; reflexivity|].
    split; [vm_compute; reflexivity|].
    split; vm_compute; reflexivity.
Qed.

Lemma simple_connect_reserves_exactly_witness :
  let self := catalog [(1%Z, line 10)] in
  (∃ self', runs (connect 1 5 true false) self (inr true) self'
            ∧ result (available_capacity 1 false self') = inr (Some (10 - 5)))
  ∧ runs (connect 1 11 true false) self (inr false) self
  ∧ result (available_capacity 1 false self) = inr (Some 10).
Proof.
  assert (wf_state (catalog [(1%Z, line 10)])) as Hwf.
  { apply catalog_wf. apply (bool_decide_unpack (NoDup [1%Z])). vm_compute. exact I. }
  split.
  - apply (proj1 simple_connect_reserves_exactly (catalog [(1%Z, line 10)]) 1%Z
             (line 10) 10 5 false Hwf).
    + reflexivity.
    + left. reflexivity.
    + reflexivity.
    + reflexivity.
    + vm_compute. discriminate.
  - apply (proj1 simple_connect_reserves_exactly (catalog [(1%Z, line 10)]) 1%Z
             (line 10) 10 11 false Hwf).
    + reflexivity.
    + left. reflexivity.
    + reflexivity.
    + vm_compute. reflexivity.
Defined.





(** C5 fails on a substation whose members are not all sound.  A member
    gid that the catalog does not hold makes [available_capacity] raise a
    KeyError in either mode.  And the line limit starts from 0, not from
    a member: over a single line of capacity -3 the line-limited capacity
    is -3/2, half the sum, above the largest member line. *)
Lemma substation_capacity_needs_sound_members :
  result (available_capacity 7 false dangling_station) = inl KeyError
  ∧ result (available_capacity 7 true dangling_station) = inl KeyError
  ∧ member_line_caps (_features overdrawn_station) [1%Z] = [-3]
  ∧ largest (member_line_caps (_features overdrawn_station) [1%Z]) (-3)
  ∧ ∃ v, result (available_capacity 7 true overdrawn_station) = inr (Some v)
         ∧ v == -3 / 2
         ∧ ¬ v <= -3.
Proof.
  split; [reflexivity|]. split; [reflexivity|]. split; [reflexivity|]. split.
  - split; [by left|]. repeat constructor. vm_compute. discriminate.
  - eexists. split; [vm_compute; reflexivity|]. split; [reflexivity|].
    vm_compute. intros H. by apply H.
Qed.

(** C5 (amended).  When every member gid is in the catalog and every
    member of type TransLine holds a number, the available capacity of a
    substation is half the sum of the capacities of its members of type
    TransLine; every member of another type adds nothing and produces one
    warning.  In line-limited mode, when no member line holds a negative
    capacity, the result is the smaller of that half sum and the largest
    member line (0 when there is no member line). *)
Theorem substation_capacity_is_half_the_line_sum self g f ls ll :
  _features self !! g = Some f →
  f_type f = "Substation" →
  f_lines f = Some ls →
  members_resolve (_features self) ls →
  ∃ v, available_capacity g ll self =
         Outcome (inr (Some v)) self (member_warnings (_features self) ls)
    ∧ let caps := member_line_caps (_features self) ls in
      if ll then
        Forall (λ c, 0 <= c) caps →
        (caps = [] ∧ v == 0) ∨ ∃ m, largest caps m ∧ v == Qmin (Qsum caps / 2) m
      else v == Qsum caps / 2.
Proof.
  intros Hf Ht Hls Hres.
  destruct (_substation_capacity_run self ls ll Hres) as (v & Hrun & Hv).
  exists v. split; [|exact Hv].
  by eapply available_capacity_station.
Qed.

Lemma substation_capacity_is_half_the_line_sum_witness :
  let members := [1%Z; 5%Z; 2%Z; 3%Z] in
  let caps := member_line_caps (_features crowded_station) members in
  members_resolve (_features crowded_station) members
  ∧ member_warnings (_features crowded_station) members = [NotATransLine "LoadCen"]
  ∧ (∃ v, available_capacity 7 false crowded_station
            = Outcome (inr (Some v)) crowded_station [NotATransLine "LoadCen"]
          ∧ v == Qsum caps / 2
          ∧ v == 6)
  ∧ (∃ v, available_capacity 7 true crowded_station
            = Outcome (inr (Some v)) crowded_station [NotATransLine "LoadCen"]
          ∧ ((caps = [] ∧ v == 0)
             ∨ ∃ m, largest caps m ∧ v == Qmin (Qsum caps / 2) m)
          ∧ v == 4).
Proof.
  assert (members_resolve (_features crowded_station) [1%Z; 5%Z; 2%Z; 3%Z]) as Hres.
  { repeat constructor.
    - exists (line 4). split; [reflexivity|]. intros _. by exists 4.
    - exists (load_center 50). split; [reflexivity|]. intros H. discriminate H.
    - exists (line 4). split; [reflexivity|]. intros _. by exists 4.
    - exists (line 4). split; [reflexivity|]. intros _. by exists 4. }
  split; [exact Hres|]. split; [reflexivity|]. split.
  - destruct (substation_capacity_is_half_the_line_sum crowded_station 7
                (station [1%Z; 5%Z; 2%Z; 3%Z]) [1%Z; 5%Z; 2%Z; 3%Z] false)
      as (v & Hrun & Hv); [reflexivity..|exact Hres|].
    exists v. split; [exact Hrun|]. split; [exact Hv|].
    cbn zeta in Hv. rewrite Hv. reflexivity.
  - destruct (substation_capacity_is_half_the_line_sum crowded_station 7
                (station [1%Z; 5%Z; 2%Z; 3%Z]) [1%Z; 5%Z; 2%Z; 3%Z] true)
      as (v & Hrun & Hv); [reflexivity..|exact Hres|].
    assert (Forall (λ c, 0 <= c)
              (member_line_caps (_features crowded_station) [1%Z; 5%Z; 2%Z; 3%Z]))
      as Hpos by (repeat constructor; vm_compute; discriminate).
    exists v. split; [exact Hrun|]. split; [exact (Hv Hpos)|].
    vm_compute in Hrun. by injection Hrun as <-.
Defined.

(** C6.  With a capacity given, [cost] returns the no-connection value
    exactly when the feasibility-only [connect] returns false; when that
    returns true the cost is
    distance * line_cost * multiplier + tie_in_cost(kind). *)
Theorem cost_sentinel_iff_infeasible self g f d tm c ll :
  _features self !! g = Some f →
  (result (cost g d tm (Some c) ll self) = inr None
   ↔ result (connect g c false ll self) = inr false)
  ∧ (result (connect g c false ll self) = inr true →
     result (cost g d tm (Some c) ll self)
     = inr (Some (d * _line_cost self * tm + tie_in_cost self (f_type f)))).
Proof.
  intros Hf. rewrite (cost_result self g f d tm (Some c) ll Hf). simpl.
  destruct (result (connect g c false ll self)) as [e|[|]]; split; try done;
    split; discriminate.
Qed.

Lemma cost_sentinel_iff_infeasible_witness :
  (result (cost 1 10 1 (Some 11) false two_line_station) = inr None
   ↔ result (connect 1 11 false false two_line_station) = inr false)
  ∧ result (cost 1 10 1 (Some 5) false two_line_station)
    = inr (Some (10 * _line_cost two_line_station * 1
                 + tie_in_cost two_line_station (f_type (line 10)))).
Proof.
  split.
  - apply (cost_sentinel_iff_infeasible two_line_station 1 (line 10) 10 1 11 false).
    reflexivity.
  - apply (cost_sentinel_iff_infeasible two_line_station 1 (line 10) 10 1 5 false).
    + reflexivity.
    + vm_compute. reflexivity.
Defined.


(** C7.  [cost] without a capacity and [connect] without [apply] leave the
    object as it was, so a repeated call returns the same; the loop of the
    batch costing, which reaches [connect] only without [apply], leaves
    the catalog as it was built. *)
Theorem costing_and_probing_leave_the_catalog_unchanged :
  ∀ self g d tm c ll rows capacity,
    self_after (cost g d tm None ll self) = self
    ∧ self_after (connect g c false ll self) = self
    ∧ cost g d tm None ll (self_after (cost g d tm None ll self))
      = cost g d tm None ll self
    ∧ connect g c false ll (self_after (connect g c false ll self))
      = connect g c false ll self
    ∧ self_after (cost g d tm capacity ll self) = self
    ∧ self_after (costs_loop rows capacity ll self) = self.
Proof.
  intros self g d tm c ll rows capacity.
  pose proof (read_only_cost g d tm None ll self) as H1.
  pose proof (read_only_connect_no_apply g c ll self) as H2.
  repeat split.
  - exact H1.
  - exact H2.
  - by rewrite H1.
  - by rewrite H2.
  - apply read_only_cost.
  - apply read_only_costs_loop.
Qed.


(** C8 fails when the member list of the substation repeats a gid: the
    request of 52 passes the feasibility check ((2 + 2 + 100) / 2), both
    copies of line 1 are to be filled with 2, and the second [_connect]
    finds the line already empty and raises. *)
Lemma repeated_member_overdraws :
  result (connect 7 52 false false repeated_member_station) = inr true
  ∧ result (connect 7 52 true false repeated_member_station) = inl RuntimeError
  ∧ result (_connect_to_substation [1%Z; 1%Z; 2%Z] 52 false repeated_member_station)
    = inl RuntimeError.
Proof. vm_compute. repeat split; reflexivity. Qed.

(** C8 (amended).  When the member gids of the substation are pairwise
    distinct, the raise of [_connect] is never reached by the spreading
    algorithm: every reservation it issues fits the line it is issued on.
    A request that passed the feasibility check (at most half the sum of
    the line capacities, capacities non-negative) completes as soon as one
    member is in play. *)
Theorem spreading_never_overdraws_a_line self ls c :
  NoDup ls →
  result (_connect_to_substation ls c false self) ≠ inl RuntimeError
  ∧ (Forall (has_cap_key (_features self)) ls →
     Forall (λ l, 0 <= cap_of (_features self) l) ls →
     c <= Qsum (member_line_caps (_features self) ls) / 2 →
     in_play (_features self) ls ≠ [] →
     result (_connect_to_substation ls c false self) = inr tt).
Proof.
  intros Hnd. split; [by apply spreading_safe|].
  intros Hkeys Hpos Hc Hne. rewrite Forall_forall in Hkeys.
  pose proof (feasible_fits _ _ _ Hpos Hc) as Hfit.
  by destruct (spread_feasible self ls c Hkeys Hnd Hfit Hne) as (self' & _ & [-> _]).
Qed.

Lemma spreading_never_overdraws_a_line_witness :
  result (_connect_to_substation [1%Z; 2%Z] (13 # 2) false two_line_station)
    ≠ inl RuntimeError
  ∧ result (_connect_to_substation [1%Z; 2%Z] (13 # 2) false two_line_station)
    = inr tt.
Proof.
  destruct (spreading_never_overdraws_a_line two_line_station [1%Z; 2%Z] (13 # 2))
    as [Hsafe Hdone].
  - apply (bool_decide_unpack (NoDup [1%Z; 2%Z])). vm_compute. exact I.
  - split; [exact Hsafe|]. apply Hdone.
    + repeat constructor.
      * by exists (line 10), (Some 10).
      * by exists (line 3), (Some 3).
    + repeat constructor; vm_compute; discriminate.
    + vm_compute. discriminate.
    + vm_compute. discriminate.
Defined.

(** C9 fails when no member line has capacity left: a request of 0 passes
    the feasibility check of the drained substation, no line is in play,
    and the first equal share divides by zero. *)
Lemma spreading_divides_by_zero_without_lines :
  result (connect 7 0 false false drained_station) = inr true
  ∧ length (in_play (_features drained_station) [1%Z; 2%Z]) = 0%nat
  ∧ result (connect 7 0 true false drained_station) = inl ZeroDivisionError.
Proof. vm_compute. repeat split; reflexivity. Qed.

(** C9 (amended).  Take a substation whose members have non-negative
    capacities, n >= 1 of them in play (capacity not zero), and a request
    that passed the feasibility check (at most half the sum of the line
    capacities).  Then n iterations are enough for the spreading loop,
    which never divides by zero; when the member gids are distinct the
    call completes, with the same result as under the budget of the
    method.  No run of the loop needs more iterations than lines plus
    one. *)
Theorem spreading_terminates_within_lines_in_play self ls c :
  Forall (λ l, 0 <= cap_of (_features self) l) ls →
  c <= Qsum (member_line_caps (_features self) ls) / 2 →
  let ps := in_play (_features self) ls in
  (1 <= length ps)%nat →
  (result (spread_with_budget (length ps) ps.*1 ps.*2 c self) ≠ inl ZeroDivisionError
   ∧ result (spread_with_budget (length ps) ps.*1 ps.*2 c self) ≠ inl IterationBudget)
  ∧ (Forall (has_cap_key (_features self)) ls → NoDup ls →
     ∃ self', runs (spread_with_budget (length ps) ps.*1 ps.*2 c) self (inr tt) self'
              ∧ runs (_connect_to_substation ls c false) self (inr tt) self')
  ∧ ∀ gids caps c0 self0,
      result (spread_loop (S (length gids)) gids caps c0 self0) ≠ inl IterationBudget.
Proof.
  intros Hpos Hc ps Hn.
  assert (ps ≠ []) as Hne.
  { intros Hps. rewrite Hps in Hn. simpl in Hn. lia. }
  pose proof (feasible_fits _ _ _ Hpos Hc) as Hfit. fold ps in Hfit.
  split; [|split].
  - apply spread_no_zero_division; [done|done|lia].
  - intros Hkeys Hnd. rewrite Forall_forall in Hkeys. by apply spread_feasible.
  - intros gids caps c0 self0. apply spread_loop_budget_enough. lia.
Qed.

Lemma spreading_terminates_within_lines_in_play_witness :
  let self := two_line_station in
  let ps := in_play (_features self) [1%Z; 2%Z] in
  length ps = 2%nat
  ∧ result (spread_with_budget 2 ps.*1 ps.*2 (13 # 2) self) ≠ inl ZeroDivisionError
  ∧ result (spread_with_budget 2 ps.*1 ps.*2 (13 # 2) self) ≠ inl IterationBudget
  ∧ ∃ self', runs (spread_with_budget 2 ps.*1 ps.*2 (13 # 2)) self (inr tt) self'
             ∧ runs (_connect_to_substation [1%Z; 2%Z] (13 # 2) false) self (inr tt) self'.
Proof.
  destruct (spreading_terminates_within_lines_in_play two_line_station
              [1%Z; 2%Z] (13 # 2)) as ((Hzero & Hbudget) & Hdone & _).
  - repeat constructor; vm_compute; discriminate.
  - vm_compute. discriminate.
  - vm_compute. lia.
  - split; [reflexivity|]. split; [exact Hzero|]. split; [exact Hbudget|].
    apply Hdone.
    + repeat constructor.
      * by exists (line 10), (Some 10).
      * by exists (line 3), (Some 3).
    + apply (bool_decide_unpack (NoDup [1%Z; 2%Z])). vm_compute. exact I.
Defined.

(** C10 fails for a path: [feature_costs] hands the path to the
    constructor, which reads the file, and then iterates over the path
    itself.  Whatever the file holds, no array comes back; once the
    catalog is built the call ends in an AttributeError. *)
Theorem feature_costs_rejects_paths read_csv read_json path features capacity
    p1 p2 p3 p4 p5 p6 ll :
  (∃ e, feature_costs read_csv read_json (TablePath path) features capacity
          p1 p2 p3 p4 p5 p6 ll = inl e)
  ∧ (∀ tf, __init__ read_csv read_json (TablePath path) features
             p1 p2 p3 p4 p5 p6 = inr tf →
           feature_costs read_csv read_json (TablePath path) features capacity
             p1 p2 p3 p4 p5 p6 ll = inl AttributeError).
Proof.
  unfold feature_costs.
  destruct (__init__ read_csv read_json (TablePath path) features p1 p2 p3 p4 p5 p6)
    as [e|tf]; simpl; split; eauto; done.
Qed.

(** For a DataFrame the batch is as described: one entry per row, the cost
    of that row on the catalog as built, and the first failing row aborts
    the batch with its exception. *)
Lemma feature_costs_frame read_csv read_json df features capacity
    p1 p2 p3 p4 p5 p6 ll tf :
  __init__ read_csv read_json (TableFrame df) features p1 p2 p3 p4 p5 p6 = inr tf →
  match feature_costs read_csv read_json (TableFrame df) features capacity
          p1 p2 p3 p4 p5 p6 ll with
  | inr costs => Forall2 (λ r c, row_cost df capacity ll tf r = inr c) df costs
  | inl e => Exists (λ r, row_cost df capacity ll tf r = inl e) df
  end.
Proof.
  intros Hinit. unfold feature_costs. rewrite Hinit. simpl. unfold costs_loop.
  pose proof (costs_loop_spec df capacity ll tf df []) as H.
  destruct (result (for_fold df [] _ tf)) as [e|costs]; [done|].
  by destruct H as (cs & -> & Hall).
Qed.

(** * Further properties of the handler *)

(** X1.  The catalog built from a table holds, for every gid of the table,
    the record of the first row with that gid, and nothing for a gid that
    no row carries: later rows of a gid are never read. *)
Theorem table_catalog_holds_first_rows cap_perc trans_table g :
  _features_from_table cap_perc trans_table !! g
  = feature_dict cap_perc <$> first_row g trans_table.
Proof.
  induction trans_table as [|r df IH]; [done|].
  rewrite features_from_table_cons. cbn [first_row].
  destruct (decide (trans_line_gid r = g)) as [->|Hne].
  - by rewrite lookup_insert_eq.
  - by rewrite lookup_insert_ne.
Qed.

(** X2.  Right after construction every feature of the catalog is
    available and [check_availability] raises ValueError for any other
    gid; [len(self)] is the length of the gid list and of the mask. *)
Theorem fresh_catalog_is_fully_available read_csv read_json table features
    p1 p2 p3 p4 p5 p6 tf :
  __init__ read_csv read_json table features p1 p2 p3 p4 p5 p6 = inr tf →
  (∀ g, is_Some (_features tf !! g) →
        check_availability g tf = Outcome (inr true) tf [])
  ∧ (∀ g, _features tf !! g = None →
          check_availability g tf = Outcome (inl ValueError) tf [])
  ∧ __len__ tf = length (_feature_gid_list tf)
  ∧ __len__ tf = length (_available_mask tf).
Proof.
  intros Hinit. destruct (init_wf _ _ _ _ _ _ _ _ _ _ _ Hinit) as [Hwf Hmask].
  split; [|split; [|by eapply init_len]].
  - intros g Hg.
    destruct (wf_check_availability tf g Hwf Hg) as (i & b & Hi & Hb & Hcheck).
    rewrite Forall_forall in Hmask.
    by rewrite Hcheck, (Hmask b (list_elem_of_lookup_2 _ _ _ Hb)).
  - intros g Hg. by apply check_availability_missing.
Qed.

Lemma fresh_catalog_is_fully_available_witness :
  ∃ tf, __init__ (λ _, inl ValueError) (λ _, inl ValueError)
          (TableFrame repeated_gid_table) None 14000 3667 0 0 0 (1 # 10) = inr tf
        ∧ check_availability 9 tf = Outcome (inr true) tf []
        ∧ check_availability 2 tf = Outcome (inl ValueError) tf []
        ∧ __len__ tf = 2%nat.
Proof.
  set (built := __init__ (λ _, inl ValueError) (λ _, inl ValueError)
                  (TableFrame repeated_gid_table) None 14000 3667 0 0 0 (1 # 10)).
  let r := eval vm_compute in built in
  match r with inr ?tf => exists tf; assert (built = inr tf) as Hinit
                                      by (vm_compute; reflexivity) end.
  subst built.
  destruct (fresh_catalog_is_fully_available _ _ _ _ _ _ _ _ _ _ _ Hinit)
    as (Hin & Hout & Hlen & _).
  split; [exact Hinit|]. split; [|split].
  - apply Hin. vm_compute. eexists. reflexivity.
  - apply Hout. vm_compute. reflexivity.
  - rewrite Hlen. vm_compute. reflexivity.
Defined.

(** X3.  On an object built from a DataFrame, [self[gid]] is the record of
    the first table row with that gid, and a [HandlerKeyError] naming the
    gid when the table has no such row; it succeeds exactly on the gids of
    the gid list. *)
Theorem getitem_returns_the_first_row read_csv read_json df p1 p2 p3 p4 p5 p6 tf g :
  __init__ read_csv read_json (TableFrame df) None p1 p2 p3 p4 p5 p6 = inr tf →
  __getitem__ g tf = match first_row g df with
                     | Some r => inr (feature_dict p6 r)
                     | None => inl (InvalidFeatureGid g)
                     end
  ∧ (is_Some (first_row g df) ↔ g ∈ _feature_gid_list tf).
Proof.
  intros Hinit. destruct (init_wf _ _ _ _ _ _ _ _ _ _ _ Hinit) as [Hwf _].
  apply init_frame_inv in Hinit as (Hfs & _).
  pose proof (features_from_table_first_row p6 df g) as Hg. rewrite <- Hfs in Hg.
  split.
  - unfold __getitem__. rewrite Hg. by destruct (first_row g df).
  - rewrite (wf_keys _ Hwf), Hg. by rewrite fmap_is_Some.
Qed.

Lemma getitem_returns_the_first_row_witness :
  ∃ tf, __init__ (λ _, inl ValueError) (λ _, inl ValueError)
          (TableFrame repeated_gid_table) None 14000 3667 0 0 0 (1 # 10) = inr tf
        ∧ __getitem__ 1 tf = inr (line (100 * (1 # 10)))
        ∧ __getitem__ 2 tf = inl (InvalidFeatureGid 2).
Proof.
  set (built := __init__ (λ _, inl ValueError) (λ _, inl ValueError)
                  (TableFrame repeated_gid_table) None 14000 3667 0 0 0 (1 # 10)).
  let r := eval vm_compute in built in
  match r with inr ?tf => exists tf; assert (built = inr tf) as Hinit
                                      by (vm_compute; reflexivity) end.
  subst built.
  split; [exact Hinit|]. split.
  - exact (proj1 (getitem_returns_the_first_row _ _ _ _ _ _ _ _ _ _ 1%Z Hinit)).
  - exact (proj1 (getitem_returns_the_first_row _ _ _ _ _ _ _ _ _ _ 2%Z Hinit)).
Defined.

(** X4.  On an object built from a DataFrame, the available capacity of a
    line or load center is [ac_cap] of the first row of its gid times the
    available fraction; a PCALoadCen has capacity [None]; a row of any
    other category but Substation gives a feature without ['avail_cap'],
    and asking for its capacity raises KeyError.  Nothing is changed and
    nothing is warned. *)
Theorem table_capacity_is_the_available_fraction read_csv read_json df
    p1 p2 p3 p4 p5 p6 tf g r ll :
  __init__ read_csv read_json (TableFrame df) None p1 p2 p3 p4 p5 p6 = inr tf →
  first_row g df = Some r →
  category r ≠ "Substation" →
  available_capacity g ll tf
  = Outcome (if String.eqb (category r) "TransLine"
                || String.eqb (category r) "LoadCen"
             then inr (Some (ac_cap r * p6))
             else if String.eqb (category r) "PCALoadCen" then inr None
             else inl KeyError) tf [].
Proof.
  intros Hinit Hr Hcat. apply init_frame_inv in Hinit as (Hfs & _).
  pose proof (features_from_table_first_row p6 df g) as Hg.
  rewrite <- Hfs, Hr in Hg. simpl in Hg.
  rewrite (available_capacity_simple tf g _ ll Hg);
    [|by rewrite feature_dict_type].
  unfold getitem_avail_cap, feature_dict.
  destruct (String.eqb_spec (category r) "TransLine") as [_|_]; [done|].
  destruct (String.eqb_spec (category r) "Substation") as [|_]; [done|].
  destruct (String.eqb_spec (category r) "LoadCen") as [_|_]; [done|].
  by destruct (String.eqb_spec (category r) "PCALoadCen").
Qed.

Lemma table_capacity_is_the_available_fraction_witness :
  ∃ tf, __init__ (λ _, inl ValueError) (λ _, inl ValueError)
          (TableFrame repeated_gid_table) None 14000 3667 0 0 0 (1 # 10) = inr tf
        ∧ available_capacity 1 false tf = Outcome (inr (Some (100 * (1 # 10)))) tf []
        ∧ available_capacity 9 false tf = Outcome (inr None) tf [].
Proof.
  set (built := __init__ (λ _, inl ValueError) (λ _, inl ValueError)
                  (TableFrame repeated_gid_table) None 14000 3667 0 0 0 (1 # 10)).
  let r := eval vm_compute in built in
  match r with inr ?tf => exists tf; assert (built = inr tf) as Hinit
                                      by (vm_compute; reflexivity) end.
  subst built.
  split; [exact Hinit|]. split.
  - pose proof (table_capacity_is_the_available_fraction _ _ _ _ _ _ _ _ _ _ 1%Z _
                  false Hinit eq_refl) as H.
    apply H. discriminate.
  - pose proof (table_capacity_is_the_available_fraction _ _ _ _ _ _ _ _ _ _ 9%Z _
                  false Hinit eq_refl) as H.
    apply H. discriminate.
Defined.

(** X5.  A PCALoadCen whose capacity is [None] is an unbounded sink: as
    long as its flag is set, [connect] accepts any capacity, with or
    without [apply], returns True, warns nothing and leaves the object as
    it was; so its cost is never the sentinel. *)
Theorem sink_accepts_any_capacity self g f i c apply ll :
  _features self !! g = Some f →
  f_type f = "PCALoadCen" →
  f_avail_cap f = Some None →
  index g (_feature_gid_list self) = Some i →
  _available_mask self !! i = Some true →
  connect g c apply ll self = Outcome (inr true) self []
  ∧ ∀ d tm, cost g d tm (Some c) ll self
            = Outcome (inr (Some (d * _line_cost self * tm + _sink_tie_in_cost self)))
                self [].
Proof.
  intros Hf Ht Ha Hi Hb.
  assert (∀ ll', available_capacity g ll' self = Outcome (inr None) self []) as Hav.
  { intros ll'. rewrite (available_capacity_simple self g f ll' Hf); [|by rewrite Ht].
    unfold getitem_avail_cap. by rewrite Ha. }
  assert (∀ apply', connect g c apply' ll self = Outcome (inr true) self []) as Hconn.
  { intros apply'. unfold connect.
    rewrite mbind_unfold, (bind_ret_left _ _ _ _ (check_availability_run _ _ _ _ Hi Hb)).
    rewrite mbind_unfold, (bind_ret_left _ _ _ _ (Hav ll)).
    destruct apply'; [|done].
    assert ((f ← features_getitem g;
             _ ← (if String.eqb (f_type f) "TransLine" then _connect g c
                  else if String.eqb (f_type f) "Substation" then
                    ls ← getitem_lines f; _connect_to_substation ls c ll
                  else if String.eqb (f_type f) "LoadCen" then _connect g c
                  else ret tt) : M unit;
             _update_availability g false) self = Outcome (inr tt) self []) as Hdone.
    { rewrite mbind_unfold, (bind_ret_left _ _ _ _ (features_getitem_Some _ _ _ Hf)).
      rewrite Ht. cbn [String.eqb Ascii.eqb Bool.eqb].
      rewrite mbind_unfold, (bind_ret_left (ret tt) _ self tt eq_refl).
      apply (_update_availability_unbounded _ _ _ (Hav false)). }
    by rewrite mbind_unfold, (bind_ret_left _ _ _ _ Hdone). }
  split; [apply Hconn|]. intros d tm.
  rewrite (cost_outcome self g f d tm (Some c) ll Hf). cbn zeta.
  rewrite Hconn. cbn [result warned].
  unfold tie_in_cost, known_type, _calc_cost. by rewrite Ht.
Qed.

Lemma sink_accepts_any_capacity_witness :
  connect 9 1000000 true false assorted_catalog
  = Outcome (inr true) assorted_catalog []
  ∧ cost 9 4 2 (Some 1000000) false assorted_catalog
    = Outcome (inr (Some (4 * _line_cost assorted_catalog * 2
                          + _sink_tie_in_cost assorted_catalog)))
        assorted_catalog [].
Proof.
  destruct (sink_accepts_any_capacity assorted_catalog 9%Z sink 2%nat 1000000
              true false) as [Hconnect Hcost].
  - reflexivity.
  - reflexivity.
  - reflexivity.
  - reflexivity.
  - reflexivity.
  - split; [exact Hconnect | apply Hcost].
Defined.

(** X6.  A gid that is not in the catalog is rejected with the error of
    the first lookup the method makes: [connect] and [check_availability]
    raise ValueError (the gid list is searched first),
    [available_capacity], [_update_availability], [_connect] and [cost]
    raise KeyError, [self[gid]] raises HandlerKeyError.  None of them
    changes the object or warns. *)
Theorem unknown_gid_is_rejected self g :
  wf_state self →
  _features self !! g = None →
  (∀ c apply ll, connect g c apply ll self = Outcome (inl ValueError) self [])
  ∧ check_availability g self = Outcome (inl ValueError) self []
  ∧ (∀ ll, available_capacity g ll self = Outcome (inl KeyError) self [])
  ∧ (∀ ll, _update_availability g ll self = Outcome (inl KeyError) self [])
  ∧ (∀ c, _connect g c self = Outcome (inl KeyError) self [])
  ∧ (∀ d tm capacity ll, cost g d tm capacity ll self = Outcome (inl KeyError) self [])
  ∧ __getitem__ g self = inl (InvalidFeatureGid g).
Proof.
  intros Hwf Hg.
  pose proof (check_availability_missing self g Hwf Hg) as Hcheck.
  assert (features_getitem g self = Outcome (inl KeyError) self []) as Hget.
  { unfold features_getitem. by rewrite Hg. }
  split; [|split; [done|]].
  { intros c apply ll. unfold connect. rewrite mbind_unfold. unfold bind.
    by rewrite Hcheck. }
  split; [intros ll; by apply available_capacity_missing|].
  split.
  { intros ll. unfold _update_availability. rewrite mbind_unfold. unfold bind.
    by rewrite (available_capacity_missing self g ll Hg). }
  split.
  { intros c. unfold _connect. rewrite mbind_unfold. unfold bind. by rewrite Hget. }
  split.
  { intros d tm capacity ll. unfold cost. rewrite mbind_unfold. unfold bind.
    by rewrite Hget. }
  unfold __getitem__. by rewrite Hg.
Qed.

Lemma unknown_gid_is_rejected_witness :
  connect 4 1 true false two_line_station
  = Outcome (inl ValueError) two_line_station []
  ∧ cost 4 10 1 None false two_line_station
    = Outcome (inl KeyError) two_line_station []
  ∧ __getitem__ 4 two_line_station = inl (InvalidFeatureGid 4).
Proof.
  destruct (unknown_gid_is_rejected two_line_station 4%Z)
    as (Hconnect & _ & _ & _ & _ & Hcost & Hitem).
  - apply catalog_wf. apply (bool_decide_unpack (NoDup [1%Z; 2%Z; 7%Z])).
    vm_compute. exact I.
  - reflexivity.
  - split; [apply Hconnect|]. split; [apply Hcost | exact Hitem].
Defined.

(** X7.  Without a capacity, [cost] never fails on a gid of the catalog
    and never changes the object.  For the four feature types it knows it
    warns nothing; for any other type it charges no tie-in cost and emits
    exactly one warning, which names the type. *)
Theorem cost_warns_only_on_unknown_types self g f d tm ll :
  _features self !! g = Some f →
  let known := ["TransLine"; "Substation"; "LoadCen"; "PCALoadCen"] in
  (f_type f ∈ known →
   cost g d tm None ll self
   = Outcome (inr (Some (d * _line_cost self * tm + tie_in_cost self (f_type f))))
       self [])
  ∧ (f_type f ∉ known →
     cost g d tm None ll self
     = Outcome (inr (Some (d * _line_cost self * tm + 0))) self
         [UnknownFeatureType (f_type f)]).
Proof.
  intros Hf known. rewrite (cost_outcome self g f d tm None ll Hf). cbn zeta.
  assert (f_type f ∈ known ↔ known_type (f_type f) = true) as Hknown.
  { rewrite known_type_spec. unfold known.
    rewrite !elem_of_cons, elem_of_nil. tauto. }
  split.
  - intros Hin. apply Hknown in Hin. by rewrite Hin.
  - intros Hout. destruct (known_type (f_type f)) eqn:Hk.
    + exfalso. by apply Hout, Hknown.
    + unfold _calc_cost, tie_in_cost. unfold known_type in Hk.
      apply orb_false_iff in Hk as [Hk ->].
      apply orb_false_iff in Hk as [Hk ->].
      apply orb_false_iff in Hk as [-> ->]. done.
Qed.

Lemma cost_warns_only_on_unknown_types_witness :
  cost 1 10 1 None false assorted_catalog
  = Outcome (inr (Some (10 * _line_cost assorted_catalog * 1
                        + tie_in_cost assorted_catalog "TransLine")))
      assorted_catalog []
  ∧ cost 11 10 1 None false assorted_catalog
    = Outcome (inr (Some (10 * _line_cost assorted_catalog * 1 + 0)))
        assorted_catalog [UnknownFeatureType "Tower"].
Proof.
  split.
  - apply (proj1 (cost_warns_only_on_unknown_types assorted_catalog 1%Z (line 10)
                    10 1 false eq_refl)).
    apply (bool_decide_unpack _). vm_compute. exact I.
  - apply (proj2 (cost_warns_only_on_unknown_types assorted_catalog 11%Z
                    (Feature "Tower" None None) 10 1 false eq_refl)).
    apply (bool_decide_unpack _). vm_compute. exact I.
Defined.

(** X8.  Whatever the arguments and whatever the outcome (a result or an
    exception half-way through), [connect] leaves the cost parameters and
    the gid list alone, adds and removes no feature, changes no type and
    no member list (a capacity only from a number to a number), keeps the
    length of the mask and never sets a flag back to True. *)
Theorem connect_keeps_the_shape_of_the_catalog self g c apply ll :
  let self' := self_after (connect g c apply ll self) in
  same_settings self self'
  ∧ same_records (_features self) (_features self')
  ∧ flags_only_cleared (_available_mask self) (_available_mask self').
Proof.
  intros self'.
  destruct (connect_trace self g c apply ll _ _ (runs_intro _ _))
    as (rs & fs' & mask' & Hself' & Hres & Hmask).
  fold self' in Hself'. rewrite Hself'. simpl.
  split; [by repeat split|]. split.
  - intros g'. apply (reserved_shape _ _ _ Hres).
  - destruct Hmask as [->|(i & _ & ->)].
    + by split.
    + apply flags_only_cleared_insert.
Qed.

(** X9.  Once the flag of a feature is cleared the feature is closed for
    good: after any further [connect] calls, on any gids, with any
    arguments, failed or not, a [connect] to it returns False, warns
    nothing and leaves the object as it is. *)
Theorem cleared_feature_stays_rejected self g calls c apply ll :
  result (check_availability g self) = inr false →
  let self' := run_calls calls self in
  connect g c apply ll self' = Outcome (inr false) self' [].
Proof.
  intros Hflag self'.
  pose proof (run_calls_evolves calls self) as Hev. fold self' in Hev.
  pose proof (flag_false_stays self self' g Hev Hflag) as Hflag'.
  apply check_availability_inv in Hflag' as (i & Hi & Hb).
  unfold connect.
  by rewrite mbind_unfold, (bind_ret_left _ _ _ _ (check_availability_run _ _ _ _ Hi Hb)).
Qed.

Lemma cleared_feature_stays_rejected_witness :
  let self := run_calls [(2%Z, 3, false)] two_line_station in
  let self' := run_calls [(7%Z, 1, false); (2%Z, -5, true)] self in
  result (check_availability 2 self) = inr false
  ∧ connect 2 0 true false self' = Outcome (inr false) self' [].
Proof.
  split.
  - vm_compute. reflexivity.
  - apply (cleared_feature_stays_rejected
             (run_calls [(2%Z, 3, false)] two_line_station) 2%Z
             [(7%Z, 1, false); (2%Z, -5, true)] 0 true false).
    vm_compute. reflexivity.
Defined.

(** X10.  The line limit can only lower a capacity: whenever
    [available_capacity] returns a number without the limit, it returns a
    number that is not larger with it, and it fails, or returns [None],
    in one mode exactly as in the other.  Hence a request that the probe
    [connect(apply=False)] accepts under the limit is accepted without
    it. *)
Theorem line_limit_only_lowers_capacity self g :
  match result (available_capacity g false self) with
  | inl e => result (available_capacity g true self) = inl e
  | inr None => result (available_capacity g true self) = inr None
  | inr (Some vu) =>
      ∃ vl, result (available_capacity g true self) = inr (Some vl) ∧ vl <= vu
  end
  ∧ ∀ c, result (connect g c false true self) = inr true →
         result (connect g c false false self) = inr true.
Proof.
  pose proof (available_capacity_modes self g) as Hmodes.
  split; [exact Hmodes|].
  intros c. rewrite !connect_probe_result.
  destruct (result (check_availability g self)) as [e|[|]]; [done| |done].
  destruct (result (available_capacity g false self)) as [e|[vu|]].
  - by rewrite Hmodes.
  - destruct Hmodes as (vl & -> & Hle). unfold Qltb.
    destruct (Qlt_le_dec vl c) as [|Hc]; [done|]. intros _.
    destruct (Qlt_le_dec vu c) as [Hlt|]; [|done].
    exfalso. apply (Qlt_not_le _ _ Hlt). by apply (Qle_trans _ vl).
  - done.
Qed.

Lemma line_limit_only_lowers_capacity_witness :
  result (available_capacity 7 true three_line_station) = inr (Some 3)
  ∧ result (available_capacity 7 false three_line_station) = inr (Some ((3 + (3 + (3 + 0))) / 2))
  ∧ result (connect 7 3 false false three_line_station) = inr true.
Proof.
  split; [vm_compute; reflexivity|]. split; [vm_compute; reflexivity|].
  apply (proj2 (line_limit_only_lowers_capacity three_line_station 7%Z) 3).
  vm_compute. reflexivity.
Defined.

(** X11.  In line-limited mode a substation connection that is reported
    feasible puts the whole request on one member: the first gid of the
    member list that holds the largest stored capacity.  That record
    loses the request, and no other record changes. *)
Theorem line_limited_connect_uses_the_largest_line self g f ls c self' :
  _features self !! g = Some f →
  f_type f = "Substation" →
  f_lines f = Some ls →
  runs (connect g c true true) self (inr true) self' →
  ∃ pos l fl q,
    ls !! pos = Some l
    ∧ _features self !! l = Some fl
    ∧ f_avail_cap fl = Some (Some q)
    ∧ Forall (λ l', cap_of (_features self) l' <= q) ls
    ∧ (∀ j l', (j < pos)%nat → ls !! j = Some l' → cap_of (_features self) l' < q)
    ∧ c <= q
    ∧ _features self' = <[l := set_avail_cap fl (q - c)]> (_features self).
Proof.
  intros Hf Ht Hls Hrun.
  destruct (connect_station_inv self g f ls c true self' Hf Ht Hls Hrun)
    as (s1 & Hsub & Hfs).
  destruct (_connect_to_substation_ll_inv ls c self s1 Hsub)
    as (pos & l & fl & q & Hl & Hfl & Hq & Hall & Hfirst & Hle & ->).
  exists pos, l, fl, q. by rewrite Hfs.
Qed.

Lemma line_limited_connect_uses_the_largest_line_witness :
  let self := three_line_station in
  let self' := self_after (connect 7 2 true true self) in
  ∃ pos l fl q,
    [1%Z; 2%Z; 3%Z] !! pos = Some l
    ∧ _features self !! l = Some fl
    ∧ f_avail_cap fl = Some (Some q)
    ∧ Forall (λ l', cap_of (_features self) l' <= q) [1%Z; 2%Z; 3%Z]
    ∧ (∀ j l', (j < pos)%nat → [1%Z; 2%Z; 3%Z] !! j = Some l' →
               cap_of (_features self) l' < q)
    ∧ 2 <= q
    ∧ _features self' = <[l := set_avail_cap fl (q - 2)]> (_features self).
Proof.
  apply (line_limited_connect_uses_the_largest_line three_line_station 7%Z
           (station [1%Z; 2%Z; 3%Z]) [1%Z; 2%Z; 3%Z] 2).
  - reflexivity.
  - reflexivity.
  - reflexivity.
  - split; vm_compute; reflexivity.
Defined.

(** X12.  On a well-formed object, a line-limited [connect] to a
    substation with at least one member, all members lines with
    non-negative capacities, never raises: it returns what the probe
    [connect(apply=False)] returns.  The feasibility check, min(half the
    sum, largest line), keeps the request within the line that serves
    it. *)
Theorem line_limited_connect_never_raises self g f ls c :
  wf_state self →
  _features self !! g = Some f →
  f_type f = "Substation" →
  f_lines f = Some ls →
  ls ≠ [] →
  Forall (is_line (_features self)) ls →
  Forall (λ l, 0 <= cap_of (_features self) l) ls →
  ∃ b, result (connect g c true true self) = inr b
       ∧ result (connect g c false true self) = inr b.
Proof.
  intros Hwf Hf Ht Hls Hne Hlines Hpos.
  destruct (wf_check_availability self g Hwf) as (i & b & Hi & Hb & Hcheck); [eauto|].
  destruct (_substation_capacity_run self ls true (lines_resolve _ _ Hlines))
    as (v & Hcap & Hv).
  destruct (lines_member_caps _ _ Hlines) as [Hcaps Hw].
  rewrite Hw in Hcap. cbn zeta in Hv. rewrite Hcaps in Hv.
  pose proof (available_capacity_station self g f ls true v [] Hf Ht Hls Hcap) as Hav.
  exists (b && negb (Qltb v c)). split.
  2:{ rewrite connect_probe_result, Hcheck, Hav. simpl. by destruct b. }
  rewrite connect_unfold, bind_result, Hcheck. cbn [result self_after].
  destruct b; [|done].
  rewrite bind_result, Hav. cbn [result self_after].
  destruct (Qltb v c) eqn:Hvc; [done|].
  assert (c <= v) as Hcv.
  { unfold Qltb in Hvc. by destruct (Qlt_le_dec v c). }
  rewrite bind_result, (connect_apply_station _ _ _ _ _ _ Hf Ht Hls), bind_result.
  destruct (_connect_to_substation_ll_ok ls c self Hne Hlines)
    as (l & fl & q & Hin & Hfl & Hq & Hcq & [Hres Hafter]).
  { intros m Hall (l & Hl & Hm).
    destruct Hv as [[Hnil _] | (m' & [Hm' _] & Hmin)].
    - by apply Forall_fmap.
    - apply fmap_nil_inv in Hnil. done.
    - apply list_elem_of_fmap in Hm' as (l' & -> & Hl').
      rewrite Forall_forall in Hall.
      pose proof (Hall l' Hl') as Hle.
      pose proof (Q.le_min_r (Qsum (cap_of (_features self) <$> ls) / 2)
                    (cap_of (_features self) l')) as Hr.
      apply (Qle_trans _ v); [done|]. rewrite Hmin. by apply (Qle_trans _ _ _ Hr). }
  rewrite Hres, Hafter.
  set (s1 := with_features self (<[l := set_avail_cap fl (q - c)]> (_features self))).
  rewrite Forall_forall in Hlines.
  destruct (Hlines l Hin) as (fl' & a & Hfl' & Htype & _).
  assert (fl' = fl) as -> by congruence.
  assert (l ≠ g) as Hlg.
  { intros ->. rewrite Hf in Hfl. injection Hfl as <-. by rewrite Ht in Htype. }
  assert (reserved (_features self) [(l, c)] (_features s1)) as Hreserved.
  { by apply reserved_one. }
  destruct (station_capacity s1 g f ls) as (v' & Hav' & _); [|done|done| |].
  { simpl. by rewrite lookup_insert_ne. }
  { apply Forall_forall. intros l' Hl'. eapply reserved_is_line; [exact Hreserved|].
    by apply Hlines. }
  destruct (_update_availability_run s1 g false (Some v') i) as [Hupd _].
  { by rewrite Hav'. }
  { done. }
  { by apply lookup_lt_Some in Hb. }
  by rewrite Hupd.
Qed.

Lemma line_limited_connect_never_raises_witness :
  result (connect 7 2 true true three_line_station) = inr true
  ∧ result (connect 7 2 false true three_line_station) = inr true
  ∧ cap_of (_features (self_after (connect 7 2 true true three_line_station))) 1 == 1.
Proof.
  destruct (line_limited_connect_never_raises three_line_station 7%Z
              (station [1%Z; 2%Z; 3%Z]) [1%Z; 2%Z; 3%Z] 2) as (b & Happly & Hprobe).
  - apply catalog_wf. apply (bool_decide_unpack (NoDup [1%Z; 2%Z; 3%Z; 7%Z])).
    vm_compute. exact I.
  - reflexivity.
  - reflexivity.
  - reflexivity.
  - discriminate.
  - repeat constructor.
    + by exists (line 3), 3.
    + by exists (line 3), 3.
    + by exists (line 3), 3.
  - repeat constructor; vm_compute; discriminate.
  - assert (b = true) as ->.
    { vm_compute in Hprobe. by injection Hprobe as <-. }
    split; [exact Happly|]. split; [exact Hprobe|]. reflexivity.
Defined.

(** X13.  A substation connection without the line limit that is reported
    feasible, on a substation with distinct member gids none of which
    holds a negative capacity, fills the members in play (those with a
    stored capacity other than zero) to a common level [x]: a member
    whose capacity is below [x] gives all of it, every other member gives
    exactly [x], the amounts add up to the request, and no other record
    changes. *)
Theorem substation_spreading_fills_to_a_common_level self g f ls c self' :
  _features self !! g = Some f →
  f_type f = "Substation" →
  f_lines f = Some ls →
  NoDup ls →
  Forall (λ l, 0 <= cap_of (_features self) l) ls →
  runs (connect g c true false) self (inr true) self' →
  ∃ x,
    Qsum ((λ p, Qmin p.2 x) <$> in_play (_features self) ls) == c
    ∧ (∀ l a, (l, a) ∈ in_play (_features self) ls →
         cap_of (_features self') l == a - Qmin a x)
    ∧ (∀ g', g' ∉ (in_play (_features self) ls).*1 →
         _features self' !! g' = _features self !! g').
Proof.
  intros Hf Ht Hls Hnd Hpos Hrun.
  destruct (connect_station_inv self g f ls c false self' Hf Ht Hls Hrun)
    as (s1 & Hsub & Hfs).
  destruct (_connect_to_substation_levels ls c self s1 Hnd Hsub)
    as (x & Hsum & Hgive & Hrest & _).
  exists x. rewrite Hfs. done.
Qed.

Lemma substation_spreading_fills_to_a_common_level_witness :
  let self := two_line_station in
  let self' := self_after (connect 7 (13 # 2) true false self) in
  ∃ x,
    Qsum ((λ p, Qmin p.2 x) <$> in_play (_features self) [1%Z; 2%Z]) == 13 # 2
    ∧ (∀ l a, (l, a) ∈ in_play (_features self) [1%Z; 2%Z] →
         cap_of (_features self') l == a - Qmin a x)
    ∧ (∀ g', g' ∉ (in_play (_features self) [1%Z; 2%Z]).*1 →
         _features self' !! g' = _features self !! g').
Proof.
  apply (substation_spreading_fills_to_a_common_level two_line_station 7%Z
           (station [1%Z; 2%Z]) [1%Z; 2%Z] (13 # 2)).
  - reflexivity.
  - reflexivity.
  - reflexivity.
  - apply (bool_decide_unpack (NoDup [1%Z; 2%Z])). vm_compute. exact I.
  - repeat constructor; vm_compute; discriminate.
  - split; vm_compute; reflexivity.
Defined.

(** X15.  A table given as a path is read by its suffix: a path that ends
    in .csv goes to [pd.read_csv], one that ends in .json to
    [pd.read_json], and any other path is refused with ValueError before
    a file is touched, so that the constructor fails with ValueError when
    no features are given. *)
Theorem table_paths_are_read_by_suffix read_csv read_json path :
  ((∃ p, path = p +:+ ".csv") →
   _parse_table read_csv read_json (TablePath path) = read_csv path)
  ∧ ((∃ p, path = p +:+ ".json") →
     _parse_table read_csv read_json (TablePath path) = read_json path)
  ∧ ((¬ ∃ p, path = p +:+ ".csv") → (¬ ∃ p, path = p +:+ ".json") →
     _parse_table read_csv read_json (TablePath path) = inl ValueError
     ∧ ∀ p1 p2 p3 p4 p5 p6,
         __init__ read_csv read_json (TablePath path) None p1 p2 p3 p4 p5 p6
         = inl ValueError).
Proof.
  split; [|split].
  - intros Hcsv. apply endswith_spec in Hcsv. cbn [_parse_table]. by rewrite Hcsv.
  - intros [p ->]. cbn [_parse_table]. rewrite json_is_not_csv.
    assert (endswith (p +:+ ".json") ".json" = true) as ->; [|done].
    apply endswith_spec. by exists p.
  - intros Hcsv Hjson.
    assert (endswith path ".csv" = false) as Hc.
    { apply not_true_is_false. by rewrite endswith_spec. }
    assert (endswith path ".json" = false) as Hj.
    { apply not_true_is_false. by rewrite endswith_spec. }
    split.
    + cbn [_parse_table]. by rewrite Hc, Hj.
    + intros p1 p2 p3 p4 p5 p6. unfold __init__, _get_features.
      cbn [_parse_table]. by rewrite Hc, Hj.
Qed.

Lemma table_paths_are_read_by_suffix_witness :
  let read_csv := λ _ : string, inr one_line_table in
  let read_json := λ _ : string, inr repeated_gid_table in
  _parse_table read_csv read_json (TablePath "tables/lines.csv") = inr one_line_table
  ∧ _parse_table read_csv read_json (TablePath "lines.csv.json") = inr repeated_gid_table
  ∧ _parse_table read_csv read_json (TablePath "lines.csv.bak") = inl ValueError.
Proof.
  intros read_csv read_json. split; [|split].
  - apply (proj1 (table_paths_are_read_by_suffix read_csv read_json "tables/lines.csv")).
    by exists "tables/lines".
  - apply (proj1 (proj2 (table_paths_are_read_by_suffix read_csv read_json
                           "lines.csv.json"))).
    by exists "lines.csv".
  - apply (proj2 (proj2 (table_paths_are_read_by_suffix read_csv read_json
                           "lines.csv.bak"))).
    + intros Hp. apply endswith_spec in Hp. vm_compute in Hp. discriminate.
    + intros Hp. apply endswith_spec in Hp. vm_compute in Hp. discriminate.
Defined.



(** X17.  The capacity of a line is shared with every substation that
    lists it: a feasible [connect] of [c] to a member line of a substation
    over distinct lines lowers the available capacity of the substation by
    [c / 2]. *)
Theorem line_connect_lowers_its_substation self g f ls l c ll self' :
  _features self !! g = Some f →
  f_type f = "Substation" →
  f_lines f = Some ls →
  NoDup ls →
  Forall (is_line (_features self)) ls →
  l ∈ ls →
  runs (connect l c true ll) self (inr true) self' →
  ∃ v v',
    result (available_capacity g false self) = inr (Some v)
    ∧ result (available_capacity g false self') = inr (Some v')
    ∧ v' == v - c / 2.
Proof.
  intros Hf Ht Hls Hnd Hlines Hl Hrun.
  pose proof Hlines as Hall. rewrite Forall_forall in Hall.
  destruct (Hall l Hl) as (fl & a & Hfl & Htl & Ha).
  destruct (connect_simple_inv self l fl c ll self' Hfl (or_introl Htl) Hrun)
    as (a' & Ha' & Hle & Hfs).
  assert (reserved (_features self) [(l, c)] (_features self')) as Hres.
  { rewrite Hfs. by apply reserved_one. }
  destruct (station_capacity_after_trace self g f ls [(l, c)] self'
              Hf Ht Hls Hnd Hlines Hres) as (v & v' & Hv & Hv' & Hdrop).
  { intros l' Hl'. apply list_elem_of_singleton in Hl'. by subst. }
  exists v, v'. rewrite Hv, Hv'. split; [done|]. split; [done|].
  change (Qsum [(l, c)].*2) with (c + 0) in Hdrop.
  rewrite Hdrop, !half_eq. lra.
Qed.

Lemma line_connect_lowers_its_substation_witness :
  let self := two_line_station in
  let self' := self_after (connect 1 4 true false self) in
  ∃ v v',
    result (available_capacity 7 false self) = inr (Some v)
    ∧ result (available_capacity 7 false self') = inr (Some v')
    ∧ v' == v - 4 / 2.
Proof.
  apply (line_connect_lowers_its_substation two_line_station 7%Z
           (station [1%Z; 2%Z]) [1%Z; 2%Z] 1%Z 4 false).
  - reflexivity.
  - reflexivity.
  - reflexivity.
  - apply (bool_decide_unpack (NoDup [1%Z; 2%Z])). vm_compute. exact I.
  - repeat constructor.
    + by exists (line 10), 10.
    + by exists (line 3), 3.
  - apply (bool_decide_unpack _). vm_compute. exact I.
  - split; vm_compute; reflexivity.
Defined.


(** X19.  On a well-formed object whose stored capacities are not
    negative and whose substations list distinct TransLines, the probe
    predicts the call: without the line limit,
    [connect(gid, c, apply=True)] returns, or raises, exactly what
    [connect(gid, c, apply=False)] does, for every gid and every
    capacity, provided a line or load center does not hold [None] and a
    substation has a member with capacity left.  A request that passed
    the probe is never refused half-way. *)
Theorem probe_predicts_connect self g c :
  wf_state self →
  (∀ g' f, _features self !! g' = Some f → feature_ok (_features self) f) →
  (∀ f, _features self !! g = Some f → simple_type (f_type f) →
        f_avail_cap f ≠ Some None) →
  (∀ f ls, _features self !! g = Some f → f_type f = "Substation" →
           f_lines f = Some ls →
           ∃ l, l ∈ ls ∧ ¬ cap_of (_features self) l == 0) →
  result (connect g c true false self) = result (connect g c false false self).
Proof.
  intros Hwf Hfeat Hnum Hplay.
  destruct (_features self !! g) as [f|] eqn:Hf.
  2:{ by rewrite !(connect_missing self g c _ false Hwf Hf). }
  destruct (wf_check_availability self g Hwf) as (i & b & Hi & Hb & Hcheck); [eauto|].
  assert (i < length (_available_mask self))%nat as Hlt by (by eapply lookup_lt_Some).
  rewrite connect_probe_result, Hcheck. cbn [result].
  destruct b; [|by rewrite (connect_unavailable self g c true false i Hi Hb)].
  destruct (result (available_capacity g false self)) as [e|v] eqn:Hv.
  { rewrite connect_unfold, bind_result, Hcheck. cbn [result self_after].
    by rewrite bind_result, Hv. }
  destruct (match v with Some a => Qltb a c | None => false end) eqn:Hfeas.
  { rewrite connect_unfold, bind_result, Hcheck. cbn [result self_after].
    rewrite bind_result, Hv, (read_only_available_capacity g false self), Hfeas.
    destruct v as [a|]; [|done]. by rewrite Hfeas. }
  rewrite (connect_result_apply self g f c false i v Hf Hi Hb Hv Hfeas).
  assert (match v with Some a => inr (negb (Qltb a c)) | None => inr true end
          = (inr true : exn + bool)) as ->.
  { destruct v as [a|]; [|done]. by rewrite Hfeas. }
  destruct (decide (simple_type (f_type f))) as [Hs|Hs].
  - pose proof (simple_type_not_station _ Hs) as Hns.
    rewrite (available_capacity_simple self g f false Hf Hns) in Hv.
    unfold getitem_avail_cap in Hv.
    destruct (f_avail_cap f) as [v'|] eqn:Ha; [|done]. injection Hv as ->.
    destruct v as [a|]; [|by destruct (Hnum f eq_refl Hs)].
    assert (c <= a) as Hle.
    { unfold Qltb in Hfeas. by destruct (Qlt_le_dec a c). }
    destruct (reserve_on_simple self g f a c false Hf Hs Ha Hle) as [-> ->].
    set (s1 := with_features self (<[g := set_avail_cap f (a - c)]> (_features self))).
    assert (result (available_capacity g false s1) = inr (Some (a - c))) as Hav.
    { rewrite (available_capacity_number s1 g (set_avail_cap f (a - c)) (a - c));
        [done| |done|done].
      simpl. apply lookup_insert_eq. }
    by destruct (_update_availability_run s1 g false _ i Hav Hi Hlt) as [-> _].
  - destruct (decide (f_type f = "Substation")) as [Hst|Hns].
    + destruct (Hfeat g f Hf) as [_ Hmembers].
      destruct (Hmembers Hst) as (ls & Hls & Hnd & Hlines).
      destruct (station_capacity self g f ls Hf Hst Hls Hlines) as (v0 & Hv0 & Hhalf).
      rewrite Hv0 in Hv. injection Hv as <-.
      assert (c <= v0) as Hle.
      { unfold Qltb in Hfeas. by destruct (Qlt_le_dec v0 c). }
      destruct (Hplay f ls eq_refl Hst Hls) as (l & Hl & Hcap).
      pose proof (caps_nonneg _ Hfeat) as Hpos.
      destruct (spread_feasible self ls c (lines_keys _ _ Hlines) Hnd)
        as (s1 & _ & Hrun).
      { rewrite in_play_sum. pose proof (total_nonneg (_features self) ls) as Htot.
        rewrite half_eq in Hhalf.
        assert (0 <= total (_features self) ls).
        { apply Htot. apply Forall_forall. intros l' _. apply Hpos. }
        lra. }
      { by eapply in_play_nonempty. }
      rewrite (reserve_on_station self g f ls c false Hst Hls).
      destruct (_connect_to_substation_general _ _ _ _ Hrun)
        as (rs & fs' & -> & Hres & _).
      destruct Hrun as [-> ->].
      by rewrite (update_after_station_trace self g f ls rs fs' i Hf Hst Hls Hlines
                    Hres Hi Hlt).
    + rewrite (reserve_on_other self g f c false Hs Hns). cbn [result self_after].
      by destruct (_update_availability_run self g false v i Hv Hi Hlt) as [-> _].
Qed.

Lemma probe_predicts_connect_witness :
  result (connect 7 (13 # 2) true false two_line_station)
  = result (connect 7 (13 # 2) false false two_line_station).
Proof.
  assert (catalog_ok two_line_station) as Hok.
  { apply catalog_ok_catalog.
    - apply (bool_decide_unpack (NoDup [1%Z; 2%Z; 7%Z])). vm_compute. exact I.
    - repeat constructor; simpl.
      + intros a [= <-]. vm_compute. discriminate.
      + intros H. discriminate H.
      + intros a [= <-]. vm_compute. discriminate.
      + intros H. discriminate H.
      + intros a H. discriminate H.
      + intros _. exists [1%Z; 2%Z]. split; [reflexivity|]. split.
        * apply (bool_decide_unpack (NoDup [1%Z; 2%Z])). vm_compute. exact I.
        * repeat constructor.
          -- by exists (line 10), 10.
          -- by exists (line 3), 3. }
  apply probe_predicts_connect.
  - apply (ok_wf _ Hok).
  - apply (ok_features _ Hok).
  - intros f [= <-] [H|H]; discriminate H.
  - intros f ls [= <-] _ [= <-]. exists 1%Z. split.
    + apply (bool_decide_unpack _). vm_compute. exact I.
    + vm_compute. discriminate.
Defined.

(** X20.  Capacity is consumed and never returned: starting from a
    well-formed catalog, after any sequence of [connect] calls with
    [apply] and non-negative requests, with or without the line limit,
    feasible or not, the stored capacity of every feature is at most what
    it was and is not negative. *)
Theorem capacity_is_only_consumed self calls :
  catalog_ok self →
  Forall (λ call, 0 <= call.1.2) calls →
  ∀ g, 0 <= cap_of (_features (run_calls calls self)) g
       ∧ cap_of (_features (run_calls calls self)) g <= cap_of (_features self) g.
Proof.
  intros Hok Hcalls g. split.
  { destruct (run_calls_preserves calls self Hok Hcalls) as [Hok' _].
    apply (caps_nonneg _ (ok_features _ Hok')). }
  revert self Hok. induction Hcalls as [|[[g0 c] ll] calls Hc _ IH]; intros self Hok.
  - apply Qle_refl.
  - cbn [run_calls]. simpl in Hc.
    destruct (connect_preserves self g0 c ll Hok Hc) as [Hok1 _].
    eapply Qle_trans; [apply (IH _ Hok1)|]. by apply connect_consumes.
Qed.

Lemma capacity_is_only_consumed_witness :
  let self' := run_calls [(7%Z, 13 # 2, false); (1%Z, 1, true)] two_line_station in
  0 <= cap_of (_features self') 1
  ∧ cap_of (_features self') 1 <= cap_of (_features two_line_station) 1.
Proof.
  apply (capacity_is_only_consumed two_line_station
           [(7%Z, 13 # 2, false); (1%Z, 1, true)]).
  - apply catalog_ok_catalog.
    + apply (bool_decide_unpack (NoDup [1%Z; 2%Z; 7%Z])). vm_compute. exact I.
    + repeat constructor; simpl.
      * intros a [= <-]. vm_compute. discriminate.
      * intros H. discriminate H.
      * intros a [= <-]. vm_compute. discriminate.
      * intros H. discriminate H.
      * intros a H. discriminate H.
      * intros _. exists [1%Z; 2%Z]. split; [reflexivity|]. split.
        -- apply (bool_decide_unpack (NoDup [1%Z; 2%Z])). vm_compute. exact I.
        -- repeat constructor.
           ++ by exists (line 10), 10.
           ++ by exists (line 3), 3.
  - repeat constructor; vm_compute; discriminate.
Defined.

(** X21.  Connections to two different lines or load centers do not see
    each other: the second call returns what it would have returned on
    the untouched object, and making the two calls in either order leaves
    the same object. *)
Theorem connections_to_different_features_commute self
    g1 f1 a1 c1 ll1 g2 f2 a2 c2 ll2 :
  wf_state self →
  g1 ≠ g2 →
  _features self !! g1 = Some f1 → simple_type (f_type f1) →
  f_avail_cap f1 = Some (Some a1) →
  _features self !! g2 = Some f2 → simple_type (f_type f2) →
  f_avail_cap f2 = Some (Some a2) →
  result (connect g2 c2 true ll2 (self_after (connect g1 c1 true ll1 self)))
  = result (connect g2 c2 true ll2 self)
  ∧ run_calls [(g1, c1, ll1); (g2, c2, ll2)] self
    = run_calls [(g2, c2, ll2); (g1, c1, ll1)] self.
Proof.
  intros Hwf Hg Hf1 Ht1 Ha1 Hf2 Ht2 Ha2.
  destruct (wf_check_availability self g1 Hwf) as (i1 & b1 & Hi1 & Hb1 & _); [eauto|].
  destruct (wf_check_availability self g2 Hwf) as (i2 & b2 & Hi2 & Hb2 & _); [eauto|].
  assert (i1 ≠ i2) as Hi.
  { intros ->. apply index_lookup in Hi1, Hi2. congruence. }
  pose proof (connect_simple_run self g1 f1 a1 c1 ll1 i1 b1 Hf1 Ht1 Ha1 Hi1 Hb1)
    as [Hr1 Hs1].
  pose proof (connect_simple_run self g2 f2 a2 c2 ll2 i2 b2 Hf2 Ht2 Ha2 Hi2 Hb2)
    as [Hr2 Hs2].
  set (r1 := b1 && negb (Qltb a1 c1)) in *. set (r2 := b2 && negb (Qltb a2 c2)) in *.
  assert (∀ s g f a c i g' f' a' c' ll' i' b',
            g ≠ g' → i ≠ i' →
            _features s !! g' = Some f' → simple_type (f_type f') →
            f_avail_cap f' = Some (Some a') →
            index g' (_feature_gid_list s) = Some i' →
            _available_mask s !! i' = Some b' →
            ∀ r : bool,
              runs (connect g' c' true ll')
                (if r then after_simple_connect s g f a c i else s)
                (inr (b' && negb (Qltb a' c')))
                (if b' && negb (Qltb a' c')
                 then after_simple_connect
                        (if r then after_simple_connect s g f a c i else s) g' f' a' c' i'
                 else if r then after_simple_connect s g f a c i else s)) as Hsecond.
  { intros s g f a c i g' f' a' c' ll' i' b' Hgg Hii Hf' Ht' Ha' Hi' Hb' r.
    destruct (after_simple_connect_frame s g f a c i) as (Hlist & Hfs & Hmask).
    apply connect_simple_run; try done; destruct r; try done.
    - by rewrite Hfs.
    - by rewrite Hlist.
    - by rewrite Hmask. }
  pose proof (Hsecond self g1 f1 a1 c1 i1 g2 f2 a2 c2 ll2 i2 b2 Hg Hi Hf2 Ht2 Ha2 Hi2 Hb2 r1)
    as [Hr12 Hs12].
  pose proof (Hsecond self g2 f2 a2 c2 i2 g1 f1 a1 c1 ll1 i1 b1 (not_eq_sym Hg)
                (not_eq_sym Hi) Hf1 Ht1 Ha1 Hi1 Hb1 r2) as [Hr21 Hs21].
  fold r1 r2 in Hr12, Hs12, Hr21, Hs21.
  split.
  - by rewrite Hs1, Hr12, Hr2.
  - cbn [run_calls]. rewrite Hs1, Hs12, Hs2, Hs21.
    destruct r1, r2; try done. by apply after_simple_connect_commute.
Qed.

Lemma connections_to_different_features_commute_witness :
  result (connect 5 20 true false (self_after (connect 1 10 true false assorted_catalog)))
  = result (connect 5 20 true false assorted_catalog)
  ∧ run_calls [(1%Z, 10, false); (5%Z, 20, false)] assorted_catalog
    = run_calls [(5%Z, 20, false); (1%Z, 10, false)] assorted_catalog.
Proof.
  apply (connections_to_different_features_commute assorted_catalog
           1%Z (line 10) 10 10 false 5%Z (load_center 50) 50 20 false).
  - apply catalog_wf. apply (bool_decide_unpack (NoDup [1%Z; 5%Z; 9%Z; 11%Z])).
    vm_compute. exact I.
  - discriminate.
  - reflexivity.
  - by left.
  - reflexivity.
  - reflexivity.
  - by right.
  - reflexivity.
Defined.

(** X22.  Feasibility is monotone in the request: the probe accepts a
    request exactly when the flag of the feature is set and the capacity
    is [None] or at least the request, so whatever it accepts it accepts
    for every smaller request, and [cost] has a price for every smaller
    request as well. *)
Theorem feasibility_is_monotone self g c c' ll :
  c' <= c →
  result (connect g c false ll self) = inr true →
  result (connect g c' false ll self) = inr true
  ∧ ∀ f d tm, _features self !! g = Some f →
      result (cost g d tm (Some c') ll self)
      = inr (Some (d * _line_cost self * tm + tie_in_cost self (f_type f))).
Proof.
  intros Hle Hc.
  assert (result (connect g c' false ll self) = inr true) as Hc'.
  { revert Hc. rewrite !connect_probe_result.
    destruct (result (check_availability g self)) as [e|[|]]; [done| |done].
    destruct (result (available_capacity g ll self)) as [e|[a|]]; [done| |done].
    unfold Qltb. destruct (Qlt_le_dec a c) as [|Hac]; [done|]. intros _.
    destruct (Qlt_le_dec a c') as [Hlt|]; [|done].
    exfalso. apply (Qlt_not_le _ _ Hlt). by apply (Qle_trans _ c). }
  split; [done|]. intros f d tm Hf.
  by rewrite (cost_result self g f d tm (Some c') ll Hf), Hc'.
Qed.

Lemma feasibility_is_monotone_witness :
  result (connect 7 3 false false two_line_station) = inr true
  ∧ result (cost 7 10 1 (Some 3) false two_line_station)
    = inr (Some (10 * _line_cost two_line_station * 1
                 + tie_in_cost two_line_station "Substation")).
Proof.
  destruct (feasibility_is_monotone two_line_station 7%Z (13 # 2) 3 false)
    as [Hprobe Hcost].
  - vm_compute. discriminate.
  - vm_compute. reflexivity.
  - split; [exact Hprobe|]. by apply (Hcost (station [1%Z; 2%Z])).
Defined.

(** X23.  The constructor establishes the catalog invariant and [connect]
    keeps it: when, in a DataFrame, every first row of a line or load
    center gets a non-negative capacity and every first row of a
    substation lists distinct gids whose first rows are TransLines, the
    object built from it is well formed (gid list and mask matching the
    features, capacities not negative, substations over distinct lines, no
    flag cleared while capacity is left), and is so again after any
    sequence of [connect] calls with non-negative requests. *)
Theorem valid_tables_give_well_formed_catalogs read_csv read_json df
    p1 p2 p3 p4 p5 p6 tf calls :
  (∀ g r, first_row g df = Some r → row_ok p6 df r) →
  __init__ read_csv read_json (TableFrame df) None p1 p2 p3 p4 p5 p6 = inr tf →
  Forall (λ call, 0 <= call.1.2) calls →
  catalog_ok tf ∧ catalog_ok (run_calls calls tf).
Proof.
  intros Hrows Hinit Hcalls.
  assert (catalog_ok tf) as Hok.
  { apply (init_catalog_ok _ _ _ _ _ _ _ _ _ _ _ Hinit).
    apply init_frame_inv in Hinit as (Hfs & _). rewrite Hfs.
    intros g f. rewrite features_from_table_first_row.
    destruct (first_row g df) as [r|] eqn:Hr; [|done].
    intros [= <-]. apply feature_dict_ok. by eapply Hrows. }
  split; [done|]. by apply run_calls_preserves.
Qed.

Lemma valid_tables_give_well_formed_catalogs_witness :
  ∃ tf, __init__ (λ _, inl ValueError) (λ _, inl ValueError)
          (TableFrame station_table) None 14000 3667 0 0 0 (1 # 10) = inr tf
        ∧ catalog_ok tf
        ∧ catalog_ok (run_calls [(7%Z, 13 # 2, false); (1%Z, 1, true)] tf).
Proof.
  set (built := __init__ (λ _, inl ValueError) (λ _, inl ValueError)
                  (TableFrame station_table) None 14000 3667 0 0 0 (1 # 10)).
  let r := eval vm_compute in built in
  match r with inr ?tf => exists tf; assert (built = inr tf) as Hinit
                                      by (vm_compute; reflexivity) end.
  subst built. split; [exact Hinit|].
  apply (valid_tables_give_well_formed_catalogs _ _ _ _ _ _ _ _ _ _
           [(7%Z, 13 # 2, false); (1%Z, 1, true)]) in Hinit.
  - exact Hinit.
  - intros g r Hr. apply first_row_gid in Hr as [_ Hr].
    apply elem_of_cons in Hr as [->|Hr]; [|apply elem_of_cons in Hr as [->|Hr];
      [|apply list_elem_of_singleton in Hr as ->]].
    + split; [intros _; vm_compute; discriminate | intros H; discriminate H].
    + split; [intros _; vm_compute; discriminate | intros H; discriminate H].
    + split; [intros [H|H]; discriminate H|]. intros _. split.
      * apply (bool_decide_unpack (NoDup [1%Z; 2%Z])). vm_compute. exact I.
      * repeat constructor; eexists; (split; [reflexivity|reflexivity]).
  - repeat constructor; vm_compute; discriminate.
Defined.
